(** * maxrl_demo: the training and evaluation engine of [engine.js]

    A shallow embedding of the grid world, the tabular softmax policy, the
    rollout, the two policy-gradient updates, the evaluator, the breadth-first
    search and the maze generator, followed by the properties stated about
    them.

    Conventions of the embedding.
    - JavaScript numbers that hold logits, probabilities, learning rates and
      rewards are exact rationals ([Qc], canonical fractions with Leibniz
      equality).  Rounding, [NaN] and the infinities of IEEE doubles are
      outside this model; [-Infinity] as the initial value of a running
      maximum is [None].
    - [Math.exp] is a parameter [exp : Qc -> Qc] of the policy section, and the
      results of successive [Math.random()] calls are a parameter
      [random : nat -> Qc] read through a call counter that every sampling
      function takes and returns.
    - Grid coordinates are [Z] (a neighbour of row 0 has row -1); a position
      is a pair.  A grid is a list of rows of numbers, 0 for a path cell.
    - [Float64Array] and [Uint8Array] ignore writes outside their range and
      read [undefined] there; plain arrays grow on such a write.
    - [nActions] is the constructor's default 4: no call in the repository
      passes another value.
    - A function that can throw, or that recurses without a bound, returns a
      [Run]: [Throws], [Returns v], or [OutOfFuel] when the bound the model
      adds is reached. *)

From Stdlib Require Import ZArith QArith Qcanon Qround Lia.
From stdpp Require Import base numbers option list gmap sets.

Open Scope Z_scope.

(** ** Actions and constants *)

Definition UP : nat := 0.
Definition DOWN : nat := 1.
Definition RIGHT : nat := 3.

Definition ACTION_DELTAS : list (Z * Z) :=
  [ (-1, 0); (1, 0); (0, -1); (0, 1) ].

Definition MAX_LOGIT : Qc := Qc_of_Z 20.

Definition nActions : nat := 4.

Abbreviation pos := (Z * Z)%type.

(** A count as a JavaScript number. *)
Definition QcOfNat (n : nat) : Qc := Qc_of_Z (Z.of_nat n).

(** ** TabularSoftmaxPolicy: the parts that do not sample *)

Record TabularSoftmaxPolicy : Type := mkPolicy {
  height : nat;
  width : nat;
  logits : list Qc
}.

(** [new TabularSoftmaxPolicy(height, width)]: a zero-filled array. *)
Definition newPolicy (h w : nat) : TabularSoftmaxPolicy :=
  mkPolicy h w (replicate (h * w * nActions) 0%Qc).

(** [if (v > maxVal) maxVal = v], with [None] for [-Infinity] and for an
    [undefined] read, which compares false. *)
Definition maxStep (l : list Qc) (base : nat) (maxVal : option Qc) (a : nat)
  : option Qc :=
  match l !! (base + a)%nat with
  | None => maxVal
  | Some v =>
      match maxVal with
      | None => Some v
      | Some m => if decide (m < v)%Qc then Some v else Some m
      end
  end.

Definition blockMax (l : list Qc) (base : nat) : option Qc :=
  foldl (maxStep l base) None (seq 0 nActions).

Definition clamp (v : Qc) : Qc :=
  let v1 := if decide (v < - MAX_LOGIT)%Qc then (- MAX_LOGIT)%Qc else v in
  if decide (MAX_LOGIT < v1)%Qc then MAX_LOGIT else v1.

(** One iteration of the second inner loop of [clipLogits]; a slot outside
    the array is neither read to a number nor written. *)
Definition clipStep (maxVal : Qc) (base : nat) (l : list Qc) (a : nat)
  : list Qc :=
  match l !! (base + a)%nat with
  | None => l
  | Some v => <[(base + a)%nat := clamp (v - maxVal)%Qc]> l
  end.

(** The body of the two outer loops, for one state. *)
Definition clipState (w : nat) (l : list Qc) (r c : nat) : list Qc :=
  let base := ((r * w + c) * nActions)%nat in
  match blockMax l base with
  | None => l
  | Some m => foldl (clipStep m base) l (seq 0 nActions)
  end.

Definition clipRow (w : nat) (l : list Qc) (r : nat) : list Qc :=
  foldl (fun l c => clipState w l r c) l (seq 0 w).

Definition clipLogits (p : TabularSoftmaxPolicy) : TabularSoftmaxPolicy :=
  mkPolicy (height p) (width p)
    (foldl (clipRow (width p)) (logits p) (seq 0 (height p))).

(** The value that ends up in slot [i] once the first [n] states (in
    row-major order) have gone through the loop body: the slot's logit minus
    the maximum of its state's block, clamped. *)
Definition clippedAt (l : list Qc) (n i : nat) (v : Qc) : Qc :=
  if decide (i < n * nActions)%nat then
    match blockMax l (i / nActions * nActions)%nat with
    | Some m => clamp (v - m)%Qc
    | None => v
    end
  else v.

(** ** GridWorld *)

Abbreviation Grid := (list (list Z)).

(** [grid.length] and [grid[0].length].  The latter throws on an empty grid;
    no [GridWorld] exists for one, and the searches below fail there. *)
Definition gridHeight (g : Grid) : Z := Z.of_nat (length g).

Definition gridWidth (g : Grid) : Z :=
  match g with
  | [] => 0
  | row :: _ => Z.of_nat (length row)
  end.

(** [grid[row][col]], read only behind a bounds check; a row shorter than
    row 0 reads [undefined]. *)
Definition cellAt (g : Grid) (row col : Z) : option Z :=
  if decide (0 ≤ row ∧ 0 ≤ col)
  then g !! Z.to_nat row ≫= (λ cells, cells !! Z.to_nat col)
  else None.

Definition inGrid (g : Grid) (row col : Z) : bool :=
  (0 <=? row) && (row <? gridHeight g) && (0 <=? col) && (col <? gridWidth g).

Definition openCell (g : Grid) (row col : Z) : bool :=
  inGrid g row col && bool_decide (cellAt g row col = Some 0).

Record GridWorld : Type := mkGridWorld {
  grid : Grid;
  start : pos;
  goal : pos
}.

Definition inBounds (e : GridWorld) (row col : Z) : bool :=
  inGrid (grid e) row col.

Definition isPath (e : GridWorld) (row col : Z) : bool :=
  inBounds e row col && bool_decide (cellAt (grid e) row col = Some 0).

Definition samePos (p q : pos) : bool :=
  (p.1 =? q.1) && (p.2 =? q.2).

(** [ACTION_DELTAS[action]]; every action produced by the policy is below 4. *)
Definition delta (action : nat) : Z * Z :=
  nth action ACTION_DELTAS (0, 0).

(** [step] returns [{newPos, done}]. *)
Definition step (e : GridWorld) (p : pos) (action : nat) : pos * bool :=
  let '(row, col) := p in
  let '(dr, dc) := delta action in
  let nr := row + dr in
  let nc := col + dc in
  let newPos := if isPath e nr nc then (nr, nc) else (row, col) in
  (newPos, samePos newPos (goal e)).

(** ** Trajectories *)

Record Trajectory : Type := mkTrajectory {
  stateActions : list (Z * Z * nat);
  reachedGoal : bool;
  path : list pos
}.

(** ** Sampling, rollout, updates and evaluation *)

(** A read of the logits at an index computed from a position. *)
Definition readZ (l : list Qc) (i : Z) : option Qc :=
  if decide (0 ≤ i) then l !! Z.to_nat i else None.

(** [grad[i] += x] on a [Float64Array]. *)
Definition addAt (g : list Qc) (i : Z) (x : Qc) : list Qc :=
  match readZ g i with
  | Some v => <[Z.to_nat i := (v + x)%Qc]> g
  | None => g
  end.

Definition stateBase (p : TabularSoftmaxPolicy) (row col : Z) : Z :=
  (row * Z.of_nat (width p) + col) * Z.of_nat nActions.

Definition sumQc (l : list Qc) : Qc := foldl Qcplus 0%Qc l.

(** The cumulative-sum scan shared by [sampleAction] and [_chooseWeighted]:
    the first index [a] among the next [n] with [r < cumulative]. *)
Fixpoint cumulativePick (probs : list Qc) (r : Qc) (n a : nat) (cumulative : Qc)
  : option nat :=
  match n with
  | O => None
  | S n' =>
      let c := (cumulative + nth a probs 0)%Qc in
      if decide (r < c)%Qc then Some a else cumulativePick probs r n' (S a) c
  end.

Section Engine.

(** [Math.exp] and the sequence of values returned by [Math.random()]. *)
Variable exp : Qc → Qc.
Variable random : nat → Qc.

Definition maxStepZ (l : list Qc) (base : Z) (maxZ : option Qc) (a : nat)
  : option Qc :=
  match readZ l (base + Z.of_nat a) with
  | None => maxZ
  | Some v =>
      match maxZ with
      | None => Some v
      | Some m => if decide (m < v)%Qc then Some v else Some m
      end
  end.

(** [getProbs]: softmax of the four logits of a state, after subtracting
    their maximum.  At a state outside the array JavaScript computes with
    [undefined]; the model reads 0 there and nothing below relies on it. *)
Definition getProbs (p : TabularSoftmaxPolicy) (row col : Z) : list Qc :=
  let base := stateBase p row col in
  let maxZ := foldl (maxStepZ (logits p) base) None (seq 0 nActions) in
  let es :=
    map (λ a, exp (default 0 (readZ (logits p) (base + Z.of_nat a))
                   - default 0 maxZ)%Qc)
        (seq 0 nActions) in
  let sum := sumQc es in
  map (λ e, (e / sum)%Qc) es.

(** [sampleAction] consumes one random number. *)
Definition sampleAction (p : TabularSoftmaxPolicy) (row col : Z) (k : nat)
  : nat * nat :=
  let probs := getProbs p row col in
  let r := random k in
  (default (nActions - 1)%nat (cumulativePick probs r nActions 0 0%Qc), S k).

(** [scoreFunction]: minus the probabilities, plus one at the action taken. *)
Definition scoreFunction (p : TabularSoftmaxPolicy) (row col : Z) (action : nat)
  : list Qc :=
  let probs := getProbs p row col in
  let grad := map (λ a, (- nth a probs 0)%Qc) (seq 0 nActions) in
  addAt grad (Z.of_nat action) 1%Qc.

(** The loop of [rollout], [t] iterations left. *)
Fixpoint rolloutLoop (p : TabularSoftmaxPolicy) (e : GridWorld) (t : nat)
    (cur : pos) (sa : list (Z * Z * nat)) (visited : list pos) (k : nat)
  : Trajectory * nat :=
  match t with
  | O => (mkTrajectory sa (samePos cur (goal e)) visited, k)
  | S t' =>
      if samePos cur (goal e) then (mkTrajectory sa true visited, k)
      else
        let '(action, k1) := sampleAction p cur.1 cur.2 k in
        let sa1 := sa ++ [(cur.1, cur.2, action)] in
        let next := (step e cur action).1 in
        rolloutLoop p e t' next sa1 (visited ++ [next]) k1
  end.

(** [rollout(policy, env, start, maxSteps)]; [None] is a null start. *)
Definition rollout (p : TabularSoftmaxPolicy) (e : GridWorld)
    (st : option pos) (maxSteps : nat) (k : nat) : Trajectory * nat :=
  let cur := default (start e) st in
  rolloutLoop p e maxSteps cur [] [cur] k.

(** [_chooseWeighted]: an index, or [probs.length - 1]. *)
Definition chooseWeighted (probs : list Qc) (k : nat) : Z * nat :=
  let r := random k in
  (match cumulativePick probs r (length probs) 0 0%Qc with
   | Some i => Z.of_nat i
   | None => Z.of_nat (length probs) - 1
   end, S k).

(** [starts[idx]]: [undefined] outside the array. *)
Definition startAt (starts : list pos) (idx : Z) : option pos :=
  if decide (0 ≤ idx) then starts !! Z.to_nat idx else None.

(** The first loop of both updates: [N] trajectories. *)
Fixpoint sampleBatch (p : TabularSoftmaxPolicy) (e : GridWorld)
    (starts : list pos) (startProbs : list Qc) (N maxSteps : nat) (k : nat)
  : list Trajectory * nat :=
  match N with
  | O => ([], k)
  | S N' =>
      let '(idx, k1) := chooseWeighted startProbs k in
      let '(traj, k2) := rollout p e (startAt starts idx) maxSteps k1 in
      let '(rest, k3) := sampleBatch p e starts startProbs N' maxSteps k2 in
      (traj :: rest, k3)
  end.

Definition reward (t : Trajectory) : Qc :=
  if reachedGoal t then 1%Qc else 0%Qc.

(** [K], the sum of the rewards. *)
Definition successes (trajectories : list Trajectory) : Qc :=
  sumQc (map reward trajectories).

(** The innermost loop of the gradient accumulation; [term] is the expression
    added for a score component. *)
Definition accumScore (term : Qc → Qc) (score : list Qc) (base : Z)
    (grad : list Qc) : list Qc :=
  foldl (λ g a, addAt g (base + Z.of_nat a) (term (nth a score 0%Qc)))
        grad (seq 0 nActions).

(** The loop over the state-action pairs of one trajectory. *)
Definition accumTrajectory (p : TabularSoftmaxPolicy) (term : Qc → Qc)
    (grad : list Qc) (sa : list (Z * Z * nat)) : list Qc :=
  foldl (λ g '(row, col, action),
           accumScore term (scoreFunction p row col action)
                      (stateBase p row col) g)
        grad sa.

(** [logits[i] += lr * grad[i]] for every [i]. *)
Definition applyGradient (lr : Qc) (l grad : list Qc) : list Qc :=
  imap (λ i z, (z + lr * nth i grad 0)%Qc) l.

Definition zeroGrad (p : TabularSoftmaxPolicy) : list Qc :=
  replicate (length (logits p)) 0%Qc.

(** The gradient loops of [reinforceUpdate]. *)
Definition reinforceGradient (p : TabularSoftmaxPolicy)
    (trajectories : list Trajectory) (N : nat) : list Qc :=
  let K := successes trajectories in
  let rHat := (K / QcOfNat N)%Qc in
  foldl (λ g t,
           let advantage := (reward t - rHat)%Qc in
           accumTrajectory p (λ s, (1 / QcOfNat N) * advantage * s)%Qc
                           g (stateActions t))
        (zeroGrad p) trajectories.

(** [reinforceUpdate] returns [K], the updated policy and the call counter. *)
Definition reinforceUpdate (p : TabularSoftmaxPolicy) (e : GridWorld)
    (starts : list pos) (startProbs : list Qc) (N : nat) (lr : Qc)
    (maxSteps : nat) (k : nat) : Qc * TabularSoftmaxPolicy * nat :=
  let '(trajectories, k1) := sampleBatch p e starts startProbs N maxSteps k in
  let K := successes trajectories in
  let grad := reinforceGradient p trajectories N in
  let p1 := mkPolicy (height p) (width p) (applyGradient lr (logits p) grad) in
  (K, clipLogits p1, k1).

(** The gradient loops of [maxrlUpdate]. *)
Definition maxrlGradient (p : TabularSoftmaxPolicy)
    (trajectories : list Trajectory) (N : nat) : list Qc :=
  let K := successes trajectories in
  foldl (λ g t,
           let weight := (reward t / K - 1 / QcOfNat N)%Qc in
           accumTrajectory p (λ s, weight * s)%Qc g (stateActions t))
        (zeroGrad p) trajectories.

Definition maxrlUpdate (p : TabularSoftmaxPolicy) (e : GridWorld)
    (starts : list pos) (startProbs : list Qc) (N : nat) (lr : Qc)
    (maxSteps : nat) (k : nat) : Qc * TabularSoftmaxPolicy * nat :=
  let '(trajectories, k1) := sampleBatch p e starts startProbs N maxSteps k in
  let K := successes trajectories in
  if decide (0 < K)%Qc then
    let grad := maxrlGradient p trajectories N in
    let p1 := mkPolicy (height p) (width p) (applyGradient lr (logits p) grad) in
    (K, clipLogits p1, k1)
  else (K, p, k1).

(** [evaluateFromStart]: the fraction of [nEval] rollouts that reach the goal. *)
Fixpoint evalLoop (p : TabularSoftmaxPolicy) (e : GridWorld) (st : option pos)
    (n maxSteps : nat) (succ : nat) (k : nat) : nat * nat :=
  match n with
  | O => (succ, k)
  | S n' =>
      let '(traj, k1) := rollout p e st maxSteps k in
      evalLoop p e st n' maxSteps (if reachedGoal traj then S succ else succ) k1
  end.

Definition evaluateFromStart (p : TabularSoftmaxPolicy) (e : GridWorld)
    (st : option pos) (nEval maxSteps : nat) (k : nat) : Qc * nat :=
  let '(succ, k1) := evalLoop p e st nEval maxSteps 0 k in
  ((QcOfNat succ / QcOfNat nEval)%Qc, k1).

End Engine.

(** ** Outcomes of code that can throw or recurse without bound *)

Inductive Run (A : Type) : Type :=
  | OutOfFuel : Run A
  | Throws : Run A
  | Returns : A → Run A.

Arguments OutOfFuel {A}.
Arguments Throws {A}.
Arguments Returns {A} _.

Definition runBind {A B} (m : Run A) (f : A → Run B) : Run B :=
  match m with
  | OutOfFuel => OutOfFuel
  | Throws => Throws
  | Returns a => f a
  end.

(** ** Breadth-first search *)

(** A queue entry [[r, c, dist]]. *)
Abbreviation Entry := (pos * Z)%type.

(** The mutable state of [bfsShortestPath]: the queue array with its read
    index, the cells whose [visited] byte is 1, and the cells whose [parent]
    entry has been assigned (all others hold [[-1, -1]]). *)
Record BfsState : Type := mkBfs {
  queue : list Entry;
  head : nat;
  visited : gset pos;
  parent : gmap pos pos
}.

Definition move (u : pos) (d : Z * Z) : pos := (u.1 + d.1, u.2 + d.2).

(** One iteration of the loop over the four directions, for the dequeued
    entry [(u, dist)]. *)
Definition expandStep (g : Grid) (u : pos) (dist : Z) (st : BfsState)
    (d : Z * Z) : BfsState :=
  let n := move u d in
  if openCell g n.1 n.2 && bool_decide (n ∉ visited st) then
    mkBfs (queue st ++ [(n, dist + 1)]) (head st)
          ({[ n ]} ∪ visited st) (<[ n := u ]> (parent st))
  else st.

(** [parent[cr][cc]]: throws outside the grid's bounds. *)
Definition parentAt (g : Grid) (par : gmap pos pos) (c : pos) : option pos :=
  if inGrid g c.1 c.2 then Some (default (-1, -1) (par !! c)) else None.

(** The path reconstruction loop, accumulating the reversed array.  The
    JavaScript loops have no bound; [fuel] is the model's, and
    [bfsWith_total] shows that no search ever reaches it. *)
Fixpoint reconstruct (fuel : nat) (g : Grid) (par : gmap pos pos) (c : pos)
    (acc : list pos) : Run (list pos) :=
  if decide (c.1 = -1) then Returns acc
  else
    match fuel with
    | O => OutOfFuel
    | S fuel' =>
        match parentAt g par c with
        | None => Throws
        | Some pc => reconstruct fuel' g par pc (c :: acc)
        end
    end.

(** The [while (head < queue.length)] loop; the queue is the whole array,
    read at [head]. *)
Fixpoint bfsLoop (fuel : nat) (deltas : list (Z * Z)) (g : Grid) (goal : pos)
    (st : BfsState) : Run (option (Z * list pos)) :=
  match fuel with
  | O => OutOfFuel
  | S fuel' =>
      match queue st !! head st with
      | None => Returns None
      | Some (u, dist) =>
          let st1 := mkBfs (queue st) (S (head st)) (visited st) (parent st) in
          if samePos u goal then
            runBind (reconstruct (S (length (queue st))) g (parent st) u [])
                    (λ cells, Returns (Some (dist, cells)))
          else bfsLoop fuel' deltas g goal (foldl (expandStep g u dist) st1 deltas)
      end
  end.

(** The search with the directions tried in the order of [deltas].  The
    result is the returned object, [None] for [null]. *)
Definition bfsWith (deltas : list (Z * Z)) (g : Grid) (start goal : pos)
  : Run (option (Z * list pos)) :=
  match g with
  | [] => Throws
  | _ =>
      if (0 <=? start.1) && (start.1 <? gridHeight g) then
        let seen : gset pos :=
          if inGrid g start.1 start.2 then {[ start ]} else ∅ in
        bfsLoop (Z.to_nat (gridHeight g * gridWidth g) + 2) deltas g goal
                (mkBfs [(start, 0)] 0 seen ∅)
      else Throws
  end.

Definition bfsShortestPath (g : Grid) (start goal : pos)
  : Run (option (Z * list pos)) :=
  bfsWith ACTION_DELTAS g start goal.

(** ** Maze generation *)

(** What the model stores in an array hole; it reads [undefined] in
    JavaScript and, like this value, is not [=== 0]. *)
Definition hole : Z := -1.

(** [cells[col] = v] on a plain array: a write past the end grows it, a
    negative index does not touch the elements. *)
Definition setIndex (cells : list Z) (col : Z) (v : Z) : list Z :=
  if decide (col < 0) then cells
  else if decide (Z.to_nat col < length cells)%nat then <[Z.to_nat col := v]> cells
  else cells ++ replicate (Z.to_nat col - length cells) hole ++ [v].

(** [grid[row][col] = v]: throws when [grid[row]] is [undefined]. *)
Definition setCell (g : Grid) (row col : Z) (v : Z) : Run Grid :=
  if decide (0 ≤ row) then
    match g !! Z.to_nat row with
    | None => Throws
    | Some cells => Returns (<[Z.to_nat row := setIndex cells col v]> g)
    end
  else Throws.

Definition wallProb : Qc := Q2Qc (3 # 10).

Definition floorQc (x : Qc) : Z := Qfloor (this x).

Section MazeGenerator.

Variable random : nat → Qc.

(** One row of the random scatter; interior cells consume a random number
    each, in column order. *)
Fixpoint scatterRow (rows cols : nat) (r : Z) (c : nat) (n : nat) (k : nat)
  : list Z * nat :=
  match n with
  | O => ([], k)
  | S n' =>
      let border :=
        bool_decide (r = 0 ∨ r = Z.of_nat rows - 1
                     ∨ Z.of_nat c = 0 ∨ Z.of_nat c = Z.of_nat cols - 1) in
      let '(cell, k1) :=
        if border then (1, k)
        else ((if decide (random k < wallProb)%Qc then 1 else 0), S k) in
      let '(rest, k2) := scatterRow rows cols r (S c) n' k1 in
      (cell :: rest, k2)
  end.

Fixpoint scatterRows (rows cols : nat) (r : nat) (n : nat) (k : nat)
  : Grid * nat :=
  match n with
  | O => ([], k)
  | S n' =>
      let '(row, k1) := scatterRow rows cols (Z.of_nat r) 0 cols k in
      let '(rest, k2) := scatterRows rows cols (S r) n' k1 in
      (row :: rest, k2)
  end.

(** The repair loop: up to [attempts] random interior cells are opened, the
    search run after each. *)
Fixpoint pokeLoop (attempts : nat) (rows cols : nat) (g : Grid)
    (start goal : pos) (k : nat) : Run (Grid * bool * nat) :=
  match attempts with
  | O => Returns (g, false, k)
  | S attempts' =>
      let r := 1 + floorQc (random k * Qc_of_Z (Z.of_nat rows - 2)) in
      let c := 1 + floorQc (random (S k) * Qc_of_Z (Z.of_nat cols - 2)) in
      runBind (setCell g r c 0) (λ g1,
      runBind (bfsShortestPath g1 start goal) (λ check,
        match check with
        | Some _ => Returns (g1, true, S (S k))
        | None => pokeLoop attempts' rows cols g1 start goal (S (S k))
        end))
  end.

(** [generateMaze]; [fuel] bounds the depth of the recursive retry, [None]
    is an omitted start (default [[1, 1]]) or a null goal. *)
Fixpoint generateMaze (fuel : nat) (rows cols : nat) (start goal : option pos)
    (k : nat) : Run (Grid * nat) :=
  match fuel with
  | O => OutOfFuel
  | S fuel' =>
      let start1 := default (1, 1) start in
      let goal1 := default (Z.of_nat rows - 2, Z.of_nat cols - 2) goal in
      let '(g0, k1) := scatterRows rows cols 0 rows k in
      runBind (setCell g0 start1.1 start1.2 0) (λ g1,
      runBind (setCell g1 goal1.1 goal1.2 0) (λ g2,
      runBind (bfsShortestPath g2 start1 goal1) (λ check,
        match check with
        | Some _ => Returns (g2, k1)
        | None =>
            runBind (pokeLoop 200 rows cols g2 start1 goal1 k1)
              (λ '(g3, connected, k2),
                 if connected then Returns (g3, k2)
                 else generateMaze fuel' rows cols (Some start1) (Some goal1) k2)
        end)))
  end.

End MazeGenerator.

(** ** Specification-level notions for the updates *)

(** The policies a training run can hold: created at zero and changed only
    by the two updates. *)
Inductive Trained (exp : Qc → Qc) (random : nat → Qc)
  : TabularSoftmaxPolicy → Prop :=
  | trained_new (h w : nat) : Trained exp random (newPolicy h w)
  | trained_reinforce p e starts startProbs N lr maxSteps k :
      Trained exp random p →
      Trained exp random
        (reinforceUpdate exp random p e starts startProbs N lr maxSteps k).1.2
  | trained_maxrl p e starts startProbs N lr maxSteps k :
      Trained exp random p →
      Trained exp random
        (maxrlUpdate exp random p e starts startProbs N lr maxSteps k).1.2.

(** The component of [scoreFunction(row, col, action)] that belongs to the
    logit slot [slot], 0 when the slot is not one of that state's. *)
Definition scoreAt (exp : Qc → Qc) (p : TabularSoftmaxPolicy) (slot : nat)
    (sa : Z * Z * nat) : Qc :=
  let '(row, col, action) := sa in
  let off := Z.of_nat slot - stateBase p row col in
  if decide (0 ≤ off < Z.of_nat nActions)
  then nth (Z.to_nat off) (scoreFunction exp p row col action) 0%Qc
  else 0%Qc.

(** The sum, over every visit of every trajectory, of the trajectory's weight
    times the score component of the slot. *)
Definition weightedScoreSum (exp : Qc → Qc) (p : TabularSoftmaxPolicy)
    (weight : Trajectory → Qc) (ts : list Trajectory) (slot : nat) : Qc :=
  sumQc (map (λ t, sumQc (map (λ sa, (weight t * scoreAt exp p slot sa)%Qc)
                              (stateActions t)))
             ts).

(** [w_i = reward_i / K - 1 / N] and [A_i = reward_i - K / N]. *)
Definition maxrlWeight (K : Qc) (N : nat) (t : Trajectory) : Qc :=
  (reward t / K - 1 / QcOfNat N)%Qc.

Definition advantage (K : Qc) (N : nat) (t : Trajectory) : Qc :=
  (reward t - K / QcOfNat N)%Qc.

(** [logits += lr * gradient] followed by [clipLogits], for a gradient given
    slot by slot. *)
Definition steppedPolicy (p : TabularSoftmaxPolicy) (lr : Qc)
    (gradient : nat → Qc) : TabularSoftmaxPolicy :=
  clipLogits (mkPolicy (height p) (width p)
                (imap (λ i z, (z + lr * gradient i)%Qc) (logits p))).

(** Written from the specification's words: the update
    of [maxrlUpdate] read as the loops of [reinforceUpdate] with [w_i] put in
    the place of [A_i], the factor [1 / N] kept. *)
Definition maxrlUpdateAsWorded (exp : Qc → Qc) (random : nat → Qc)
    (p : TabularSoftmaxPolicy) (e : GridWorld) (starts : list pos)
    (startProbs : list Qc) (N : nat) (lr : Qc) (maxSteps : nat) (k : nat)
  : Qc * TabularSoftmaxPolicy * nat :=
  let '(trajectories, k1) :=
    sampleBatch exp random p e starts startProbs N maxSteps k in
  let K := successes trajectories in
  if decide (0 < K)%Qc then
    (K,
     steppedPolicy p lr
       (weightedScoreSum exp p
          (λ t, (1 / QcOfNat N * maxrlWeight K N t)%Qc) trajectories),
     k1)
  else (K, p, k1).

(** ** Specification-level notions for the search *)

(** One move of the search: a step in one of the directions into a cell
    that is inside the grid and holds 0.  For a start on a path cell these
    are the edges of the 4-neighbour grid graph restricted to path cells;
    the cell moved from is not examined. *)
Definition edge (deltas : list (Z * Z)) (g : Grid) (u v : pos) : Prop :=
  ∃ d, d ∈ deltas ∧ v = move u d ∧ openCell g v.1 v.2 = true.

(** [walk u n v]: [v] is reached from [u] by [n] moves. *)
Inductive walk (deltas : list (Z * Z)) (g : Grid) (u : pos)
  : nat → pos → Prop :=
  | walk_here : walk deltas g u 0 u
  | walk_step n v w :
      walk deltas g u n v → edge deltas g v w → walk deltas g u (S n) w.

(** [route u cells v]: [cells] lists the cells of a sequence of moves from
    [u] to [v], both included. *)
Inductive route (deltas : list (Z * Z)) (g : Grid) (u : pos)
  : list pos → pos → Prop :=
  | route_start : route deltas g u [u] u
  | route_step cells v w :
      route deltas g u cells v → edge deltas g v w →
      route deltas g u (cells ++ [w]) w.

(** The 4-neighbour relation of the grid, stated without the table of
    directions. *)
Definition adjacent (u v : pos) : Prop :=
  Z.abs (v.1 - u.1) + Z.abs (v.2 - u.2) = 1.

(** [pathRoute u cells v]: [cells] is a route from [u] to [v] in the
    4-neighbour grid graph restricted to path cells: every cell, the first
    included, is a path cell, and consecutive cells are neighbours. *)
Inductive pathRoute (g : Grid) (u : pos) : list pos → pos → Prop :=
  | pathRoute_start :
      openCell g u.1 u.2 = true → pathRoute g u [u] u
  | pathRoute_step cells v w :
      pathRoute g u cells v → adjacent v w → openCell g w.1 w.2 = true →
      pathRoute g u (cells ++ [w]) w.

(** All cells inside the bounds of a grid. *)
Definition allCells (g : Grid) : list pos :=
  list_prod (seqZ 0 (gridHeight g)) (seqZ 0 (gridWidth g)).

(** The invariant of the search loop.  The entries before index [h] have had
    all their directions tried; entry [h] has had the directions in [tried]
    tried. *)
Record BfsInv (deltas : list (Z * Z)) (g : Grid) (start goal : pos)
    (q : list Entry) (vis : gset pos) (par : gmap pos pos)
    (h : nat) (tried : list (Z * Z)) : Prop := mkBfsInv {
  inv_head : (h ≤ length q)%nat;
  inv_first : q !! 0%nat = Some (start, 0);
  inv_vis : ∀ v, v ∈ vis ↔ inGrid g v.1 v.2 = true ∧ ∃ d, (v, d) ∈ q;
  inv_nodup : NoDup (q.*1);
  inv_inb : ∀ i v d, q !! S i = Some (v, d) → inGrid g v.1 v.2 = true;
  inv_sorted : ∀ i j ei ej,
    (i ≤ j)%nat → q !! i = Some ei → q !! j = Some ej → ei.2 ≤ ej.2;
  inv_level : ∀ j eh ej,
    q !! h = Some eh → q !! j = Some ej → ej.2 ≤ eh.2 + 1;
  inv_walk : ∀ i v d,
    q !! i = Some (v, d) →
    0 ≤ d ∧ walk deltas g start (Z.to_nat d) v ∧ (Z.to_nat d ≤ i)%nat;
  inv_closed : ∀ i u du v,
    (i < h)%nat → q !! i = Some (u, du) → edge deltas g u v →
    ∃ dv, (v, dv) ∈ q ∧ dv ≤ du + 1;
  inv_partial : ∀ u du d,
    q !! h = Some (u, du) → d ∈ tried →
    openCell g (move u d).1 (move u d).2 = true →
    ∃ dv, (move u d, dv) ∈ q ∧ dv ≤ du + 1;
  inv_goal : ∀ i u du, (i < h)%nat → q !! i = Some (u, du) → u ≠ goal;
  inv_parent : ∀ i v d,
    q !! i = Some (v, d) →
    match i with
    | O => par !! v = None
    | S _ => ∃ u, par !! v = Some u ∧ (u, d - 1) ∈ q ∧ edge deltas g u v
    end
}.

(** What the search promises about its result. *)
Definition bfsPost (deltas : list (Z * Z)) (g : Grid) (start goal : pos)
    (res : option (Z * list pos)) : Prop :=
  match res with
  | Some (d, cells) =>
      0 ≤ d
      ∧ route deltas g start cells goal
      ∧ length cells = S (Z.to_nat d)
      ∧ ∀ n, walk deltas g start n goal → (Z.to_nat d ≤ n)%nat
  | None => ∀ n, ¬ walk deltas g start n goal
  end.

(** What a run of the search can be: it never exhausts the bounds the model
    puts on its loops, it throws only from a start outside the grid whose
    goal it has found, and what it returns satisfies [bfsPost]. *)
Definition bfsOutcome (deltas : list (Z * Z)) (g : Grid) (start goal : pos)
    (r : Run (option (Z * list pos))) : Prop :=
  match r with
  | OutOfFuel => False
  | Throws => inGrid g start.1 start.2 = false
  | Returns res => bfsPost deltas g start goal res
  end.

(** The [distance] field of a search result. *)
Definition distanceOf (r : Run (option (Z * list pos))) : Run (option Z) :=
  runBind r (λ res, Returns (fst <$> res)).

(** ** Fixtures *)

(** The training maze, "Three Paths". *)
Definition MAZE_TRAIN : Grid :=
  [ [1; 1; 1; 1; 1; 1; 1; 1; 1; 1; 1];
    [1; 0; 0; 0; 0; 0; 0; 0; 0; 0; 1];
    [1; 0; 1; 1; 1; 0; 1; 1; 1; 0; 1];
    [1; 0; 1; 0; 0; 0; 0; 0; 1; 0; 1];
    [1; 0; 1; 0; 1; 1; 1; 0; 1; 0; 1];
    [1; 0; 1; 0; 1; 0; 1; 0; 1; 0; 1];
    [1; 0; 1; 0; 1; 1; 1; 0; 1; 0; 1];
    [1; 0; 1; 0; 0; 0; 0; 0; 1; 0; 1];
    [1; 0; 1; 1; 1; 0; 1; 1; 1; 0; 1];
    [1; 0; 0; 0; 0; 0; 0; 0; 0; 0; 1];
    [1; 1; 1; 1; 1; 1; 1; 1; 1; 1; 1] ].

(** The test maze: the left corridor is blocked. *)
Definition MAZE_TEST : Grid :=
  [ [1; 1; 1; 1; 1; 1; 1; 1; 1; 1; 1];
    [1; 0; 0; 0; 0; 0; 0; 0; 0; 0; 1];
    [1; 1; 1; 1; 1; 0; 1; 1; 1; 0; 1];
    [1; 1; 1; 0; 0; 0; 0; 0; 1; 0; 1];
    [1; 1; 1; 0; 1; 1; 1; 0; 1; 0; 1];
    [1; 1; 1; 0; 1; 0; 1; 0; 1; 0; 1];
    [1; 1; 1; 0; 1; 1; 1; 0; 1; 0; 1];
    [1; 1; 1; 0; 0; 0; 0; 0; 1; 0; 1];
    [1; 1; 1; 1; 1; 0; 1; 1; 1; 0; 1];
    [1; 0; 0; 0; 0; 0; 0; 0; 0; 0; 1];
    [1; 1; 1; 1; 1; 1; 1; 1; 1; 1; 1] ].

(** The 5x5 ring corridor of the search fixture. *)
Definition MAZE_RING : Grid :=
  [ [1; 1; 1; 1; 1];
    [1; 0; 0; 0; 1];
    [1; 0; 1; 0; 1];
    [1; 0; 0; 0; 1];
    [1; 1; 1; 1; 1] ].

(** A corridor of two path cells inside a border of walls, with the start
    on the left cell and the goal on the right one. *)
Definition MAZE_CORRIDOR : Grid :=
  [ [1; 1; 1; 1];
    [1; 0; 0; 1];
    [1; 1; 1; 1] ].

Definition corridorWorld : GridWorld := mkGridWorld MAZE_CORRIDOR (1, 1) (1, 2).

(** ** Concrete parameters for running the definitions

    A rational stand-in for [Math.exp] (a Taylor polynomial of degree 16,
    inverted for negative arguments; exact at 0), and random sequences given
    by a finite list of draws, followed by zeros or repeated. *)

Fixpoint expSeries (n : nat) (x : Qc) (k : Z) (term : Qc) : Qc :=
  match n with
  | O => term
  | S n' => (term + expSeries n' x (k + 1) (term * x / Qc_of_Z (k + 1)))%Qc
  end.

Definition expQ (x : Qc) : Qc :=
  if decide (x < 0)%Qc then (1 / expSeries 16 (- x) 0 1)%Qc
  else expSeries 16 x 0 1%Qc.

Definition draws (l : list Q) (k : nat) : Qc := Q2Qc (nth k l 0%Q).

(** [expQ] with the underflow of doubles: [Math.exp] is 0 below about
    -745.13. *)
Definition expUnderflow (x : Qc) : Qc :=
  if decide (x < - Qc_of_Z 746)%Qc then 0%Qc else expQ x.

(** A random sequence that repeats a finite list of draws. *)
Definition cycleDraws (l : list Q) (k : nat) : Qc :=
  Q2Qc (nth (k mod length l) l 0%Q).

(** A policy for the corridor whose logits at the start favour UP, the
    direction of the wall above it: 2 for UP, 0 for the other actions. *)
Definition wallPolicy : TabularSoftmaxPolicy :=
  mkPolicy 3 4 (<[20%nat := Qc_of_Z 2]> (replicate 48 0%Qc)).

(** Draws that keep every sample of [wallPolicy] at UP. *)
Definition lowDraws : nat → Qc := cycleDraws [0; 1 # 10; 2 # 10; 3 # 10]%Q.

(** Draws for a batch of two from the corridor's start under the uniform
    policy: start 0 and RIGHT, then start 0 and LEFT. *)
Definition mixedDraws : nat → Qc := draws [0; 9 # 10; 0; 6 # 10]%Q.

(** A policy for the corridor whose logits at the start put UP so far above
    the other actions that their probabilities underflow to 0. *)
Definition certainPolicy : TabularSoftmaxPolicy :=
  mkPolicy 3 4
    (<[21%nat := (- Qc_of_Z 1000)%Qc]>
       (<[22%nat := (- Qc_of_Z 1000)%Qc]>
          (<[23%nat := (- Qc_of_Z 1000)%Qc]> (replicate 48 0%Qc)))).

(** ** Further parts of the policy *)

(** [_idx(row, col, action)]: the slot of a state-action pair. *)
Definition _idx (p : TabularSoftmaxPolicy) (row col : Z) (action : nat) : Z :=
  (row * Z.of_nat (width p) + col) * Z.of_nat nActions + Z.of_nat action.

(** ** Specification-level notions for the rollout *)

(** What the loop of [rollout] keeps true of its two arrays: the path has
    one more element than the state-action pairs, and pair [i] records the
    position [path[i]], which is not the goal, with an action below 4 whose
    [step] gives [path[i + 1]]. *)
Definition rolloutInv (e : GridWorld) (sa : list (Z * Z * nat))
    (cells : list pos) : Prop :=
  length cells = S (length sa)
  ∧ ∀ i r c a,
      sa !! i = Some (r, c, a) →
      cells !! i = Some (r, c)
      ∧ (a < 4)%nat
      ∧ (r, c) ≠ goal e
      ∧ cells !! S i = Some (step e (r, c) a).1.

(** Draws that send every rollout of the uniform policy from the corridor's
    start to the right: start 0 and RIGHT, repeated. *)
Definition rightDraws : nat → Qc := cycleDraws [0; 9 # 10]%Q.

(** ** Specification-level notions for the maze generator *)

(** The border of a grid of [rows] by [cols] cells, and its interior. *)
Definition onBorder (rows cols : nat) (r c : Z) : Prop :=
  r = 0 ∨ r = Z.of_nat rows - 1 ∨ c = 0 ∨ c = Z.of_nat cols - 1.

Definition interior (rows cols : nat) (p : pos) : Prop :=
  1 ≤ p.1 ≤ Z.of_nat rows - 2 ∧ 1 ≤ p.2 ≤ Z.of_nat cols - 2.

(** A maze as the generator means it: [rows] rows of [cols] cells, each
    cell 0 or 1, and walls all along the border. *)
Definition wellFormedMaze (rows cols : nat) (g : Grid) : Prop :=
  length g = rows
  ∧ (∀ cells, cells ∈ g → length cells = cols)
  ∧ ∀ r c v, cellAt g r c = Some v →
      (v = 0 ∨ v = 1) ∧ (onBorder rows cols r c → v = 1).

(** ** Specification-level notions for grids *)

(** Every row is as long as row 0. *)
Definition rectangular (g : Grid) : Prop :=
  Forall (λ cells, Z.of_nat (length cells) = gridWidth g) g.

(** ** The maze editor

    The state of a [MazeEditor] that its handlers and [_validate] read and
    write; the canvas enters only through its size, and drawing is not
    modelled.  A mouse event is given with the canvas coordinates that
    [_canvasCoords] computes for it.  [paintVal] is [null] until a drag
    starts; the model holds [hole] for it, which like [null] is neither 0
    nor 1. *)

Module MazeEditor.

Record State : Type := mkState {
  grid : Grid;
  starts : list pos;
  hardStart : option pos;
  goal : pos;
  valid : bool;
  hoverCell : option pos;
  painting : bool;
  paintVal : Z;
  cellPx : Qc;
  offsetX : Z;
  offsetY : Z;
  canvasWidth : Z;
  canvasHeight : Z
}.

Record MouseEvent : Type := mkMouseEvent {
  canvasX : Qc;
  canvasY : Qc;
  shiftKey : bool;
  altKey : bool;
  ctrlKey : bool;
  metaKey : bool
}.

(** Assignments to single fields. *)
Definition setGrid (s : State) (g : Grid) : State :=
  mkState g (starts s) (hardStart s) (goal s) (valid s) (hoverCell s)
    (painting s) (paintVal s) (cellPx s) (offsetX s) (offsetY s)
    (canvasWidth s) (canvasHeight s).

Definition setStarts (s : State) (l : list pos) : State :=
  mkState (grid s) l (hardStart s) (goal s) (valid s) (hoverCell s)
    (painting s) (paintVal s) (cellPx s) (offsetX s) (offsetY s)
    (canvasWidth s) (canvasHeight s).

Definition setHardStart (s : State) (h : option pos) : State :=
  mkState (grid s) (starts s) h (goal s) (valid s) (hoverCell s)
    (painting s) (paintVal s) (cellPx s) (offsetX s) (offsetY s)
    (canvasWidth s) (canvasHeight s).

Definition setGoal (s : State) (p : pos) : State :=
  mkState (grid s) (starts s) (hardStart s) p (valid s) (hoverCell s)
    (painting s) (paintVal s) (cellPx s) (offsetX s) (offsetY s)
    (canvasWidth s) (canvasHeight s).

Definition setValid (s : State) (v : bool) : State :=
  mkState (grid s) (starts s) (hardStart s) (goal s) v (hoverCell s)
    (painting s) (paintVal s) (cellPx s) (offsetX s) (offsetY s)
    (canvasWidth s) (canvasHeight s).

Definition setHoverCell (s : State) (h : option pos) : State :=
  mkState (grid s) (starts s) (hardStart s) (goal s) (valid s) h
    (painting s) (paintVal s) (cellPx s) (offsetX s) (offsetY s)
    (canvasWidth s) (canvasHeight s).

Definition setPainting (s : State) (b : bool) (v : Z) : State :=
  mkState (grid s) (starts s) (hardStart s) (goal s) (valid s) (hoverCell s)
    b v (cellPx s) (offsetX s) (offsetY s) (canvasWidth s) (canvasHeight s).

Definition setOffsets (s : State) (x y : Z) : State :=
  mkState (grid s) (starts s) (hardStart s) (goal s) (valid s) (hoverCell s)
    (painting s) (paintVal s) (cellPx s) x y (canvasWidth s) (canvasHeight s).

(** [_layout]: the grid is centred on the canvas.  [this.grid[0]] is
    [undefined] for an empty grid. *)
Definition layout (s : State) : Run State :=
  match grid s with
  | [] => Throws
  | _ =>
      let rows := Qc_of_Z (gridHeight (grid s)) in
      let cols := Qc_of_Z (gridWidth (grid s)) in
      Returns
        (setOffsets s
           (floorQc ((Qc_of_Z (canvasWidth s) - cols * cellPx s) / Qc_of_Z 2))
           (floorQc ((Qc_of_Z (canvasHeight s) - rows * cellPx s) / Qc_of_Z 2)))
  end.

(** [_pixelToCell].  With [cellPx] 0 the quotients are infinite or [NaN],
    and the test of the bounds fails. *)
Definition pixelToCell (s : State) (px py : Qc) : Run (option pos) :=
  match grid s with
  | [] => Throws
  | _ =>
      if decide (cellPx s = 0%Qc) then Returns None
      else
        let r := floorQc ((py - Qc_of_Z (offsetY s)) / cellPx s) in
        let c := floorQc ((px - Qc_of_Z (offsetX s)) / cellPx s) in
        if decide (0 ≤ r ∧ r < gridHeight (grid s)
                   ∧ 0 ≤ c ∧ c < gridWidth (grid s))
        then Returns (Some (r, c))
        else Returns None
  end.

(** [_isBorder]; it is called for cells that [_pixelToCell] returned, on a
    grid that has a row 0. *)
Definition isBorder (s : State) (r c : Z) : bool :=
  (r =? 0) || (c =? 0) || (r =? gridHeight (grid s) - 1)
  || (c =? gridWidth (grid s) - 1).

(** [_hasMarker]. *)
Definition hasMarker (s : State) (r c : Z) : bool :=
  samePos (goal s) (r, c)
  || from_option (λ h, samePos h (r, c)) false (hardStart s)
  || existsb (λ st, samePos st (r, c)) (starts s).

(** [this.grid[r][c] === v]: throws when [this.grid[r]] is [undefined]. *)
Definition cellIs (g : Grid) (r c : Z) (v : Z) : Run bool :=
  match (if decide (0 ≤ r) then g !! Z.to_nat r else None) with
  | None => Throws
  | Some _ => Returns (bool_decide (cellAt g r c = Some v))
  end.

(** [_toggleStart]: [findIndex] gives the first matching start, [splice]
    removes it, [push] appends. *)
Definition toggleStart (s : State) (r c : Z) : Run State :=
  runBind (cellIs (grid s) r c 0) (λ open,
    if open then
      match list_find (λ st, samePos st (r, c) = true) (starts s) with
      | Some (idx, _) =>
          if decide (1 < length (starts s))%nat
          then Returns (setStarts s (delete idx (starts s)))
          else Returns s
      | None => Returns (setStarts s (starts s ++ [(r, c)]))
      end
    else Returns s).

(** The loop of [_validate] over the starts: it stops at the first start
    from which the search finds no path. *)
Fixpoint validateLoop (g : Grid) (target : pos) (allStarts : list pos)
  : Run bool :=
  match allStarts with
  | [] => Returns true
  | st :: rest =>
      runBind (bfsShortestPath g st target) (λ res,
        match res with
        | None => Returns false
        | Some _ => validateLoop g target rest
        end)
  end.

(** The starts that [_validate] checks: the easy starts, then the hard
    start. *)
Definition allStarts (s : State) : list pos :=
  starts s ++ match hardStart s with Some h => [h] | None => [] end.

Definition validate (s : State) : Run State :=
  runBind (validateLoop (grid s) (goal s) (allStarts s))
          (λ v, Returns (setValid s v)).

(** [_handleMouseMove]: the cell under the cursor, and drag painting. *)
Definition handleMouseMove (s : State) (e : MouseEvent) : Run State :=
  runBind (pixelToCell s (canvasX e) (canvasY e)) (λ cell,
    let s1 := setHoverCell s cell in
    match cell with
    | Some (r, c) =>
        if painting s1 && negb (isBorder s1 r c) && negb (hasMarker s1 r c)
        then runBind (setCell (grid s1) r c (paintVal s1))
                     (λ g, validate (setGrid s1 g))
        else Returns s1
    | None => Returns s1
    end).

(** [_handleMouseDown]. *)
Definition handleMouseDown (s : State) (e : MouseEvent) : Run State :=
  runBind (pixelToCell s (canvasX e) (canvasY e)) (λ cell,
    match cell with
    | None => Returns s
    | Some (r, c) =>
        if isBorder s r c then Returns s
        else if shiftKey e then runBind (toggleStart s r c) validate
        else if altKey e then
          runBind (cellIs (grid s) r c 0) (λ open,
            validate (if open then setHardStart s (Some (r, c)) else s))
        else if ctrlKey e || metaKey e then
          runBind (cellIs (grid s) r c 0) (λ open,
            validate (if open then setGoal s (r, c) else s))
        else if hasMarker s r c then Returns s
        else
          runBind (cellIs (grid s) r c 1) (λ wall,
            let newVal := if wall then 0 else 1 in
            runBind (setCell (grid s) r c newVal) (λ g,
              validate (setPainting (setGrid s g) true newVal)))
    end).

Definition handleMouseUp (s : State) : State :=
  setPainting s false (paintVal s).

Definition handleMouseLeave (s : State) : State :=
  setPainting (setHoverCell s None) false (paintVal s).

(** The four listeners that [open] attaches. *)
Inductive Event : Type :=
  | MouseMove (e : MouseEvent)
  | MouseDown (e : MouseEvent)
  | MouseUp
  | MouseLeave.

Definition handle (s : State) (ev : Event) : Run State :=
  match ev with
  | MouseMove e => handleMouseMove s e
  | MouseDown e => handleMouseDown s e
  | MouseUp => Returns (handleMouseUp s)
  | MouseLeave => Returns (handleMouseLeave s)
  end.

(** [loadDefault]: the training maze with its markers. *)
Definition loadDefault (s : State) : Run State :=
  let s1 := setGoal (setHardStart (setStarts (setGrid s MAZE_TRAIN) [(1, 1)])
                       (Some (9, 1))) (9, 9) in
  runBind (layout s1) validate.

(** The editor that [app.js] creates, after [loadDefault]: cells of 36
    pixels on a canvas of 1400 by 820. *)
Definition defaultEditor : State :=
  mkState MAZE_TRAIN [(1, 1)] (Some (9, 1)) (9, 9) true None false hole
    (Qc_of_Z 36) 502 212 1400 820.

(** A plain click on the path cell (1, 2) of [defaultEditor], and a
    shift-click on the path cell (1, 3). *)
Definition wallClick : Event :=
  MouseDown (mkMouseEvent (Qc_of_Z 579) (Qc_of_Z 253) false false false false).

Definition startClick : Event :=
  MouseDown (mkMouseEvent (Qc_of_Z 620) (Qc_of_Z 250) true false false false).

(** *** Specification-level notions for the editor *)

(** The state the editor is meant to be in: a rectangular grid, and the
    goal, the easy starts and the hard start on path cells inside it. *)
Definition wellFormed (s : State) : Prop :=
  rectangular (grid s)
  ∧ Forall (λ p, openCell (grid s) p.1 p.2 = true) (goal s :: allStarts s).

(** The flag [valid] is right: it is true exactly when the goal can be
    reached from every start. *)
Definition validCorrect (s : State) : Prop :=
  valid s = true ↔
  ∀ p, p ∈ allStarts s → ∃ n, walk ACTION_DELTAS (grid s) p n (goal s).

(** What one mouse event can change of the grid and the markers. *)
Inductive edits (s : State) : State → Prop :=
  | edit_none s1 :
      grid s1 = grid s → starts s1 = starts s → hardStart s1 = hardStart s →
      goal s1 = goal s → edits s s1
  | edit_paint s1 r c v :
      inGrid (grid s) r c = true → isBorder s r c = false →
      hasMarker s r c = false →
      setCell (grid s) r c v = Returns (grid s1) →
      starts s1 = starts s → hardStart s1 = hardStart s → goal s1 = goal s →
      edits s s1
  | edit_add s1 r c :
      openCell (grid s) r c = true → grid s1 = grid s →
      starts s1 = starts s ++ [(r, c)] → hardStart s1 = hardStart s →
      goal s1 = goal s → edits s s1
  | edit_remove s1 idx :
      (1 < length (starts s))%nat → is_Some (starts s !! idx) →
      grid s1 = grid s →
      starts s1 = delete idx (starts s) → hardStart s1 = hardStart s →
      goal s1 = goal s → edits s s1
  | edit_hard s1 r c :
      openCell (grid s) r c = true → grid s1 = grid s →
      starts s1 = starts s → hardStart s1 = Some (r, c) →
      goal s1 = goal s → edits s s1
  | edit_goal s1 r c :
      openCell (grid s) r c = true → grid s1 = grid s →
      starts s1 = starts s → hardStart s1 = hardStart s →
      goal s1 = (r, c) → edits s s1.

End MazeEditor.

(** ** Heat maps of the renderer *)

(** [target.set(source)] on a [Float64Array]: a copy into the front of
    [target], and a [RangeError] when [source] is the longer. *)
Definition setArray (target source : list Qc) : Run (list Qc) :=
  if decide (length source ≤ length target)%nat
  then Returns (source ++ drop (length source) target)
  else Throws.

(** [visits[r * env.width + c] += 1] for every cell of a path. *)
Definition countVisits (w : Z) (visits : list Qc) (cells : list pos)
  : list Qc :=
  foldl (λ v '(r, c), addAt v (r * w + c) 1%Qc) visits cells.

(** The largest entry, found from [mx = 0]. *)
Definition maxVisit (visits : list Qc) : Qc :=
  foldl (λ mx v, if decide (mx < v)%Qc then v else mx) 0%Qc visits.

(** The division by the largest entry, left out when that is 0. *)
Definition normalise (visits : list Qc) : list Qc :=
  let mx := maxVisit visits in
  if decide (0 < mx)%Qc then map (λ v, (v / mx)%Qc) visits else visits.

Section Heatmap.

Variable exp : Qc → Qc.
Variable random : nat → Qc.

(** The rollouts from one start: the visits are counted and the paths of
    the successful trajectories collected. *)
Fixpoint heatmapLoop (p : TabularSoftmaxPolicy) (e : GridWorld)
    (st : option pos) (n maxSteps : nat) (visits : list Qc)
    (paths : list (list pos)) (k : nat)
  : list Qc * list (list pos) * nat :=
  match n with
  | O => (visits, paths, k)
  | S n' =>
      let '(traj, k1) := rollout exp random p e st maxSteps k in
      let visits1 := countVisits (gridWidth (grid e)) visits (path traj) in
      let paths1 := if reachedGoal traj then paths ++ [path traj] else paths in
      heatmapLoop p e st n' maxSteps visits1 paths1 k1
  end.

(** The policy both functions build: one of the world's size, holding a
    copy of the logits given. *)
Definition heatmapPolicy (l : list Qc) (e : GridWorld)
  : Run TabularSoftmaxPolicy :=
  let h := Z.to_nat (gridHeight (grid e)) in
  let w := Z.to_nat (gridWidth (grid e)) in
  runBind (setArray (logits (newPolicy h w)) l)
          (λ l1, Returns (mkPolicy h w l1)).

(** [generateHeatmap] returns [{visits, paths}]. *)
Definition generateHeatmap (l : list Qc) (e : GridWorld) (st : option pos)
    (nRollouts maxSteps : nat) (k : nat)
  : Run (list Qc * list (list pos) * nat) :=
  runBind (heatmapPolicy l e) (λ p,
    let cells := Z.to_nat (gridHeight (grid e) * gridWidth (grid e)) in
    let '(visits, paths, k1) :=
      heatmapLoop p e st nRollouts maxSteps (replicate cells 0%Qc) [] k in
    Returns (normalise visits, paths, k1)).

(** [generateHeatmapMultistart] returns [{visits, pathsPerStart}]. *)
Definition generateHeatmapMultistart (l : list Qc) (e : GridWorld)
    (starts : list pos) (nPerStart maxSteps : nat) (k : nat)
  : Run (list Qc * list (list (list pos)) * nat) :=
  runBind (heatmapPolicy l e) (λ p,
    let cells := Z.to_nat (gridHeight (grid e) * gridWidth (grid e)) in
    let '(visits, pathsPerStart, k1) :=
      foldl (λ '(visits, pathsPerStart, k) st,
               let '(visits1, paths, k1) :=
                 heatmapLoop p e (Some st) nPerStart maxSteps visits [] k in
               (visits1, pathsPerStart ++ [paths], k1))
            (replicate cells 0%Qc, [], k) starts in
    Returns (normalise visits, pathsPerStart, k1)).

End Heatmap.

(** ** The speed slider of [app.js] *)

(** [Math.round]: the nearest whole number, a half rounded up. *)
Definition roundQc (x : Qc) : Z := floorQc (x + Q2Qc (1 # 2))%Qc.

Definition sliderToSpeed (val : Qc) : Z :=
  Z.max 1 (roundQc (val / Qc_of_Z 100 * Qc_of_Z 20)%Qc).

Definition speedToSlider (spd : Qc) : Z :=
  roundQc (spd / Qc_of_Z 20 * Qc_of_Z 100)%Qc.

(** [changeSpeed]: the new value of [speed]. *)
Definition changeSpeed (speed delta : Z) : Z :=
  Z.max 1 (Z.min 20 (speed + delta)).

(** * Properties *)

(** ** Arithmetic on [Qc] *)

Module Num.

Open Scope Qc_scope.

Lemma sub_diag (x : Qc) : x - x = 0.
Proof. ring. Qed.

Lemma sub_0_r (x : Qc) : x - 0 = x.
Proof. ring. Qed.

Lemma sub_nonpos (x m : Qc) : x <= m -> x - m <= 0.
Proof.
  intros H. apply Qcle_minus_iff in H.
  apply Qcle_minus_iff. replace (0 + - (x - m)) with (m + - x) by ring. exact H.
Qed.

Lemma neg_max_lt_max : - MAX_LOGIT < MAX_LOGIT.
Proof. reflexivity. Qed.

Lemma neg_max_le_0 : - MAX_LOGIT <= 0.
Proof. discriminate. Qed.

Lemma zero_lt_max : 0 < MAX_LOGIT.
Proof. reflexivity. Qed.

End Num.

(** ** clipLogits *)

Section ClipFacts.

Open Scope Qc_scope.

Lemma clamp_range (v : Qc) : - MAX_LOGIT <= clamp v /\ clamp v <= MAX_LOGIT.
Proof.
  unfold clamp. pose proof Num.neg_max_lt_max as Hm.
  destruct (decide (v < - MAX_LOGIT)) as [H1|H1].
  - destruct (decide (MAX_LOGIT < - MAX_LOGIT)) as [H2|H2].
    + exfalso. eapply Qclt_not_le; [exact H2|]. by apply Qclt_le_weak.
    + split; [apply Qcle_refl | by apply Qclt_le_weak].
  - apply Qcnot_lt_le in H1.
    destruct (decide (MAX_LOGIT < v)) as [H2|H2].
    + split; [by apply Qclt_le_weak | apply Qcle_refl].
    + apply Qcnot_lt_le in H2. done.
Qed.

Lemma clamp_id (v : Qc) : - MAX_LOGIT <= v -> v <= MAX_LOGIT -> clamp v = v.
Proof.
  intros H1 H2. unfold clamp.
  destruct (decide (v < - MAX_LOGIT)) as [H3|H3].
  - exfalso. by eapply Qclt_not_le.
  - destruct (decide (MAX_LOGIT < v)) as [H4|H4]; [|done].
    exfalso. by eapply Qclt_not_le.
Qed.

Lemma clamp_idemp (v : Qc) : clamp (clamp v) = clamp v.
Proof. destruct (clamp_range v). by apply clamp_id. Qed.

Lemma clamp_0 : clamp 0 = 0.
Proof. reflexivity. Qed.

Lemma clamp_nonpos (v : Qc) : v <= 0 -> clamp v <= 0.
Proof.
  intros H. unfold clamp.
  destruct (decide (v < - MAX_LOGIT)) as [H1|H1].
  - destruct (decide (MAX_LOGIT < - MAX_LOGIT)) as [H2|H2].
    + exfalso. eapply Qclt_not_le; [exact H2|].
      apply Qclt_le_weak, Num.neg_max_lt_max.
    + apply Num.neg_max_le_0.
  - destruct (decide (MAX_LOGIT < v)) as [H2|H2]; [|done].
    exfalso. eapply Qclt_not_le; [exact H2|].
    eapply Qcle_trans; [exact H|]. apply Qclt_le_weak, Num.zero_lt_max.
Qed.

End ClipFacts.

Section ClipLoop.

Open Scope Qc_scope.
Open Scope nat_scope.

Implicit Types (l : list Qc) (m v : Qc) (a base i s n : nat).

Lemma maxStep_fold_spec l base acts init :
  match foldl (maxStep l base) init acts with
  | None => init = None ∧ ∀ a, a ∈ acts → l !! (base + a) = None
  | Some m =>
      (init = Some m ∨ ∃ a, a ∈ acts ∧ l !! (base + a) = Some m)
      ∧ (∀ v, init = Some v → (v <= m)%Qc)
      ∧ (∀ a v, a ∈ acts → l !! (base + a) = Some v → (v <= m)%Qc)
  end.
Proof.
  revert init. induction acts as [|a acts IH]; intros init; simpl.
  - destruct init as [m|].
    + split; [by left|]. split.
      * intros v [= ->]. apply Qcle_refl.
      * intros a v Ha. by apply elem_of_nil in Ha.
    + split; [done|]. intros a Ha. by apply elem_of_nil in Ha.
  - specialize (IH (maxStep l base init a)).
    destruct (foldl (maxStep l base) (maxStep l base init a) acts) as [m|].
    + destruct IH as (Hatt & Hinit & Hall).
      unfold maxStep in Hatt, Hinit.
      destruct (l !! (base + a)) as [va|] eqn:Hva.
      * destruct init as [m0|].
        -- destruct (decide (m0 < va)%Qc) as [Hlt|Hnlt].
           ++ split; [|split].
              ** right. destruct Hatt as [[= ->]|(a' & Ha' & Hl)].
                 --- exists a. split; [left|done].
                 --- exists a'. split; [by right|done].
              ** intros v [= ->]. eapply Qcle_trans; [by apply Qclt_le_weak|].
                 by apply Hinit.
              ** intros a' v Ha' Hl. apply elem_of_cons in Ha' as [->|Ha'].
                 --- rewrite Hva in Hl. injection Hl as <-. by apply Hinit.
                 --- by eapply Hall.
           ++ apply Qcnot_lt_le in Hnlt. split; [|split].
              ** destruct Hatt as [[= ->]|(a' & Ha' & Hl)]; [by left|].
                 right. exists a'. split; [by right|done].
              ** intros v [= ->]. by apply Hinit.
              ** intros a' v Ha' Hl. apply elem_of_cons in Ha' as [->|Ha'].
                 --- rewrite Hva in Hl. injection Hl as <-.
                     eapply Qcle_trans; [exact Hnlt|]. by apply Hinit.
                 --- by eapply Hall.
        -- split; [|split].
           ++ right. destruct Hatt as [[= ->]|(a' & Ha' & Hl)].
              ** exists a. split; [left|done].
              ** exists a'. split; [by right|done].
           ++ intros v [=].
           ++ intros a' v Ha' Hl. apply elem_of_cons in Ha' as [->|Ha'].
              ** rewrite Hva in Hl. injection Hl as <-. by apply Hinit.
              ** by eapply Hall.
      * split; [|split].
        -- destruct Hatt as [->|(a' & Ha' & Hl)]; [by left|].
           right. exists a'. split; [by right|done].
        -- done.
        -- intros a' v Ha' Hl. apply elem_of_cons in Ha' as [->|Ha'].
           ++ congruence.
           ++ by eapply Hall.
    + destruct IH as (Hinit & Hall). unfold maxStep in Hinit.
      destruct (l !! (base + a)) as [va|] eqn:Hva.
      * destruct init as [m0|]; [|done]. by destruct (decide (m0 < va)%Qc).
      * split; [done|]. intros a' Ha'.
        apply elem_of_cons in Ha' as [->|Ha']; [done|]. by apply Hall.
Qed.

(** The running maximum only looks at the slots of its block. *)
Lemma maxStep_fold_ext l l' base acts init :
  (∀ a, a ∈ acts → l !! (base + a) = l' !! (base + a)) →
  foldl (maxStep l base) init acts = foldl (maxStep l' base) init acts.
Proof.
  revert init. induction acts as [|a acts IH]; intros init Hext; [done|].
  simpl. unfold maxStep at 2 4. rewrite <- (Hext a) by left.
  apply IH. intros a' Ha'. apply Hext. by right.
Qed.

Lemma blockMax_spec l base :
  match blockMax l base with
  | None => ∀ a, a < nActions → l !! (base + a) = None
  | Some m =>
      (∃ a, a < nActions ∧ l !! (base + a) = Some m)
      ∧ (∀ a v, a < nActions → l !! (base + a) = Some v → (v <= m)%Qc)
  end.
Proof.
  unfold blockMax. pose proof (maxStep_fold_spec l base (seq 0 nActions) None) as H.
  destruct (foldl (maxStep l base) None (seq 0 nActions)) as [m|].
  - destruct H as (Hatt & _ & Hall). split.
    + destruct Hatt as [[=]|(a & Ha & Hl)]. exists a.
      apply elem_of_seq in Ha. split; [lia|done].
    + intros a v Ha. apply Hall, elem_of_seq. lia.
  - destruct H as [_ H]. intros a Ha. apply H, elem_of_seq. lia.
Qed.

Lemma blockMax_ext l l' base :
  (∀ a, a < nActions → l !! (base + a) = l' !! (base + a)) →
  blockMax l base = blockMax l' base.
Proof.
  intros H. apply maxStep_fold_ext. intros a Ha. apply H.
  apply elem_of_seq in Ha. lia.
Qed.

(** The second inner loop rewrites exactly the slots it is given, each from
    its value before the loop. *)
Lemma clipStep_fold_lookup m base acts l i :
  NoDup acts →
  foldl (clipStep m base) l acts !! i =
    if decide (base ≤ i ∧ i - base ∈ acts)
    then (λ v, clamp (v - m)%Qc) <$> l !! i
    else l !! i.
Proof.
  revert l. induction acts as [|a acts IH]; intros l Hnd; simpl.
  - rewrite decide_False; [done|]. intros [_ Ha]. by apply elem_of_nil in Ha.
  - apply NoDup_cons in Hnd as [Hna Hnd]. rewrite IH by done.
    unfold clipStep.
    destruct (decide (base ≤ i ∧ i - base ∈ acts)) as [[Hle Hin]|Hno].
    + rewrite decide_True by (split; [done|by right]).
      destruct (l !! (base + a)) eqn:Hl; [|done].
      rewrite list_lookup_insert_ne; [done|]. intros Heq. subst i.
      apply Hna. by replace (base + a - base) with a in Hin by lia.
    + destruct (decide (i = base + a)) as [->|Hne].
      * rewrite decide_True.
        2:{ split; [lia|]. replace (base + a - base) with a by lia. left. }
        destruct (l !! (base + a)) as [v|] eqn:Hl.
        -- rewrite list_lookup_insert_eq; [done|]. by eapply lookup_lt_Some.
        -- by rewrite Hl.
      * rewrite decide_False.
        -- destruct (l !! (base + a)); [|done].
           by rewrite list_lookup_insert_ne.
        -- intros [Hle Hin]. apply elem_of_cons in Hin as [Heq|Hin]; [lia|].
           by apply Hno.
Qed.

End ClipLoop.

Section ClipStates.

Open Scope nat_scope.

Implicit Types (l : list Qc) (m v : Qc) (a base i s n r c w h : nat).

Lemma block_of_slot s i :
  s * nActions ≤ i → i - s * nActions ∈ seq 0 nActions → i / nActions = s.
Proof.
  intros Hle Hin. apply elem_of_seq in Hin. unfold nActions in *.
  symmetry. apply (Nat.div_unique i 4 s (i - s * 4)); lia.
Qed.

Lemma clipState_lookup w l r c i :
  clipState w l r c !! i =
    if decide (i / nActions = r * w + c)
    then (λ v, match blockMax l (i / nActions * nActions) with
               | Some m => clamp (v - m)%Qc
               | None => v
               end) <$> l !! i
    else l !! i.
Proof.
  unfold clipState. set (s := r * w + c).
  destruct (decide (i / nActions = s)) as [Hs|Hs].
  - rewrite Hs. destruct (blockMax l (s * nActions)) as [m|].
    + rewrite clipStep_fold_lookup by apply NoDup_seq.
      rewrite decide_True; [done|]. subst s. unfold nActions in *.
      pose proof (Nat.div_mod_eq i 4). pose proof (Nat.mod_upper_bound i 4).
      split; [lia|]. apply elem_of_seq. lia.
    + by destruct (l !! i).
  - destruct (blockMax l (s * nActions)) as [m|]; [|done].
    rewrite clipStep_fold_lookup by apply NoDup_seq.
    rewrite decide_False; [done|]. intros [Hle Hin]. apply Hs.
    by apply block_of_slot.
Qed.

(** The two nested loops visit the states in row-major order. *)
Lemma nested_loops {A} (f : A → nat → A) w h (x : A) :
  foldl (λ x r, foldl (λ x c, f x (r * w + c)) x (seq 0 w)) x (seq 0 h)
  = foldl f x (seq 0 (h * w)).
Proof.
  induction h as [|h IH]; [done|].
  rewrite seq_S, foldl_snoc, IH. simpl.
  replace (w + h * w) with (h * w + w) by lia.
  rewrite seq_app, foldl_app. simpl.
  rewrite <- (Nat.add_0_r (h * w)) at 3.
  rewrite <- fmap_add_seq, foldl_fmap. done.
Qed.

Lemma clippedAt_above l n i v : n * nActions ≤ i → clippedAt l n i v = v.
Proof. intros H. unfold clippedAt. by rewrite decide_False by lia. Qed.

Lemma clippedAt_below l n i v :
  i < n * nActions →
  clippedAt l n i v =
    match blockMax l (i / nActions * nActions) with
    | Some m => clamp (v - m)%Qc
    | None => v
    end.
Proof. intros H. unfold clippedAt. by rewrite decide_True by lia. Qed.

Lemma clip_states_lookup w l n i :
  foldl (λ l s, clipState w l 0 s) l (seq 0 n) !! i = clippedAt l n i <$> l !! i.
Proof.
  revert i. induction n as [|n IH]; intros i.
  - cbn [seq foldl]. destruct (l !! i) as [v|]; [|done].
    cbn [fmap option_fmap option_map]. by rewrite clippedAt_above by lia.
  - rewrite seq_S, foldl_snoc. cbn [Nat.add].
    set (l' := foldl _ l (seq 0 n)) in *.
    rewrite clipState_lookup. cbn [Nat.mul Nat.add].
    assert (blockMax l' (n * nActions) = blockMax l (n * nActions)) as Hmax.
    { apply blockMax_ext. intros a Ha. rewrite IH.
      destruct (l !! (n * nActions + a)) as [v|]; [|done].
      cbn [fmap option_fmap option_map]. by rewrite clippedAt_above by lia. }
    rewrite IH. destruct (l !! i) as [v|]; [|by case_decide].
    cbn [fmap option_fmap option_map]. f_equal.
    assert (i = nActions * (i / nActions) + i mod nActions) as Hi
      by (apply Nat.div_mod_eq).
    assert (i mod nActions < nActions) as Hr
      by (apply Nat.mod_upper_bound; done).
    destruct (decide (i / nActions = n)) as [Hn|Hn].
    + cbn [fmap option_fmap option_map]. rewrite Hn, Hmax.
      rewrite clippedAt_above by lia. rewrite clippedAt_below by lia.
      by rewrite Hn.
    + destruct (decide (i < n * nActions)) as [Hlt|Hge].
      * by rewrite !clippedAt_below by lia.
      * rewrite !clippedAt_above; [done| |lia].
        assert (n < i / nActions); [|nia].
        assert (n ≤ i / nActions); [|lia].
        apply Nat.div_le_lower_bound; [done|lia].
Qed.

Lemma clipLogits_lookup p i :
  logits (clipLogits p) !! i
  = clippedAt (logits p) (height p * width p) i <$> logits p !! i.
Proof.
  unfold clipLogits, clipRow. cbn [logits].
  rewrite <- clip_states_lookup with (w := width p).
  f_equal. apply (nested_loops (λ l s, clipState (width p) l 0 s)).
Qed.

Lemma clipLogits_length p : length (logits (clipLogits p)) = length (logits p).
Proof.
  apply Nat.le_antisymm.
  - destruct (decide (length (logits (clipLogits p)) ≤ length (logits p)));
      [done|exfalso].
    destruct (lookup_lt_is_Some_2 (logits (clipLogits p)) (length (logits p)))
      as [v Hv]; [lia|].
    rewrite clipLogits_lookup, lookup_ge_None_2 in Hv by lia. done.
  - destruct (decide (length (logits p) ≤ length (logits (clipLogits p))));
      [done|exfalso].
    destruct (lookup_lt_is_Some_2 (logits p) (length (logits (clipLogits p))))
      as [v Hv]; [lia|].
    pose proof (clipLogits_lookup p (length (logits (clipLogits p)))) as H.
    rewrite Hv, lookup_ge_None_2 in H by lia. done.
Qed.

End ClipStates.

Section ClipTheorems.

Open Scope nat_scope.

Implicit Types (p : TabularSoftmaxPolicy) (l : list Qc) (m v : Qc).

(** Inside the part of the array that the loops cover, a slot of a block
    whose maximum was [m] holds [clamp (v - m)] afterwards. *)
Lemma clipLogits_slot p s a m v :
  s < height p * width p → a < nActions →
  blockMax (logits p) (s * nActions) = Some m →
  logits p !! (s * nActions + a) = Some v →
  logits (clipLogits p) !! (s * nActions + a) = Some (clamp (v - m)%Qc).
Proof.
  intros Hs Ha Hm Hv. rewrite clipLogits_lookup, Hv.
  cbn [fmap option_fmap option_map]. f_equal.
  rewrite clippedAt_below by (unfold nActions in *; nia).
  replace ((s * nActions + a) / nActions) with s; [by rewrite Hm|].
  unfold nActions in *. apply (Nat.div_unique _ 4 s a); lia.
Qed.

Lemma clipLogits_slot_nonpos p s a m v :
  s < height p * width p → a < nActions →
  blockMax (logits p) (s * nActions) = Some m →
  logits p !! (s * nActions + a) = Some v →
  (clamp (v - m) <= 0)%Qc.
Proof.
  intros Hs Ha Hm Hv. apply clamp_nonpos, Num.sub_nonpos.
  pose proof (blockMax_spec (logits p) (s * nActions)) as H.
  rewrite Hm in H. destruct H as [_ H]. by eapply H.
Qed.

Lemma clipLogits_blockMax p s m :
  s < height p * width p →
  blockMax (logits p) (s * nActions) = Some m →
  blockMax (logits (clipLogits p)) (s * nActions) = Some 0%Qc.
Proof.
  intros Hs Hm.
  pose proof (blockMax_spec (logits p) (s * nActions)) as H.
  rewrite Hm in H. destruct H as [(a0 & Ha0 & Hl0) Hle].
  pose proof (clipLogits_slot p s a0 m m Hs Ha0 Hm Hl0) as Hz.
  rewrite Num.sub_diag, clamp_0 in Hz.
  pose proof (blockMax_spec (logits (clipLogits p)) (s * nActions)) as H'.
  destruct (blockMax (logits (clipLogits p)) (s * nActions)) as [m'|].
  - destruct H' as [(a1 & Ha1 & Hl1) Hle']. f_equal.
    apply Qcle_antisym; [|exact (Hle' a0 _ Ha0 Hz)].
    destruct (logits p !! (s * nActions + a1)) as [v1|] eqn:Hv1.
    + rewrite (clipLogits_slot p s a1 m v1) in Hl1 by done.
      injection Hl1 as <-. by eapply clipLogits_slot_nonpos.
    + rewrite clipLogits_lookup, Hv1 in Hl1. done.
  - rewrite H' in Hz by done. done.
Qed.

End ClipTheorems.

(** C4.  After [clipLogits], in every state of a policy whose logits array
    has one slot per state and action, some action's logit is 0, no logit is
    above 0 (so the maximum over the four actions is 0), and every logit is
    at least -20. *)
Theorem clipLogits_max_zero_min_bounded (p : TabularSoftmaxPolicy) (r c : nat) :
  length (logits p) = (height p * width p * nActions)%nat →
  (r < height p)%nat → (c < width p)%nat →
  let z := logits (clipLogits p) in
  let base := ((r * width p + c) * nActions)%nat in
  blockMax z base = Some 0%Qc
  ∧ (∃ a, (a < 4)%nat ∧ z !! (base + a)%nat = Some 0%Qc)
  ∧ (∀ a, (a < 4)%nat →
       ∃ v, z !! (base + a)%nat = Some v ∧ (v <= 0)%Qc ∧ (- Qc_of_Z 20 <= v)%Qc).
Proof.
  intros Hlen Hr Hc z base. subst z base.
  set (s := (r * width p + c)%nat).
  assert (s < height p * width p)%nat as Hs by (subst s; nia).
  assert (∀ a, (a < 4)%nat → is_Some (logits p !! (s * nActions + a)%nat)) as Hin.
  { intros a Ha. apply lookup_lt_is_Some_2. unfold nActions in *. nia. }
  pose proof (blockMax_spec (logits p) (s * nActions)) as Hmax.
  destruct (blockMax (logits p) (s * nActions)) as [m|] eqn:Hm.
  2:{ destruct (Hin 0%nat) as [v Hv]; [lia|]. rewrite Hmax in Hv; [done|].
      unfold nActions. lia. }
  destruct Hmax as [(a0 & Ha0 & Hl0) Hle].
  split; [by eapply clipLogits_blockMax|]. split.
  - exists a0. split; [done|].
    rewrite (clipLogits_slot p s a0 m m) by done.
    by rewrite Num.sub_diag, clamp_0.
  - intros a Ha. destruct (Hin a Ha) as [v Hv].
    exists (clamp (v - m)%Qc). split; [by apply clipLogits_slot|]. split.
    + by eapply clipLogits_slot_nonpos.
    + apply clamp_range.
Qed.

(** A second call finds in every slot what the first call left there. *)
Lemma clipLogits_twice_lookup (p : TabularSoftmaxPolicy) (i : nat) :
  logits (clipLogits (clipLogits p)) !! i = logits (clipLogits p) !! i.
Proof.
  rewrite (clipLogits_lookup (clipLogits p)).
  destruct (logits (clipLogits p) !! i) as [v'|] eqn:Hv'; [|done].
  cbn [fmap option_fmap option_map height width clipLogits]. f_equal.
  destruct (decide (i < height p * width p * nActions)%nat) as [Hlt|Hge].
  2:{ by rewrite clippedAt_above by lia. }
  rewrite clippedAt_below by done.
  set (s := (i / nActions)%nat).
  assert (i = s * nActions + i mod nActions)%nat as Hi
    by (subst s; pose proof (Nat.div_mod_eq i nActions); lia).
  assert (i mod nActions < nActions)%nat as Hr
    by (apply Nat.mod_upper_bound; done).
  assert (s < height p * width p)%nat as Hs by (unfold nActions in *; nia).
  rewrite clipLogits_lookup in Hv'.
  destruct (logits p !! i) as [v|] eqn:Hv; [|done].
  cbn [fmap option_fmap option_map] in Hv'. injection Hv' as <-.
  rewrite clippedAt_below by done. fold s.
  pose proof (blockMax_spec (logits p) (s * nActions)) as Hmax.
  destruct (blockMax (logits p) (s * nActions)) as [m|] eqn:Hm.
  - rewrite (clipLogits_blockMax p s m) by done.
    by rewrite Num.sub_0_r, clamp_idemp.
  - rewrite Hi, Hmax in Hv by done. done.
Qed.

(** C10.  [clipLogits] is idempotent: a second call right after a first one
    leaves every logit as the first call left it, whatever the logits array
    was. *)
Theorem clipLogits_idempotent (p : TabularSoftmaxPolicy) :
  logits (clipLogits (clipLogits p)) = logits (clipLogits p)
  ∧ clipLogits (clipLogits p) = clipLogits p.
Proof.
  assert (logits (clipLogits (clipLogits p)) = logits (clipLogits p)) as Hl.
  { apply list_eq. intros i. apply clipLogits_twice_lookup. }
  split; [exact Hl|].
  unfold clipLogits at 1 3. unfold clipLogits at 1 in Hl.
  cbn [logits height width] in *. by rewrite Hl.
Qed.

(** ** rollout *)

Section RolloutFacts.

Variable exp : Qc → Qc.
Variable random : nat → Qc.

Implicit Types (p : TabularSoftmaxPolicy) (e : GridWorld) (t : Trajectory).

Lemma samePos_true (u v : pos) : samePos u v = true ↔ u = v.
Proof.
  unfold samePos. destruct u as [a b], v as [c d]. simpl.
  rewrite andb_true_iff, !Z.eqb_eq. split; [intros [-> ->]; done|].
  intros [= -> ->]. done.
Qed.

Lemma samePos_refl (u : pos) : samePos u u = true.
Proof. by apply samePos_true. Qed.

(** The loop extends both arrays by the same number of elements, and leaves
    what they already hold in place. *)
Lemma rolloutLoop_extends p e n cur sa vis k :
  let t := (rolloutLoop exp random p e n cur sa vis k).1 in
  ∃ sa' vis', stateActions t = sa ++ sa' ∧ path t = vis ++ vis'
              ∧ length sa' = length vis'.
Proof.
  revert cur sa vis k. induction n as [|n IH]; intros cur sa vis k; simpl.
  - exists [], []. by rewrite !app_nil_r.
  - destruct (samePos cur (goal e)).
    + exists [], []. by rewrite !app_nil_r.
    + unfold sampleAction. cbn zeta.
      set (a := default _ _). set (next := (step e cur a).1).
      destruct (IH next (sa ++ [(cur.1, cur.2, a)]) (vis ++ [next]) (S k))
        as (sa' & vis' & Hsa & Hvis & Hlen).
      exists ((cur.1, cur.2, a) :: sa'), (next :: vis').
      rewrite Hsa, Hvis, <- !app_assoc. simpl. by rewrite Hlen.
Qed.

Lemma rolloutLoop_at_goal p e n sa vis k :
  rolloutLoop exp random p e n (goal e) sa vis k
  = (mkTrajectory sa true vis, k).
Proof. destruct n; simpl; by rewrite samePos_refl. Qed.

End RolloutFacts.

(** C7.  The trajectory returned by [rollout] for a non-null start has one
    more position than state-action pairs and begins at the start; from the
    goal itself it reports success with no state-action pair. *)
Theorem rollout_shape (exp : Qc → Qc) (random : nat → Qc)
    (p : TabularSoftmaxPolicy) (e : GridWorld) (s : pos) (maxSteps k : nat) :
  let t := (rollout exp random p e (Some s) maxSteps k).1 in
  let t0 := (rollout exp random p e (Some (goal e)) maxSteps k).1 in
  length (path t) = S (length (stateActions t))
  ∧ path t !! 0%nat = Some s
  ∧ reachedGoal t0 = true ∧ stateActions t0 = [].
Proof.
  intros t t0. subst t t0. unfold rollout. cbn [default from_option id].
  destruct (rolloutLoop_extends exp random p e maxSteps s [] [s] k)
    as (sa' & vis' & Hsa & Hvis & Hlen).
  cbv zeta in Hsa, Hvis. rewrite Hsa, Hvis. simpl.
  rewrite Hlen, rolloutLoop_at_goal. done.
Qed.

(** ** Batches and rewards *)

Section SumFacts.

Open Scope Qc_scope.

Lemma foldl_Qcplus (a : Qc) (l : list Qc) : foldl Qcplus a l = a + sumQc l.
Proof.
  unfold sumQc. revert a. induction l as [|x l IH]; intros a; simpl.
  - ring.
  - rewrite (IH (a + x)), (IH (0 + x)). ring.
Qed.

Lemma sumQc_cons (x : Qc) (l : list Qc) : sumQc (x :: l) = x + sumQc l.
Proof. unfold sumQc at 1. simpl. rewrite foldl_Qcplus. ring. Qed.

Lemma sumQc_nil : sumQc [] = 0.
Proof. done. Qed.

Lemma QcOfNat_S (n : nat) : QcOfNat (S n) = 1 + QcOfNat n.
Proof.
  unfold QcOfNat. rewrite Nat2Z.inj_succ, <- Z.add_1_l, Z2Qc_inj_add.
  by rewrite Z2Qc_inj_1.
Qed.

Lemma QcOfNat_0 : QcOfNat 0 = 0.
Proof. apply Z2Qc_inj_0. Qed.

Lemma QcOfNat_pos (n : nat) : (0 < n)%nat → 0 < QcOfNat n.
Proof.
  intros H. rewrite <- Z2Qc_inj_0. unfold QcOfNat.
  apply (proj1 (Z2Qc_inj_lt 0 (Z.of_nat n))). lia.
Qed.

(** [K] counts the successful trajectories. *)
Lemma successes_count (ts : list Trajectory) :
  successes ts = QcOfNat (length (filter (λ t, reachedGoal t = true) ts)).
Proof.
  unfold successes. induction ts as [|t ts IH]; [symmetry; apply QcOfNat_0|].
  cbn [map]. rewrite sumQc_cons, IH, filter_cons. unfold reward.
  destruct (reachedGoal t) eqn:Hr.
  - rewrite decide_True by done. cbn [length]. by rewrite QcOfNat_S.
  - rewrite decide_False by done. ring.
Qed.

Lemma successes_none (ts : list Trajectory) :
  (∀ t, t ∈ ts → reachedGoal t = false) → successes ts = 0.
Proof.
  intros H. rewrite successes_count.
  replace (filter _ ts) with (@nil Trajectory); [apply QcOfNat_0|].
  induction ts as [|t ts IH]; [done|].
  rewrite filter_cons_False.
  - apply IH. intros t' Ht'. apply H. by right.
  - rewrite (H t) by left. done.
Qed.

Lemma successes_all (ts : list Trajectory) :
  (∀ t, t ∈ ts → reachedGoal t = true) → successes ts = QcOfNat (length ts).
Proof.
  intros H. rewrite successes_count. do 2 f_equal.
  induction ts as [|t ts IH]; [done|].
  rewrite filter_cons_True by (apply H; left).
  f_equal. apply IH. intros t' Ht'. apply H. by right.
Qed.

Lemma successes_zero_iff (ts : list Trajectory) :
  successes ts = 0 ↔ ∀ t, t ∈ ts → reachedGoal t = false.
Proof.
  split; [|apply successes_none].
  rewrite successes_count. intros H t Ht.
  destruct (reachedGoal t) eqn:Hr; [exfalso|done].
  assert (t ∈ filter (λ t, reachedGoal t = true) ts) as Hin
    by (by apply list_elem_of_filter).
  destruct (filter _ ts) as [|t' l'] eqn:Hf; [by apply elem_of_nil in Hin|].
  pose proof (QcOfNat_pos (length (t' :: l'))) as Hpos.
  rewrite H in Hpos. eapply Qclt_not_eq; [apply Hpos; simpl; lia|done].
Qed.

End SumFacts.

Section BatchFacts.

Variable exp : Qc → Qc.
Variable random : nat → Qc.

Lemma sampleBatch_length p e starts startProbs N maxSteps k :
  length (sampleBatch exp random p e starts startProbs N maxSteps k).1 = N.
Proof.
  revert k. induction N as [|N IH]; intros k; [done|]. simpl.
  unfold chooseWeighted.
  destruct (rollout _ _ _ _ _ _ _) as [traj k2].
  specialize (IH k2). destruct (sampleBatch _ _ _ _ _ _ _ _ _) as [rest k3].
  simpl in *. by rewrite IH.
Qed.

End BatchFacts.

(** ** maxrlUpdate without a success *)

(** C2.  When no trajectory of the sampled batch reaches the goal (so that
    [K] is 0), [maxrlUpdate] returns 0 and the very policy it was given: no
    gradient step, no [clipLogits]. *)
Theorem maxrlUpdate_skips_without_success (exp : Qc → Qc) (random : nat → Qc)
    (p : TabularSoftmaxPolicy) (e : GridWorld) (starts : list pos)
    (startProbs : list Qc) (N : nat) (lr : Qc) (maxSteps k : nat) :
  let batch := sampleBatch exp random p e starts startProbs N maxSteps k in
  (∀ t, t ∈ batch.1 → reachedGoal t = false) →
  successes batch.1 = 0%Qc
  ∧ maxrlUpdate exp random p e starts startProbs N lr maxSteps k
    = (0%Qc, p, batch.2).
Proof.
  intros batch Hfail. subst batch. unfold maxrlUpdate.
  destruct (sampleBatch _ _ _ _ _ _ _ _ _) as [ts k1]. cbn [fst snd] in *.
  rewrite (successes_none ts Hfail). split; [done|].
  rewrite decide_False; [done|]. intros H. by apply Qclt_not_eq in H.
Qed.

(** ** Evaluation of a policy that walks into a wall *)

Section StuckFacts.

Variable exp : Qc → Qc.
Variable random : nat → Qc.

Implicit Types (p : TabularSoftmaxPolicy) (e : GridWorld).

(** Bumping into a wall or the border leaves the position unchanged. *)
Lemma step_blocked e (s : pos) (a : nat) :
  isPath e (s.1 + (delta a).1) (s.2 + (delta a).2) = false →
  (step e s a).1 = s.
Proof.
  intros H. unfold step. destruct s as [row col].
  destruct (delta a) as [dr dc]. simpl in *. by rewrite H.
Qed.

Lemma rolloutLoop_stuck p e (s : pos) (a : nat) n sa vis k :
  s ≠ goal e →
  (step e s a).1 = s →
  (∀ j, (sampleAction exp random p s.1 s.2 j).1 = a) →
  reachedGoal (rolloutLoop exp random p e n s sa vis k).1 = false.
Proof.
  intros Hne Hstep Hact. revert sa vis k.
  assert (samePos s (goal e) = false) as Hsame.
  { destruct (samePos s (goal e)) eqn:Hs; [|done].
    by apply samePos_true in Hs. }
  induction n as [|n IH]; intros sa vis k; cbn [rolloutLoop]; rewrite Hsame;
    [done|].
  pose proof (Hact k) as Hk.
  destruct (sampleAction exp random p s.1 s.2 k) as [a' k1].
  cbn [fst] in Hk. subst a'. rewrite Hstep. apply IH.
Qed.

Lemma evalLoop_no_success p e st n maxSteps succ k :
  (∀ j, reachedGoal (rollout exp random p e st maxSteps j).1 = false) →
  (evalLoop exp random p e st n maxSteps succ k).1 = succ.
Proof.
  intros Hfail. revert succ k. induction n as [|n IH]; intros succ k; [done|].
  simpl. pose proof (Hfail k) as Hk.
  destruct (rollout exp random p e st maxSteps k) as [traj k1].
  simpl in Hk. rewrite Hk. apply IH.
Qed.

Lemma evaluate_stuck p e (s : pos) (a : nat) nEval maxSteps k :
  s ≠ goal e →
  isPath e (s.1 + (delta a).1) (s.2 + (delta a).2) = false →
  (∀ j, (sampleAction exp random p s.1 s.2 j).1 = a) →
  (evaluateFromStart exp random p e (Some s) nEval maxSteps k).1 = 0%Qc.
Proof.
  intros Hne Hwall Hact. unfold evaluateFromStart.
  pose proof (evalLoop_no_success p e (Some s) nEval maxSteps 0 k) as Hloop.
  destruct (evalLoop exp random p e (Some s) nEval maxSteps 0 k) as [succ k1].
  cbn [fst] in *. rewrite Hloop.
  - rewrite QcOfNat_0. unfold Qcdiv. ring.
  - intros j. unfold rollout. cbn [default from_option id].
    apply rolloutLoop_stuck with (a := a); [done| |done].
    by apply step_blocked.
Qed.

(** The scan picks the action that carries all the probability, whatever
    number in [0, 1) is drawn. *)
Lemma cumulativePick_certain (probs : list Qc) (r : Qc) (n b a : nat) :
  (0 <= r)%Qc → (r < 1)%Qc →
  (b ≤ a < b + n)%nat →
  nth a probs 0%Qc = 1%Qc →
  (∀ c, (b ≤ c < a)%nat → nth c probs 0%Qc = 0%Qc) →
  cumulativePick probs r n b 0%Qc = Some a.
Proof.
  intros Hr0 Hr1. revert b. induction n as [|n IH]; intros b Hba Ha Hzero;
    [lia|].
  cbn [cumulativePick]. destruct (decide (b = a)) as [->|Hne].
  - rewrite Ha. replace (0 + 1)%Qc with 1%Qc by ring.
    by rewrite decide_True.
  - rewrite (Hzero b) by lia. replace (0 + 0)%Qc with 0%Qc by ring.
    rewrite decide_False by (by apply Qcle_not_lt).
    apply IH; [lia|done|]. intros c Hc. apply Hzero. lia.
Qed.

Lemma sampleAction_certain p (row col : Z) (a k : nat) :
  (0 <= random k)%Qc → (random k < 1)%Qc →
  (a < nActions)%nat →
  nth a (getProbs exp p row col) 0%Qc = 1%Qc →
  (∀ c, (c < a)%nat → nth c (getProbs exp p row col) 0%Qc = 0%Qc) →
  (sampleAction exp random p row col k).1 = a.
Proof.
  intros Hr0 Hr1 Ha Hone Hzero. unfold sampleAction. cbn [fst].
  rewrite (cumulativePick_certain _ _ _ 0 a); [done..|lia|done|].
  intros c Hc. apply Hzero. lia.
Qed.

End StuckFacts.

(** C8.  If at the start the policy always samples one action, that action
    leads into a wall or off the grid, and the start is not the goal, then
    no rollout leaves the start and [evaluateFromStart] returns the fraction
    0, for every positive number of evaluations (with none JavaScript
    divides 0 by 0). *)
Theorem evaluateFromStart_wall_policy (exp : Qc → Qc) (random : nat → Qc)
    (p : TabularSoftmaxPolicy) (e : GridWorld) (s : pos) (a : nat)
    (nEval maxSteps k : nat) :
  (1 ≤ nEval)%nat →
  s ≠ goal e →
  isPath e (s.1 + (delta a).1) (s.2 + (delta a).2) = false →
  (∀ j, (sampleAction exp random p s.1 s.2 j).1 = a) →
  (evaluateFromStart exp random p e (Some s) nEval maxSteps k).1 = 0%Qc.
Proof.
  intros _ Hne Hwall Hact. unfold evaluateFromStart.
  assert (∀ j, reachedGoal (rollout exp random p e (Some s) maxSteps j).1 = false)
    as Hfail.
  { intros j. unfold rollout. cbn [default from_option id].
    apply rolloutLoop_stuck with (a := a); [done| |done].
    by apply step_blocked. }
  pose proof (evalLoop_no_success exp random p e (Some s) nEval maxSteps 0 k Hfail)
    as Hloop.
  destruct (evalLoop exp random p e (Some s) nEval maxSteps 0 k) as [succ k1].
  cbn [fst] in *. subst succ.
  rewrite QcOfNat_0. unfold Qcdiv. ring.
Qed.

(** When the logits put all the probability of the start state on such an
    action, this holds for every sequence of random numbers in [0, 1). *)
Lemma evaluateFromStart_certain (exp : Qc → Qc) (random : nat → Qc)
    (p : TabularSoftmaxPolicy) (e : GridWorld) (s : pos) (a : nat)
    (nEval maxSteps k : nat) :
  (∀ j, (0 <= random j)%Qc ∧ (random j < 1)%Qc) →
  (a < nActions)%nat →
  nth a (getProbs exp p s.1 s.2) 0%Qc = 1%Qc →
  (∀ c, (c < a)%nat → nth c (getProbs exp p s.1 s.2) 0%Qc = 0%Qc) →
  s ≠ goal e →
  isPath e (s.1 + (delta a).1) (s.2 + (delta a).2) = false →
  (evaluateFromStart exp random p e (Some s) nEval maxSteps k).1 = 0%Qc.
Proof.
  intros Hr Ha Hone Hzero Hne Hwall. apply evaluate_stuck with (a := a);
    [done..|].
  intros j. destruct (Hr j). by apply sampleAction_certain.
Qed.

(** [certainPolicy] in the corridor, under any such sequence. *)
Lemma evaluateFromStart_certainPolicy (random : nat → Qc) (nEval maxSteps k : nat) :
  (∀ j, (0 <= random j)%Qc ∧ (random j < 1)%Qc) →
  (evaluateFromStart expUnderflow random certainPolicy corridorWorld
     (Some (1, 1)) nEval maxSteps k).1 = 0%Qc.
Proof.
  intros Hr. apply evaluateFromStart_certain with (a := UP); [done| | | | |].
  - unfold UP, nActions. lia.
  - apply Qc_is_canon. by vm_compute.
  - unfold UP. lia.
  - intros [=].
  - reflexivity.
Qed.

(** ** reinforceUpdate on a batch without contrast *)

Section ZeroGradient.

Variable exp : Qc → Qc.
Variable random : nat → Qc.

Open Scope Qc_scope.

Implicit Types (p : TabularSoftmaxPolicy) (g : list Qc).

Lemma addAt_zero g (i : Z) : addAt g i 0 = g.
Proof.
  unfold addAt, readZ. destruct (decide (0 ≤ i)%Z); [|done].
  destruct (g !! Z.to_nat i) as [v|] eqn:Hv; [|done].
  replace (v + 0) with v by ring. by apply list_insert_id.
Qed.

Lemma addAt_length g (i : Z) (x : Qc) : length (addAt g i x) = length g.
Proof.
  unfold addAt. destruct (readZ g i); [apply length_insert|done].
Qed.

Lemma accumScore_zero (term : Qc → Qc) score base g :
  (∀ s, term s = 0) → accumScore term score base g = g.
Proof.
  intros Hterm. unfold accumScore. generalize (seq 0 nActions). intros acts.
  induction acts as [|a acts IH]; [done|].
  simpl. by rewrite Hterm, addAt_zero.
Qed.

Lemma accumTrajectory_zero p (term : Qc → Qc) g sa :
  (∀ s, term s = 0) → accumTrajectory exp p term g sa = g.
Proof.
  intros Hterm. unfold accumTrajectory.
  induction sa as [|[[row col] action] sa IH]; [done|].
  simpl. by rewrite accumScore_zero.
Qed.

Lemma nth_replicate_zero (n i : nat) : nth i (replicate n (0 : Qc)) 0 = 0.
Proof.
  revert i. induction n as [|n IH]; intros [|i]; simpl; auto.
Qed.

Lemma applyGradient_zero (lr : Qc) (l : list Qc) (n : nat) :
  applyGradient lr l (replicate n 0) = l.
Proof.
  unfold applyGradient. apply list_eq. intros i.
  rewrite list_lookup_imap. destruct (l !! i) as [z|]; [|done].
  simpl. rewrite nth_replicate_zero. f_equal. ring.
Qed.

(** With every advantage 0 nothing is ever added to the gradient. *)
Lemma reinforceGradient_no_contrast p (ts : list Trajectory) (N : nat) :
  length ts = N →
  (∀ t, t ∈ ts → reachedGoal t = true) ∨ (∀ t, t ∈ ts → reachedGoal t = false) →
  reinforceGradient exp p ts N = zeroGrad p.
Proof.
  intros Hlen Hsame. unfold reinforceGradient.
  set (rHat := successes ts / QcOfNat N).
  assert (∀ t, t ∈ ts → reward t - rHat = 0) as Hadv.
  { intros t Ht. subst rHat. unfold reward. destruct Hsame as [Hall|Hnone].
    - rewrite (Hall t Ht), (successes_all ts Hall), Hlen.
      assert (QcOfNat N ≠ 0) as Hnz.
      { apply not_eq_sym, Qclt_not_eq, QcOfNat_pos.
        destruct ts; [by apply elem_of_nil in Ht|simpl in Hlen; lia]. }
      field. done.
    - rewrite (Hnone t Ht), (successes_none ts Hnone). unfold Qcdiv. ring. }
  clearbody rHat. generalize (zeroGrad p). intros g.
  induction ts as [|t ts IH] in g, Hadv |- *; [done|].
  simpl. rewrite accumTrajectory_zero.
  - apply IH. intros t' Ht'. apply Hadv. by right.
  - intros s. rewrite (Hadv t) by left. ring.
Qed.

End ZeroGradient.

(** ** Policies of a training run *)

Lemma clipLogits_newPolicy (h w : nat) :
  clipLogits (newPolicy h w) = newPolicy h w.
Proof.
  assert (logits (clipLogits (newPolicy h w)) = logits (newPolicy h w)) as Hl.
  2:{ unfold clipLogits in *. cbn [logits height width newPolicy] in *.
      unfold newPolicy. by rewrite Hl. }
  apply list_eq. intros i. rewrite clipLogits_lookup.
  destruct (logits (newPolicy h w) !! i) as [v|] eqn:Hv; [|done].
  cbn [fmap option_fmap option_map]. f_equal.
  cbn [logits newPolicy] in Hv. apply lookup_replicate in Hv as [-> Hi].
  unfold clippedAt. case_decide; [|done].
  pose proof (blockMax_spec (logits (newPolicy h w))
                (i / nActions * nActions)) as Hmax.
  destruct (blockMax _ _) as [m|]; [|done].
  destruct Hmax as [(a & _ & Ha) _]. cbn [logits newPolicy] in Ha.
  apply lookup_replicate in Ha as [-> _].
  by rewrite Num.sub_diag, clamp_0.
Qed.

(** What [clipLogits] returns is one of its fixed points. *)
Lemma clipLogits_fixed (p : TabularSoftmaxPolicy) :
  clipLogits (clipLogits p) = clipLogits p.
Proof.
  unfold clipLogits at 1 3. f_equal.
  apply list_eq. intros i. apply (clipLogits_twice_lookup p i).
Qed.

(** Every policy of a training run is a fixed point of [clipLogits]; on such
    policies a batch without contrast leaves the logits as they are. *)
Lemma trained_clipped (exp : Qc → Qc) (random : nat → Qc)
    (p : TabularSoftmaxPolicy) :
  Trained exp random p → clipLogits p = p.
Proof.
  induction 1 as [h w|p e starts startProbs N lr maxSteps k _ _
                 |p e starts startProbs N lr maxSteps k _ IH].
  - apply clipLogits_newPolicy.
  - unfold reinforceUpdate.
    destruct (sampleBatch _ _ _ _ _ _ _ _ _) as [ts k1]. cbn [fst snd].
    apply clipLogits_fixed.
  - unfold maxrlUpdate.
    destruct (sampleBatch _ _ _ _ _ _ _ _ _) as [ts k1].
    case_decide; cbn [fst snd]; [apply clipLogits_fixed|exact IH].
Qed.

(** C3, as amended.  When all trajectories of the batch reach the goal, or
    none does, the accumulated gradient is zero and [reinforceUpdate] leaves
    behind [clipLogits] of the policy it was given; the logits are unchanged
    when they already were a fixed point of [clipLogits], as they are for
    every policy of a training run. *)
Theorem reinforceUpdate_no_contrast (exp : Qc → Qc) (random : nat → Qc)
    (p : TabularSoftmaxPolicy) (e : GridWorld) (starts : list pos)
    (startProbs : list Qc) (N : nat) (lr : Qc) (maxSteps k : nat) :
  let batch := sampleBatch exp random p e starts startProbs N maxSteps k in
  (∀ t, t ∈ batch.1 → reachedGoal t = true)
  ∨ (∀ t, t ∈ batch.1 → reachedGoal t = false) →
  reinforceGradient exp p batch.1 N = replicate (length (logits p)) 0%Qc
  ∧ reinforceUpdate exp random p e starts startProbs N lr maxSteps k
    = (successes batch.1, clipLogits p, batch.2)
  ∧ (clipLogits p = p ∨ Trained exp random p →
     reinforceUpdate exp random p e starts startProbs N lr maxSteps k
     = (successes batch.1, p, batch.2)).
Proof.
  intros batch Hsame.
  assert (reinforceUpdate exp random p e starts startProbs N lr maxSteps k
          = (successes batch.1, clipLogits p, batch.2)) as Hupd.
  { unfold reinforceUpdate. subst batch.
    pose proof (sampleBatch_length exp random p e starts startProbs N maxSteps k)
      as Hlen.
    destruct (sampleBatch _ _ _ _ _ _ _ _ _) as [ts k1]. cbn [fst snd] in *.
    rewrite (reinforceGradient_no_contrast exp p ts N Hlen Hsame).
    unfold zeroGrad. rewrite applyGradient_zero. by destruct p. }
  split; [|split; [done|]].
  - apply reinforceGradient_no_contrast; [|done].
    apply sampleBatch_length.
  - intros [Hfix|Htr]; rewrite Hupd; [by rewrite Hfix|].
    by rewrite (trained_clipped exp random p Htr).
Qed.

(** ** The gradient loops as sums *)

Section GradientSums.

Variable exp : Qc → Qc.

Open Scope Qc_scope.

Implicit Types (p : TabularSoftmaxPolicy) (g : list Qc) (j : nat).

Lemma addAt_lookup g (i : Z) (x : Qc) j :
  addAt g i x !! j
  = (λ v, v + (if decide (Z.of_nat j = i) then x else 0)) <$> g !! j.
Proof.
  unfold addAt, readZ. destruct (decide (0 ≤ i)%Z) as [Hi|Hi].
  - destruct (g !! Z.to_nat i) as [v|] eqn:Hv.
    + destruct (decide (Z.of_nat j = i)) as [Hj|Hj].
      * subst i. rewrite Nat2Z.id in *.
        rewrite list_lookup_insert_eq by (by eapply lookup_lt_Some).
        by rewrite Hv.
      * rewrite list_lookup_insert_ne by lia.
        destruct (g !! j) as [w|]; [|done]. simpl. f_equal. ring.
    + destruct (decide (Z.of_nat j = i)) as [Hj|Hj].
      * subst i. rewrite Nat2Z.id in *. by rewrite Hv.
      * destruct (g !! j) as [w|]; [|done]. simpl. f_equal. ring.
  - rewrite decide_False by lia.
    destruct (g !! j) as [w|]; [|done]. simpl. f_equal. ring.
Qed.

Lemma accumScore_lookup_gen (term : Qc → Qc) score (base : Z) acts g j :
  foldl (λ g a, addAt g (base + Z.of_nat a) (term (nth a score 0))) g acts !! j
  = (λ v, v + sumQc (map (λ a, if decide (Z.of_nat j = (base + Z.of_nat a)%Z)
                                then term (nth a score 0) else 0) acts))
    <$> g !! j.
Proof.
  revert g. induction acts as [|a acts IH]; intros g.
  - simpl. destruct (g !! j) as [w|]; [|done]. simpl. f_equal.
    rewrite sumQc_nil. ring.
  - cbn [foldl map]. rewrite IH, addAt_lookup, sumQc_cons.
    destruct (g !! j) as [w|]; [|done]. simpl. f_equal. ring.
Qed.

(** The innermost loop adds to a slot the term of the score component that
    belongs to it. *)
Lemma accumScore_lookup (term : Qc → Qc) score (base : Z) g j :
  accumScore term score base g !! j
  = (λ v, v + (if decide (0 ≤ Z.of_nat j - base < Z.of_nat nActions)%Z
               then term (nth (Z.to_nat (Z.of_nat j - base)) score 0)
               else 0))
    <$> g !! j.
Proof.
  unfold accumScore. rewrite accumScore_lookup_gen.
  destruct (g !! j) as [w|]; [|done]. simpl. do 2 f_equal.
  unfold nActions. cbn [seq map]. rewrite !sumQc_cons, sumQc_nil.
  destruct (decide (0 ≤ Z.of_nat j - base < Z.of_nat 4)%Z) as [Hoff|Hoff].
  - assert (Z.to_nat (Z.of_nat j - base) = 0 ∨ Z.to_nat (Z.of_nat j - base) = 1
            ∨ Z.to_nat (Z.of_nat j - base) = 2
            ∨ Z.to_nat (Z.of_nat j - base) = 3)%nat
      as [H|[H|[H|H]]] by lia; rewrite H;
      repeat (first [rewrite decide_True by lia | rewrite decide_False by lia]);
      ring.
  - rewrite !decide_False by lia. ring.
Qed.

Lemma accumTrajectory_lookup p (term : Qc → Qc) g sa j :
  accumTrajectory exp p term g sa !! j
  = (λ v, v + sumQc (map (λ x,
        let '(row, col, action) := x in
        if decide (0 ≤ Z.of_nat j - stateBase p row col < Z.of_nat nActions)%Z
        then term (nth (Z.to_nat (Z.of_nat j - stateBase p row col))
                       (scoreFunction exp p row col action) 0)
        else 0) sa))
    <$> g !! j.
Proof.
  unfold accumTrajectory. revert g.
  induction sa as [|[[row col] action] sa IH]; intros g.
  - simpl. destruct (g !! j) as [w|]; [|done]. simpl. f_equal.
    rewrite sumQc_nil. ring.
  - cbn [foldl map]. rewrite IH, accumScore_lookup, sumQc_cons.
    destruct (g !! j) as [w|]; [|done]. simpl. f_equal. ring.
Qed.

(** A term that multiplies the score by a coefficient gives the coefficient
    times [scoreAt]. *)
Lemma accumTrajectory_scaled p (coef : Qc) (term : Qc → Qc) g sa j :
  (∀ s, term s = coef * s) →
  accumTrajectory exp p term g sa !! j
  = (λ v, v + sumQc (map (λ x, coef * scoreAt exp p j x) sa)) <$> g !! j.
Proof.
  intros Hterm. rewrite accumTrajectory_lookup.
  destruct (g !! j) as [w|]; [|done]. simpl. do 3 f_equal.
  apply map_ext. intros [[row col] action]. unfold scoreAt.
  case_decide; [apply Hterm|ring].
Qed.

Lemma gradientLoop_lookup p (coef : Trajectory → Qc)
    (term : Trajectory → Qc → Qc) ts g j :
  (∀ t s, term t s = coef t * s) →
  foldl (λ g t, accumTrajectory exp p (term t) g (stateActions t)) g ts !! j
  = (λ v, v + weightedScoreSum exp p coef ts j) <$> g !! j.
Proof.
  intros Hterm. unfold weightedScoreSum. revert g.
  induction ts as [|t ts IH]; intros g.
  - simpl. destruct (g !! j) as [w|]; [|done]. simpl. f_equal.
    rewrite sumQc_nil. ring.
  - cbn [foldl map]. rewrite IH, (accumTrajectory_scaled p (coef t)) by done.
    rewrite sumQc_cons. destruct (g !! j) as [w|]; [|done]. simpl. f_equal. ring.
Qed.

(** Applying a gradient held in an array is applying its slots. *)
Lemma applyGradient_slots (lr : Qc) (l grad : list Qc) (f : nat → Qc) :
  (∀ i, (i < length l)%nat → nth i grad 0 = f i) →
  applyGradient lr l grad = imap (λ i z, z + lr * f i) l.
Proof.
  intros H. unfold applyGradient. apply list_eq. intros i.
  rewrite !list_lookup_imap. destruct (l !! i) as [z|] eqn:Hz; [|done].
  simpl. rewrite H; [done|]. by eapply lookup_lt_Some.
Qed.

Lemma zeroGrad_lookup p j :
  (j < length (logits p))%nat → zeroGrad p !! j = Some 0.
Proof. intros H. unfold zeroGrad. by apply lookup_replicate_2. Qed.

(** The gradient of [maxrlUpdate], slot by slot. *)
Lemma maxrlGradient_slot p ts N j :
  (j < length (logits p))%nat →
  nth j (maxrlGradient exp p ts N) 0
  = weightedScoreSum exp p (maxrlWeight (successes ts) N) ts j.
Proof.
  intros Hj. unfold maxrlGradient. apply nth_lookup_Some with (d := 0).
  rewrite (gradientLoop_lookup p (maxrlWeight (successes ts) N)) by done.
  rewrite zeroGrad_lookup by done. simpl. f_equal. ring.
Qed.

(** The gradient of [reinforceUpdate], slot by slot. *)
Lemma reinforceGradient_slot p ts N j :
  (j < length (logits p))%nat →
  nth j (reinforceGradient exp p ts N) 0
  = weightedScoreSum exp p
      (λ t, 1 / QcOfNat N * advantage (successes ts) N t) ts j.
Proof.
  intros Hj. unfold reinforceGradient. apply nth_lookup_Some with (d := 0).
  rewrite (gradientLoop_lookup p
             (λ t, 1 / QcOfNat N * advantage (successes ts) N t)) by done.
  rewrite zeroGrad_lookup by done. simpl. f_equal. ring.
Qed.

End GradientSums.

(** [reinforceUpdate] steps along the sum of [(1/N) * A_i * score]. *)
Lemma reinforceUpdate_gradient (exp : Qc → Qc) (random : nat → Qc)
    (p : TabularSoftmaxPolicy) (e : GridWorld) (starts : list pos)
    (startProbs : list Qc) (N : nat) (lr : Qc) (maxSteps k : nat) :
  let batch := sampleBatch exp random p e starts startProbs N maxSteps k in
  let K := successes batch.1 in
  reinforceUpdate exp random p e starts startProbs N lr maxSteps k
  = (K,
     steppedPolicy p lr
       (weightedScoreSum exp p
          (λ t, (1 / QcOfNat N * advantage K N t)%Qc) batch.1),
     batch.2).
Proof.
  intros batch K. subst batch K. unfold reinforceUpdate, steppedPolicy.
  destruct (sampleBatch _ _ _ _ _ _ _ _ _) as [ts k1]. cbn [fst snd].
  by rewrite (applyGradient_slots lr (logits p) _ _
                (reinforceGradient_slot exp p ts N)).
Qed.

(** [maxrlUpdate] steps along the sum of [w_i * score], when it steps. *)
Lemma maxrlUpdate_as_sum (exp : Qc → Qc) (random : nat → Qc)
    (p : TabularSoftmaxPolicy) (e : GridWorld) (starts : list pos)
    (startProbs : list Qc) (N : nat) (lr : Qc) (maxSteps k : nat) :
  let batch := sampleBatch exp random p e starts startProbs N maxSteps k in
  let K := successes batch.1 in
  maxrlUpdate exp random p e starts startProbs N lr maxSteps k
  = if decide (0 < K)%Qc then
      (K,
       steppedPolicy p lr (weightedScoreSum exp p (maxrlWeight K N) batch.1),
       batch.2)
    else (K, p, batch.2).
Proof.
  intros batch K. subst batch K. unfold maxrlUpdate, steppedPolicy.
  destruct (sampleBatch _ _ _ _ _ _ _ _ _) as [ts k1]. cbn [fst snd] in *.
  case_decide; [|done].
  by rewrite (applyGradient_slots lr (logits p) _ _
                (maxrlGradient_slot exp p ts N)).
Qed.

(** C1, as amended.  With [K > 0] successes, [maxrlUpdate] adds into each
    logit's gradient slot, for every visit of every trajectory,
    [w_i * scoreFunction(state, action)] with [w_i = reward_i / K - 1 / N]
    and no further factor [1 / N]; the logits then move by [lr] times that
    sum and [clipLogits] is applied. *)
Theorem maxrlUpdate_gradient (exp : Qc → Qc) (random : nat → Qc)
    (p : TabularSoftmaxPolicy) (e : GridWorld) (starts : list pos)
    (startProbs : list Qc) (N : nat) (lr : Qc) (maxSteps k : nat) :
  let batch := sampleBatch exp random p e starts startProbs N maxSteps k in
  let K := successes batch.1 in
  (0 < K)%Qc →
  maxrlUpdate exp random p e starts startProbs N lr maxSteps k
  = (K,
     steppedPolicy p lr (weightedScoreSum exp p (maxrlWeight K N) batch.1),
     batch.2).
Proof.
  intros batch K HK. subst batch K. unfold maxrlUpdate, steppedPolicy.
  destruct (sampleBatch _ _ _ _ _ _ _ _ _) as [ts k1]. cbn [fst snd] in *.
  rewrite decide_True by done. f_equal. f_equal. f_equal. f_equal.
  apply applyGradient_slots. intros i Hi.
  by apply maxrlGradient_slot.
Qed.

(** The update with the factor [1 / N] kept is the update of the code
    when that factor is 1: for batches of one trajectory. *)
Lemma maxrlUpdateAsWorded_single (exp : Qc → Qc) (random : nat → Qc)
    (p : TabularSoftmaxPolicy) (e : GridWorld) (starts : list pos)
    (startProbs : list Qc) (lr : Qc) (maxSteps k : nat) :
  maxrlUpdateAsWorded exp random p e starts startProbs 1 lr maxSteps k
  = maxrlUpdate exp random p e starts startProbs 1 lr maxSteps k.
Proof.
  rewrite maxrlUpdate_as_sum. unfold maxrlUpdateAsWorded.
  destruct (sampleBatch _ _ _ _ _ _ _ _ _) as [ts k1]. cbn [fst snd].
  case_decide; [|done]. do 2 f_equal. unfold steppedPolicy. do 2 f_equal.
  apply imap_ext. intros i z _. do 2 f_equal.
  unfold weightedScoreSum. f_equal. apply map_ext. intros t. f_equal.
  apply map_ext. intros sa. f_equal.
  replace (QcOfNat 1) with 1%Qc by (symmetry; apply Z2Qc_inj_1).
  field. discriminate.
Qed.

(** ** Concrete runs *)

Lemma logits_neq_by_value (l1 l2 : list Qc) :
  this <$> l1 ≠ this <$> l2 → l1 ≠ l2.
Proof. intros H ->. by apply H. Qed.

(** C1 as the specification words it does not hold.  On the corridor, from the uniform policy
    with a batch of one success and one failure ([K = 1], [N = 2]), the code
    moves the logits of the start state to [-1/2, -1/2, -1, 0], whereas an
    update that kept the factor [1 / N] would give [-1/4, -1/4, -1/2, 0]. *)
Lemma maxrlUpdate_not_as_worded :
  let run := maxrlUpdate expQ mixedDraws (newPolicy 3 4) corridorWorld
               [(1, 1)] [1%Qc] 2 1%Qc 1 0 in
  let worded := maxrlUpdateAsWorded expQ mixedDraws (newPolicy 3 4) corridorWorld
                  [(1, 1)] [1%Qc] 2 1%Qc 1 0 in
  (0 < run.1.1)%Qc
  ∧ this <$> take 4 (drop 20 (logits run.1.2)) = [-1 # 2; -1 # 2; -1 # 1; 0 # 1]%Q
  ∧ this <$> take 4 (drop 20 (logits worded.1.2))
    = [-1 # 4; -1 # 4; -1 # 2; 0 # 1]%Q
  ∧ run ≠ worded.
Proof.
  intros run worded. split; [by vm_compute|]. split; [by vm_compute|].
  split; [by vm_compute|].
  intros Heq. apply (f_equal (λ r, this <$> logits r.1.2)) in Heq.
  vm_compute in Heq. discriminate Heq.
Qed.

Lemma maxrlUpdate_gradient_witness :
  let batch := sampleBatch expQ mixedDraws (newPolicy 3 4) corridorWorld
                 [(1, 1)] [1%Qc] 2 1 0 in
  let K := successes batch.1 in
  (0 < K)%Qc
  ∧ maxrlUpdate expQ mixedDraws (newPolicy 3 4) corridorWorld
      [(1, 1)] [1%Qc] 2 1%Qc 1 0
    = (K,
       steppedPolicy (newPolicy 3 4) 1%Qc
         (weightedScoreSum expQ (newPolicy 3 4) (maxrlWeight K 2) batch.1),
       batch.2).
Proof.
  intros batch K.
  assert (0 < K)%Qc as HK by (by vm_compute).
  split; [exact HK|].
  exact (maxrlUpdate_gradient expQ mixedDraws (newPolicy 3 4) corridorWorld
           [(1, 1)] [1%Qc] 2 1%Qc 1 0 HK).
Defined.

(** C3 as the specification words it does not hold.  [wallPolicy] only ever walks into the
    wall, so both trajectories of the batch fail, and yet the logits of its
    start state go from [2, 0, 0, 0] to [0, -2, -2, -2]. *)
Lemma reinforceUpdate_changes_unclipped_logits :
  let batch := sampleBatch expQ lowDraws wallPolicy corridorWorld
                 [(1, 1)] [1%Qc] 2 3 0 in
  let run := reinforceUpdate expQ lowDraws wallPolicy corridorWorld
               [(1, 1)] [1%Qc] 2 1%Qc 3 0 in
  reachedGoal <$> batch.1 = [false; false]
  ∧ this <$> take 4 (drop 20 (logits wallPolicy)) = [2 # 1; 0 # 1; 0 # 1; 0 # 1]%Q
  ∧ this <$> take 4 (drop 20 (logits run.1.2)) = [0 # 1; -2 # 1; -2 # 1; -2 # 1]%Q
  ∧ logits run.1.2 ≠ logits wallPolicy.
Proof.
  intros batch run. split; [by vm_compute|]. split; [by vm_compute|].
  split; [by vm_compute|].
  apply logits_neq_by_value. vm_compute. discriminate.
Qed.

Lemma all_failed_batch :
  ∀ t, t ∈ (sampleBatch expQ lowDraws wallPolicy corridorWorld
              [(1, 1)] [1%Qc] 2 3 0).1 → reachedGoal t = false.
Proof.
  intros t Ht. apply list_elem_of_lookup in Ht as [i Hi].
  destruct i as [|[|i]]; vm_compute in Hi; [| |discriminate Hi];
    injection Hi as <-; reflexivity.
Defined.

Lemma reinforceUpdate_no_contrast_witness :
  let batch := sampleBatch expQ lowDraws wallPolicy corridorWorld
                 [(1, 1)] [1%Qc] 2 3 0 in
  (∀ t, t ∈ batch.1 → reachedGoal t = false)
  ∧ reinforceGradient expQ wallPolicy batch.1 2
    = replicate (length (logits wallPolicy)) 0%Qc
  ∧ reinforceUpdate expQ lowDraws wallPolicy corridorWorld
      [(1, 1)] [1%Qc] 2 1%Qc 3 0
    = (successes batch.1, clipLogits wallPolicy, batch.2)
  ∧ (clipLogits wallPolicy = wallPolicy ∨ Trained expQ lowDraws wallPolicy →
     reinforceUpdate expQ lowDraws wallPolicy corridorWorld
       [(1, 1)] [1%Qc] 2 1%Qc 3 0
     = (successes batch.1, wallPolicy, batch.2)).
Proof.
  split; [exact all_failed_batch|].
  exact (reinforceUpdate_no_contrast expQ lowDraws wallPolicy corridorWorld
           [(1, 1)] [1%Qc] 2 1%Qc 3 0 (or_intror all_failed_batch)).
Defined.

(** [wallPolicy] is not a fixed point of [clipLogits], and comes back as it
    was. *)
Lemma maxrlUpdate_skips_witness :
  let batch := sampleBatch expQ lowDraws wallPolicy corridorWorld
                 [(1, 1)] [1%Qc] 2 3 0 in
  (∀ t, t ∈ batch.1 → reachedGoal t = false)
  ∧ clipLogits wallPolicy ≠ wallPolicy
  ∧ successes batch.1 = 0%Qc
  ∧ maxrlUpdate expQ lowDraws wallPolicy corridorWorld
      [(1, 1)] [1%Qc] 2 1%Qc 3 0
    = (0%Qc, wallPolicy, batch.2).
Proof.
  split; [exact all_failed_batch|]. split.
  - intros Heq. apply (f_equal (λ p, this <$> logits p)) in Heq.
    vm_compute in Heq. discriminate Heq.
  - exact (maxrlUpdate_skips_without_success expQ lowDraws wallPolicy
             corridorWorld [(1, 1)] [1%Qc] 2 1%Qc 3 0 all_failed_batch).
Defined.

Lemma clipLogits_invariant_witness :
  let z := logits (clipLogits wallPolicy) in
  length (logits wallPolicy) = (3 * 4 * nActions)%nat
  ∧ this <$> take 4 (drop 20 z) = [0 # 1; -2 # 1; -2 # 1; -2 # 1]%Q
  ∧ blockMax z 20 = Some 0%Qc
  ∧ (∃ a, (a < 4)%nat ∧ z !! (20 + a)%nat = Some 0%Qc)
  ∧ (∀ a, (a < 4)%nat →
       ∃ v, z !! (20 + a)%nat = Some v ∧ (v <= 0)%Qc ∧ (- Qc_of_Z 20 <= v)%Qc).
Proof.
  split; [reflexivity|]. split; [by vm_compute|].
  apply (clipLogits_max_zero_min_bounded wallPolicy 1 1);
    [reflexivity | simpl; lia | simpl; lia].
Defined.

Lemma wallPolicy_always_up :
  ∀ j, (sampleAction expQ lowDraws wallPolicy 1 1 j).1 = UP.
Proof.
  intros j. unfold sampleAction, lowDraws, cycleDraws. cbn [fst length].
  pose proof (Nat.mod_upper_bound j 4) as Hm.
  destruct (j mod 4)%nat as [|[|[|[|m]]]]; [by vm_compute ..|lia].
Defined.

Lemma evaluateFromStart_wall_policy_witness :
  (1 ≤ 10)%nat
  ∧ (1, 1) ≠ goal corridorWorld
  ∧ isPath corridorWorld (1 + (delta UP).1) (1 + (delta UP).2) = false
  ∧ (evaluateFromStart expQ lowDraws wallPolicy corridorWorld (Some (1, 1))
       10 25 0).1 = 0%Qc.
Proof.
  assert ((1, 1) ≠ goal corridorWorld) as Hne by (intros [=]).
  split; [lia|]. split; [exact Hne|]. split; [reflexivity|].
  apply (evaluateFromStart_wall_policy expQ lowDraws wallPolicy corridorWorld
           (1, 1) UP 10 25 0); [lia | exact Hne | reflexivity |].
  exact wallPolicy_always_up.
Defined.

(** ** Breadth-first search *)

Section GridFacts.

Implicit Types (g : Grid) (u v : pos).

Lemma openCell_inGrid g r c : openCell g r c = true → inGrid g r c = true.
Proof. unfold openCell. by intros [H _]%andb_true_iff. Qed.

Lemma inGrid_spec g r c :
  inGrid g r c = true ↔ 0 ≤ r < gridHeight g ∧ 0 ≤ c < gridWidth g.
Proof. unfold inGrid. rewrite !andb_true_iff. lia. Qed.

Lemma inGrid_allCells g v : inGrid g v.1 v.2 = true → v ∈ allCells g.
Proof.
  intros H%inGrid_spec. unfold allCells. apply list_elem_of_In.
  destruct v as [r c]. apply in_prod; apply list_elem_of_In, elem_of_seqZ;
    simpl in *; lia.
Qed.

Lemma allCells_length g :
  length (allCells g) = Z.to_nat (gridHeight g * gridWidth g).
Proof.
  unfold allCells. etransitivity; [apply length_prod|].
  rewrite !length_seqZ. unfold gridHeight, gridWidth. destruct g; simpl; lia.
Qed.

Lemma inGrid_nonempty g r c : inGrid g r c = true → g ≠ [].
Proof. intros H%inGrid_spec ->. simpl in H. lia. Qed.

(** On a grid with at least one row the search checks the start's row and
    enters its loop. *)
Lemma bfsWith_nonempty deltas g (start goal : pos) :
  g ≠ [] →
  bfsWith deltas g start goal
  = if (0 <=? start.1) && (start.1 <? gridHeight g) then
      bfsLoop (Z.to_nat (gridHeight g * gridWidth g) + 2) deltas g goal
        (mkBfs [(start, 0)] 0
               (if inGrid g start.1 start.2 then {[ start ]} else ∅) ∅)
    else Throws.
Proof. intros Hg. unfold bfsWith. by destruct g. Qed.

End GridFacts.

Section WalkFacts.

Variable deltas : list (Z * Z).
Variable g : Grid.

Lemma route_walk u cells v :
  route deltas g u cells v → ∃ n, length cells = S n ∧ walk deltas g u n v.
Proof.
  induction 1 as [|cells v w _ (n & Hlen & Hw) He].
  - exists 0%nat. split; [done|constructor].
  - exists (S n). split; [rewrite length_app, Hlen; simpl; lia|].
    by econstructor.
Qed.

End WalkFacts.

Section BfsProof.

Variable deltas : list (Z * Z).
Variable g : Grid.
Variables start goal : pos.

Implicit Types (q : list Entry) (vis : gset pos) (par : gmap pos pos)
  (u v : pos) (h i j : nat).

Local Abbreviation Inv := (BfsInv deltas g start goal).

Lemma bfs_init :
  Inv [(start, 0)] (if inGrid g start.1 start.2 then {[ start ]} else ∅) ∅ 0 [].
Proof.
  split.
  - simpl. lia.
  - done.
  - intros v. destruct (inGrid g start.1 start.2) eqn:Hin.
    + rewrite elem_of_singleton. split.
      * intros ->. split; [done|]. exists 0. by apply list_elem_of_singleton.
      * intros [_ [d Hd]]. apply list_elem_of_singleton in Hd. by injection Hd.
    + split; [intros H; by apply not_elem_of_empty in H|].
      intros [Hv [d Hd]]. apply list_elem_of_singleton in Hd.
      injection Hd as -> ->. congruence.
  - simpl. apply NoDup_singleton.
  - intros i v d Hi. done.
  - intros i j ei ej _ Hi Hj.
    apply list_lookup_singleton_Some in Hi as [_ <-].
    apply list_lookup_singleton_Some in Hj as [_ <-]. done.
  - intros j eh ej Hh Hj.
    apply list_lookup_singleton_Some in Hh as [_ <-].
    apply list_lookup_singleton_Some in Hj as [_ <-]. simpl. lia.
  - intros i v d Hi. apply list_lookup_singleton_Some in Hi as [-> [= <- <-]].
    split; [lia|]. split; [constructor|simpl; lia].
  - intros i u du v Hi. lia.
  - intros u du d _ Hd. by apply elem_of_nil in Hd.
  - intros i u du Hi. lia.
  - intros i v d Hi. apply list_lookup_singleton_Some in Hi as [-> [= <- <-]].
    apply lookup_empty.
Qed.

Lemma entry_lookup_elem q i (e : Entry) : q !! i = Some e → e ∈ q.
Proof. intros H. apply list_elem_of_lookup. by exists i. Qed.

(** Positions occur once in the queue. *)
Lemma inv_unique q vis par h tried i j v d d' :
  Inv q vis par h tried →
  q !! i = Some (v, d) → q !! j = Some (v, d') → i = j ∧ d = d'.
Proof.
  intros HI Hi Hj.
  assert (i = j) as <-.
  { eapply NoDup_lookup; [apply (inv_nodup _ _ _ _ _ _ _ _ _ HI)| |].
    - rewrite list_lookup_fmap, Hi. done.
    - rewrite list_lookup_fmap, Hj. done. }
  split; [done|]. congruence.
Qed.

(** Trying one direction for the entry at index [h]. *)
Lemma expandStep_inv q vis par h tried hd u du d :
  Inv q vis par h tried →
  q !! h = Some (u, du) →
  d ∈ deltas →
  let st := expandStep g u du (mkBfs q hd vis par) d in
  Inv (queue st) (visited st) (parent st) h (d :: tried) ∧ head st = hd.
Proof.
  intros HI Hh Hd. unfold expandStep. cbn [queue head visited parent].
  set (n := move u d).
  destruct (openCell g n.1 n.2) eqn:Hopen; cbn [andb].
  2:{ cbn [queue head visited parent]. split; [|done]. destruct HI. split; try done.
      intros u' du' d' Hh' Hd' Hopen'. rewrite Hh in Hh'. injection Hh' as <- <-.
      apply elem_of_cons in Hd' as [->|Hd'].
      - fold n in Hopen'. congruence.
      - exact (inv_partial0 u du d' Hh Hd' Hopen'). }
  destruct (decide (n ∈ vis)) as [Hseen|Hnew].
  - rewrite bool_decide_false by (intros Hn; by apply Hn).
    cbn [queue head visited parent]. split; [|done]. pose proof HI as HI'. destruct HI. split; try done.
    intros u' du' d' Hh' Hd' Hopen'. rewrite Hh in Hh'. injection Hh' as <- <-.
    apply elem_of_cons in Hd' as [->|Hd'].
    + fold n. apply inv_vis0 in Hseen as [_ [dv Hdv]]. exists dv. split; [done|].
      apply list_elem_of_lookup in Hdv as [j Hj].
      apply (inv_level0 j (u, du) (n, dv) Hh Hj).
    + exact (inv_partial0 u du d' Hh Hd' Hopen').
  - rewrite bool_decide_true by done. cbn [queue head visited parent].
    split; [|done].
    assert (h < length q)%nat as Hhlt by (by eapply lookup_lt_Some).
    assert (∀ dn, (n, dn) ∉ q) as Hfresh.
    { intros dn Hin. apply Hnew. apply (inv_vis _ _ _ _ _ _ _ _ _ HI).
      split; [by apply openCell_inGrid|by exists dn]. }
    assert (edge deltas g u n) as Hedge by (by exists d).
    destruct (inv_walk _ _ _ _ _ _ _ _ _ HI h u du Hh) as (Hdu0 & Hwalk & Hidx).
    destruct HI. split.
    + rewrite length_app. simpl. lia.
    + rewrite lookup_app_l; [done|]. lia.
    + intros v. rewrite elem_of_union, elem_of_singleton, inv_vis0. split.
      * intros [->|[Hv [dv Hdv]]].
        -- split; [by apply openCell_inGrid|]. exists (du + 1).
           apply elem_of_app. right. by apply list_elem_of_singleton.
        -- split; [done|]. exists dv. apply elem_of_app. by left.
      * intros [Hv [dv Hdv]]. apply elem_of_app in Hdv as [Hdv|Hdv].
        -- right. split; [done|]. by exists dv.
        -- left. apply list_elem_of_singleton in Hdv. by injection Hdv.
    + rewrite fmap_app. apply NoDup_app. split; [done|]. split.
      * intros v Hv Hv'. simpl in Hv'. apply list_elem_of_singleton in Hv'. subst v.
        apply list_elem_of_fmap in Hv as [[v' dv] [Heq Hin]]. simpl in Heq. subst v'.
        by apply (Hfresh dv).
      * simpl. apply NoDup_singleton.
    + intros i v dv Hi.
      apply lookup_snoc_Some in Hi as [[Hilt Hi]|[Hieq [= <- <-]]].
      * exact (inv_inb0 i v dv Hi).
      * by apply openCell_inGrid.
    + intros i j ei ej Hij Hi Hj.
      apply lookup_snoc_Some in Hj as [[Hjlt Hj]|[Hjeq <-]].
      * rewrite lookup_app_l in Hi by lia.
        exact (inv_sorted0 i j ei ej Hij Hi Hj).
      * apply lookup_snoc_Some in Hi as [[Hilt Hi]|[Hieq <-]]; [|simpl; lia].
        apply (inv_level0 i (u, du) ei Hh Hi).
    + intros j eh ej Hh' Hj. rewrite lookup_app_l in Hh' by done.
      rewrite Hh in Hh'. injection Hh' as <-.
      apply lookup_snoc_Some in Hj as [[Hjlt Hj]|[Hjeq <-]].
      * apply (inv_level0 j (u, du) ej Hh Hj).
      * simpl. lia.
    + intros i v dv Hi.
      apply lookup_snoc_Some in Hi as [[Hilt Hi]|[Hieq [= <- <-]]].
      * by apply inv_walk0.
      * split; [lia|]. split.
        -- replace (Z.to_nat (du + 1)) with (S (Z.to_nat du)) by lia.
           by econstructor.
        -- lia.
    + intros i u' du' v Hi Hq He. rewrite lookup_app_l in Hq by lia.
      destruct (inv_closed0 i u' du' v Hi Hq He) as (dv & Hdv & Hle).
      exists dv. split; [|done]. apply elem_of_app. by left.
    + intros u' du' d' Hh' Hd' Hopen'. rewrite lookup_app_l in Hh' by done.
      rewrite Hh in Hh'. injection Hh' as <- <-.
      apply elem_of_cons in Hd' as [->|Hd'].
      * fold n. exists (du + 1). split; [|lia].
        apply elem_of_app. right. by apply list_elem_of_singleton.
      * destruct (inv_partial0 u du d' Hh Hd' Hopen') as (dv & Hdv & Hle).
        exists dv. split; [|done]. apply elem_of_app. by left.
    + intros i u' du' Hi Hq. rewrite lookup_app_l in Hq by lia.
      exact (inv_goal0 i u' du' Hi Hq).
    + intros i v dv Hi.
      apply lookup_snoc_Some in Hi as [[Hilt Hi]|[Hieq [= <- <-]]].
      * assert (v ≠ n) as Hvn.
        { intros ->. apply (Hfresh dv). by eapply entry_lookup_elem. }
        pose proof (inv_parent0 i v dv Hi) as Hp. destruct i as [|i].
        -- by rewrite lookup_insert_ne.
        -- destruct Hp as (u' & Hpu & Hin & He). exists u'.
           rewrite lookup_insert_ne by done. split; [done|]. split; [|done].
           apply elem_of_app. by left.
      * destruct (length q) as [|l] eqn:Hlen; [lia|]. subst i.
        exists u. rewrite lookup_insert_eq. split; [done|]. split; [|done].
        apply elem_of_app. left. replace (du + 1 - 1) with du by lia.
        by eapply entry_lookup_elem.
Qed.

Lemma expandStep_keeps q vis par hd u du d h (e : Entry) :
  q !! h = Some e →
  queue (expandStep g u du (mkBfs q hd vis par) d) !! h = Some e.
Proof.
  intros Hh. unfold expandStep. cbn [queue visited].
  destruct (_ && _); cbn [queue]; [|done].
  rewrite lookup_app_l; [done|]. by eapply lookup_lt_Some.
Qed.

Lemma expand_keeps ds (st : BfsState) u du h (e : Entry) :
  queue st !! h = Some e →
  queue (foldl (expandStep g u du) st ds) !! h = Some e.
Proof.
  revert st. induction ds as [|d ds IH]; intros [q hd vis par] Hh; [done|].
  cbn [foldl]. apply IH. by apply expandStep_keeps.
Qed.

(** Trying a list of directions, as the [for] loop does. *)
Lemma expand_inv ds q vis par h tried hd u du :
  Inv q vis par h tried →
  q !! h = Some (u, du) →
  (∀ d, d ∈ ds → d ∈ deltas) →
  let st := foldl (expandStep g u du) (mkBfs q hd vis par) ds in
  Inv (queue st) (visited st) (parent st) h (reverse ds ++ tried)
  ∧ head st = hd.
Proof.
  revert q vis par tried. induction ds as [|d ds IH];
    intros q vis par tried HI Hh Hds; [done|].
  cbn [foldl].
  destruct (expandStep_inv q vis par h tried hd u du d HI Hh) as [HI1 Hhd1];
    [apply Hds; left|].
  pose proof (expandStep_keeps q vis par hd u du d h _ Hh) as Hh1.
  destruct (expandStep g u du (mkBfs q hd vis par) d) as [q1 hd1 vis1 par1].
  cbn [queue head visited parent] in *. subst hd1.
  rewrite reverse_cons, <- app_assoc. apply IH; [done|done|].
  intros d' Hd'. apply Hds. by right.
Qed.

(** Once every direction has been tried, the entry counts as processed. *)
Lemma advance_inv q vis par h tried u du :
  Inv q vis par h tried →
  (∀ d, d ∈ deltas → d ∈ tried) →
  q !! h = Some (u, du) →
  u ≠ goal →
  Inv q vis par (S h) [].
Proof.
  intros HI Hall Hh Hne. pose proof HI as HI'. destruct HI. split; try done.
  - by apply lookup_lt_Some in Hh.
  - intros j eh ej Hh' Hj.
    pose proof (inv_level0 j (u, du) ej Hh Hj) as H1.
    pose proof (inv_sorted0 h (S h) (u, du) eh (Nat.le_succ_diag_r h) Hh Hh')
      as H2.
    simpl in *. lia.
  - intros i u' du' v Hi Hq He.
    destruct (decide (i = h)) as [->|Hih].
    + rewrite Hh in Hq. injection Hq as <- <-.
      destruct He as (d & Hd & -> & Hopen).
      exact (inv_partial0 u du d Hh (Hall d Hd) Hopen).
    + apply (inv_closed0 i u' du' v); [lia|done|done].
  - intros u' du' d _ Hd. by apply elem_of_nil in Hd.
  - intros i u' du' Hi Hq. destruct (decide (i = h)) as [->|Hih].
    + rewrite Hh in Hq. by injection Hq as <- <-.
    + apply (inv_goal0 i u' du'); [lia|done].
Qed.

(** With every entry processed, the queue holds all that can be reached. *)
Lemma exhausted_reach q vis par n v :
  Inv q vis par (length q) [] →
  walk deltas g start n v → ∃ d, (v, d) ∈ q.
Proof.
  intros HI Hw. induction Hw as [|n v w Hw [d Hd] He].
  - exists 0. eapply entry_lookup_elem. apply (inv_first _ _ _ _ _ _ _ _ _ HI).
  - apply list_elem_of_lookup in Hd as [i Hi].
    destruct (inv_closed _ _ _ _ _ _ _ _ _ HI i v d w) as (dw & Hdw & _);
      [by eapply lookup_lt_Some|done|done|].
    by exists dw.
Qed.

(** When the goal is dequeued, its distance is a lower bound for every walk
    from the start. *)
Lemma dequeued_minimal q vis par h dist n :
  Inv q vis par h [] →
  q !! h = Some (goal, dist) →
  walk deltas g start n goal → (Z.to_nat dist ≤ n)%nat.
Proof.
  intros HI Hh Hw.
  assert (∀ n v, walk deltas g start n v →
            (∃ i d, q !! i = Some (v, d) ∧ (Z.to_nat d ≤ n)%nat)
            ∨ (Z.to_nat dist ≤ n)%nat) as Haux.
  { clear n Hw. intros n v Hw. induction Hw as [|n v w Hw IH He].
    - left. exists 0%nat, 0. split; [apply (inv_first _ _ _ _ _ _ _ _ _ HI)|lia].
    - destruct IH as [(i & d & Hi & Hd)|Hle]; [|right; lia].
      destruct (decide (i < h)%nat) as [Hlt|Hge].
      + destruct (inv_closed _ _ _ _ _ _ _ _ _ HI i v d w Hlt Hi He)
          as (dw & Hdw & Hdwle).
        apply list_elem_of_lookup in Hdw as [j Hj].
        left. exists j, dw. split; [done|]. lia.
      + right.
        pose proof (inv_sorted _ _ _ _ _ _ _ _ _ HI h i (goal, dist) (v, d))
          as Hs. simpl in Hs. specialize (Hs ltac:(lia) Hh Hi). lia. }
  destruct (Haux n goal Hw) as [(i & d & Hi & Hd)|Hle]; [|done].
  destruct (inv_unique q vis par h [] i h goal d dist HI Hi Hh) as [_ ->].
  done.
Qed.

(** All entries but the first are distinct cells of the grid. *)
Lemma queue_bounded q vis par h tried :
  Inv q vis par h tried →
  (length q ≤ S (Z.to_nat (gridHeight g * gridWidth g)))%nat.
Proof.
  intros HI. pose proof (inv_first _ _ _ _ _ _ _ _ _ HI) as Hfirst.
  pose proof (inv_nodup _ _ _ _ _ _ _ _ _ HI) as Hnd.
  pose proof (inv_inb _ _ _ _ _ _ _ _ _ HI) as Hinb.
  destruct q as [|e0 q']; [done|]. cbn [length]. apply le_n_S.
  rewrite <- allCells_length, <- (length_fmap fst q').
  apply submseteq_length, NoDup_submseteq.
  - rewrite fmap_cons in Hnd. by apply NoDup_cons in Hnd as [_ Hnd].
  - intros v Hv. apply list_elem_of_fmap in Hv as [[v' d] [-> Hin]].
    apply list_elem_of_lookup in Hin as [i Hi].
    apply inGrid_allCells. exact (Hinb i v' d Hi).
Qed.

(** Following the parent entries from a queued cell leads back to the start
    along a route of as many moves as the cell's distance; there the loop
    ends if the start is inside the grid, and throws if it is not. *)
Lemma reconstruct_route q vis par h tried :
  Inv q vis par h tried →
  (0 ≤ start.1) →
  ∀ (m : nat) i v d acc fuel,
    q !! i = Some (v, d) → Z.to_nat d = m → (m < fuel)%nat →
    if inGrid g start.1 start.2 then
      ∃ cells, reconstruct fuel g par v acc = Returns (cells ++ acc)
               ∧ route deltas g start cells v ∧ length cells = S m
    else reconstruct fuel g par v acc = Throws.
Proof.
  intros HI Hrow.
  assert (∀ i v d, q !! i = Some (v, d) → v.1 ≠ -1) as Hnot.
  { intros [|i] v d Hi.
    - rewrite (inv_first _ _ _ _ _ _ _ _ _ HI) in Hi. injection Hi as <- <-. lia.
    - pose proof (inv_inb _ _ _ _ _ _ _ _ _ HI i v d Hi) as Hin.
      apply inGrid_spec in Hin. lia. }
  induction m as [|m IH]; intros i v d acc fuel Hi Hm Hfuel.
  - destruct fuel as [|fuel]; [lia|].
    pose proof (inv_parent _ _ _ _ _ _ _ _ _ HI i v d Hi) as Hp.
    cbn [reconstruct]. rewrite decide_False by (by eapply Hnot).
    unfold parentAt. destruct i as [|i].
    + rewrite (inv_first _ _ _ _ _ _ _ _ _ HI) in Hi. injection Hi as <- <-.
      destruct (inGrid g start.1 start.2); [|done].
      rewrite Hp. cbn [default from_option id].
      exists [start]. split; [|split; [constructor|done]].
      destruct fuel; cbn [reconstruct]; by rewrite decide_True.
    + destruct Hp as (u & _ & Hu & _).
      apply list_elem_of_lookup in Hu as [k Hk].
      destruct (inv_walk _ _ _ _ _ _ _ _ _ HI k u (d - 1) Hk) as [Hpos _].
      lia.
  - destruct fuel as [|fuel]; [lia|].
    pose proof (inv_parent _ _ _ _ _ _ _ _ _ HI i v d Hi) as Hp.
    cbn [reconstruct]. rewrite decide_False by (by eapply Hnot).
    unfold parentAt. destruct i as [|i].
    + rewrite (inv_first _ _ _ _ _ _ _ _ _ HI) in Hi. injection Hi as <- <-.
      simpl in Hm. lia.
    + rewrite (inv_inb _ _ _ _ _ _ _ _ _ HI i v d Hi).
      destruct Hp as (u & Hpu & Hu & He). rewrite Hpu.
      cbn [default from_option id].
      apply list_elem_of_lookup in Hu as [k Hk].
      specialize (IH k u (d - 1) (v :: acc) fuel Hk ltac:(lia) ltac:(lia)).
      destruct (inGrid g start.1 start.2); [|done].
      destruct IH as (cells & Hrec & Hr & Hlen).
      exists (cells ++ [v]). rewrite Hrec, <- app_assoc. split; [done|].
      split; [by econstructor|]. rewrite length_app, Hlen. simpl. lia.
Qed.

(** The loop never exhausts its bound, and what it returns is right. *)
Lemma bfsLoop_correct fuel (st : BfsState) :
  Inv (queue st) (visited st) (parent st) (head st) [] →
  (0 ≤ start.1) →
  (Z.to_nat (gridHeight g * gridWidth g) + 2 ≤ fuel + head st)%nat →
  bfsOutcome deltas g start goal (bfsLoop fuel deltas g goal st).
Proof.
  intros HI Hrow. revert st HI.
  induction fuel as [|fuel IH]; intros [q hd vis par];
    cbn [queue head visited parent]; intros HI Hfuel.
  - pose proof (queue_bounded _ _ _ _ _ HI).
    pose proof (inv_head _ _ _ _ _ _ _ _ _ HI). lia.
  - cbn [bfsLoop queue head visited parent].
    destruct (q !! hd) as [[u dist]|] eqn:Hh.
    + destruct (samePos u goal) eqn:Hsame.
      * apply samePos_true in Hsame. subst u.
        destruct (inv_walk _ _ _ _ _ _ _ _ _ HI hd goal dist Hh)
          as (Hpos & Hw & Hidx).
        pose proof (lookup_lt_Some _ _ _ Hh) as Hlt.
        pose proof (reconstruct_route _ _ _ _ _ HI Hrow (Z.to_nat dist) hd goal
                      dist [] (S (length q)) Hh eq_refl ltac:(lia)) as Hrec.
        destruct (inGrid g start.1 start.2) eqn:Hin.
        -- destruct Hrec as (cells & Hrec & Hr & Hlen).
           rewrite Hrec, app_nil_r. cbn [runBind bfsOutcome bfsPost].
           split; [done|]. split; [done|]. split; [done|].
           intros n Hn. by eapply dequeued_minimal.
        -- rewrite Hrec. cbn [runBind bfsOutcome]. done.
      * assert (u ≠ goal) as Hne.
        { intros ->. by rewrite (proj2 (samePos_true goal goal) eq_refl) in Hsame. }
        destruct (expand_inv deltas q vis par hd [] (S hd) u dist HI Hh)
          as [HI1 Hhd1]; [done|].
        pose proof (expand_keeps deltas (mkBfs q (S hd) vis par) u dist hd _ Hh)
          as Hh1.
        destruct (foldl (expandStep g u dist) (mkBfs q (S hd) vis par) deltas)
          as [q1 hd1 vis1 par1].
        cbn [queue head visited parent] in *. subst hd1.
        apply IH; cbn [queue head visited parent]; [|lia].
        eapply advance_inv; [exact HI1| |exact Hh1|exact Hne].
        intros d Hd. apply elem_of_app. left. by apply elem_of_reverse.
    + cbn [bfsOutcome bfsPost]. intros n Hn.
      assert (hd = length q) as ->.
      { apply lookup_ge_None in Hh. pose proof (inv_head _ _ _ _ _ _ _ _ _ HI).
        lia. }
      destruct (exhausted_reach _ _ _ _ _ HI Hn) as [d Hd].
      apply list_elem_of_lookup in Hd as [i Hi].
      apply (inv_goal _ _ _ _ _ _ _ _ _ HI i goal d); [|done|done].
      by eapply lookup_lt_Some.
Qed.

(** Every run of the search: an empty grid or a start row outside the grid
    throws at once; otherwise the loop runs to its end. *)
Lemma bfsWith_outcome :
  bfsOutcome deltas g start goal (bfsWith deltas g start goal).
Proof.
  destruct (decide (g = [])) as [Hg|Hg].
  { destruct (inGrid g start.1 start.2) eqn:Hin.
    - by apply inGrid_nonempty in Hin.
    - unfold bfsWith. rewrite Hg. cbn [bfsOutcome]. by rewrite <- Hg. }
  rewrite bfsWith_nonempty by done.
  destruct ((0 <=? start.1) && (start.1 <? gridHeight g)) eqn:Hrow.
  - apply andb_true_iff in Hrow as [Hrow _]. apply Z.leb_le in Hrow.
    apply bfsLoop_correct; cbn [queue head visited parent].
    + apply bfs_init.
    + done.
    + lia.
  - cbn [bfsOutcome].
    destruct (inGrid g start.1 start.2) eqn:Hin; [|done].
    apply inGrid_spec in Hin. apply andb_false_iff in Hrow.
    rewrite Z.leb_gt, Z.ltb_ge in Hrow. lia.
Qed.

(** The bounds on the loops are never what ends a search. *)
Lemma bfsWith_total : bfsWith deltas g start goal ≠ OutOfFuel.
Proof.
  pose proof bfsWith_outcome as H. intros Heq. by rewrite Heq in H.
Qed.

(** The search from a start inside the grid returns, with the distance and
    a route of a shortest walk, or with [null] when there is no walk. *)
Lemma bfsWith_correct :
  inGrid g start.1 start.2 = true →
  ∃ res, bfsWith deltas g start goal = Returns res
         ∧ bfsPost deltas g start goal res.
Proof.
  intros Hin. pose proof bfsWith_outcome as H.
  destruct (bfsWith deltas g start goal) as [| |res]; cbn [bfsOutcome] in H;
    [done|congruence|]. by exists res.
Qed.

End BfsProof.

Section SearchTheorems.

Implicit Types (g : Grid) (u v : pos).

Lemma edge_perm ds ds' g u v :
  ds ≡ₚ ds' → edge ds g u v → edge ds' g u v.
Proof.
  intros Hp (d & Hd & Hv & Ho). exists d. split; [|done].
  by rewrite <- Hp.
Qed.

Lemma walk_perm ds ds' g u n v :
  ds ≡ₚ ds' → walk ds g u n v → walk ds' g u n v.
Proof.
  intros Hp. induction 1 as [|n v w _ IH He]; [constructor|].
  econstructor; [exact IH|]. by eapply edge_perm.
Qed.

Lemma route_length_1 ds g u cells v :
  route ds g u cells v → length cells = 1%nat → cells = [u] ∧ v = u.
Proof.
  destruct 1 as [|cells v w Hr He]; [done|].
  rewrite length_app. simpl. intros Hlen.
  apply route_walk in Hr as (n & Hn & _). lia.
Qed.

Lemma route_length_2 ds g u cells v :
  route ds g u cells v → length cells = 2%nat → cells = [u; v].
Proof.
  destruct 1 as [|cells v w Hr He]; [done|].
  rewrite length_app. simpl. intros Hlen.
  apply route_length_1 in Hr as [-> _]; [done|lia].
Qed.

Lemma move_moves u d : d ∈ ACTION_DELTAS → move u d ≠ u.
Proof.
  intros Hd Heq. destruct u as [r c]. unfold move in Heq. simpl in Heq.
  injection Heq as Hr Hc.
  unfold ACTION_DELTAS in Hd.
  repeat (apply elem_of_cons in Hd as [->|Hd]; [simpl in *; lia|]).
  by apply elem_of_nil in Hd.
Qed.

(** The distance does not depend on the order in which the directions are
    tried. *)
Lemma bfsWith_order ds g (start goal : pos) :
  inGrid g start.1 start.2 = true →
  ds ≡ₚ ACTION_DELTAS →
  distanceOf (bfsWith ds g start goal)
  = distanceOf (bfsShortestPath g start goal).
Proof.
  intros Hin Hp. unfold bfsShortestPath.
  destruct (bfsWith_correct ds g start goal Hin) as (r1 & -> & H1).
  destruct (bfsWith_correct ACTION_DELTAS g start goal Hin) as (r2 & -> & H2).
  cbn [distanceOf runBind]. f_equal.
  destruct r1 as [[d1 c1]|], r2 as [[d2 c2]|]; cbn [bfsPost fmap option_fmap
    option_map fst] in *.
  - destruct H1 as (Hp1 & Hr1 & Hl1 & Hm1), H2 as (Hp2 & Hr2 & Hl2 & Hm2).
    apply route_walk in Hr1 as (n1 & Hn1 & Hw1).
    apply route_walk in Hr2 as (n2 & Hn2 & Hw2).
    pose proof (Hm1 n2 (walk_perm _ _ _ _ _ _ (symmetry Hp) Hw2)).
    pose proof (Hm2 n1 (walk_perm _ _ _ _ _ _ Hp Hw1)).
    f_equal. lia.
  - destruct H1 as (Hp1 & Hr1 & Hl1 & Hm1).
    apply route_walk in Hr1 as (n1 & Hn1 & Hw1).
    exfalso. apply (H2 n1). by eapply walk_perm.
  - destruct H2 as (Hp2 & Hr2 & Hl2 & Hm2).
    apply route_walk in Hr2 as (n2 & Hn2 & Hw2).
    exfalso. apply (H1 n2). eapply walk_perm; [symmetry; exact Hp|done].
  - done.
Qed.

End SearchTheorems.

Section RestrictedGraph.

Implicit Types (g : Grid) (u v w : pos).

Lemma adjacent_delta u v :
  adjacent u v ↔ ∃ d, d ∈ ACTION_DELTAS ∧ v = move u d.
Proof.
  unfold adjacent, move, ACTION_DELTAS. destruct u as [r c], v as [r' c'].
  cbn [fst snd]. split.
  - intros H.
    assert ((r' = r - 1 ∧ c' = c) ∨ (r' = r + 1 ∧ c' = c)
            ∨ (r' = r ∧ c' = c - 1) ∨ (r' = r ∧ c' = c + 1))
      as [[-> ->]|[[-> ->]|[[-> ->]|[-> ->]]]] by lia.
    + exists (-1, 0). split; [set_solver|]. cbn [fst snd]. f_equal; lia.
    + exists (1, 0). split; [set_solver|]. cbn [fst snd]. f_equal; lia.
    + exists (0, -1). split; [set_solver|]. cbn [fst snd]. f_equal; lia.
    + exists (0, 1). split; [set_solver|]. cbn [fst snd]. f_equal; lia.
  - intros (d & Hd & Hv).
    repeat (apply elem_of_cons in Hd as [->|Hd];
            [cbn [fst snd] in Hv; injection Hv as -> ->; lia|]).
    by apply elem_of_nil in Hd.
Qed.

Lemma edge_adjacent g u v :
  edge ACTION_DELTAS g u v ↔ adjacent u v ∧ openCell g v.1 v.2 = true.
Proof.
  unfold edge. rewrite adjacent_delta. split.
  - intros (d & Hd & Hv & Ho). split; [by exists d|done].
  - intros [(d & Hd & Hv) Ho]. by exists d.
Qed.

(** From a path cell, the moves of the search are the routes of the
    restricted graph. *)
Lemma route_pathRoute g u cells v :
  openCell g u.1 u.2 = true →
  route ACTION_DELTAS g u cells v ↔ pathRoute g u cells v.
Proof.
  intros Hu. split.
  - induction 1 as [|cells v w _ IH He]; [by constructor|].
    apply edge_adjacent in He as [Ha Ho]. by econstructor.
  - induction 1 as [|cells v w _ IH Ha Ho]; [constructor|].
    econstructor; [exact IH|]. by apply edge_adjacent.
Qed.

Lemma pathRoute_open g u cells v :
  pathRoute g u cells v → openCell g u.1 u.2 = true.
Proof. induction 1; done. Qed.

Lemma walk_route ds g u n v :
  walk ds g u n v → ∃ cells, route ds g u cells v ∧ length cells = S n.
Proof.
  induction 1 as [|n v w _ (cells & Hr & Hlen) He].
  - exists [u]. split; [constructor|done].
  - exists (cells ++ [w]). split; [by econstructor|].
    rewrite length_app, Hlen. simpl. lia.
Qed.

End RestrictedGraph.

(** C6.  From a start inside the grid, where a move enters a neighbouring
    path cell: if the goal can be reached, [bfsShortestPath] returns the
    least number of moves together with a route of that length; if it cannot,
    [null].  From a start on a path cell this reads in the 4-neighbour grid
    graph restricted to path cells: the distance is the least edge count of
    any route of that graph, the returned path is such a route, and [null]
    is returned when there is none.  The distance is the same for every order
    of the four directions, and on the ring fixture the distance from (1,1)
    to (3,3) is 4. *)
Theorem bfsShortestPath_shortest (g : Grid) (start goal : pos) :
  inGrid g start.1 start.2 = true →
  (∀ n, walk ACTION_DELTAS g start n goal →
     ∃ d cells,
       bfsShortestPath g start goal = Returns (Some (d, cells))
       ∧ 0 ≤ d ∧ (Z.to_nat d ≤ n)%nat
       ∧ walk ACTION_DELTAS g start (Z.to_nat d) goal
       ∧ (∀ m, walk ACTION_DELTAS g start m goal → (Z.to_nat d ≤ m)%nat)
       ∧ route ACTION_DELTAS g start cells goal
       ∧ length cells = S (Z.to_nat d))
  ∧ ((∀ n, ¬ walk ACTION_DELTAS g start n goal) →
     bfsShortestPath g start goal = Returns None)
  ∧ (openCell g start.1 start.2 = true →
     (∀ other, pathRoute g start other goal →
        ∃ d cells,
          bfsShortestPath g start goal = Returns (Some (d, cells))
          ∧ 0 ≤ d
          ∧ pathRoute g start cells goal
          ∧ length cells = S (Z.to_nat d)
          ∧ (length cells ≤ length other)%nat)
     ∧ ((∀ other, ¬ pathRoute g start other goal) →
        bfsShortestPath g start goal = Returns None))
  ∧ (∀ ds, ds ≡ₚ ACTION_DELTAS →
     distanceOf (bfsWith ds g start goal)
     = distanceOf (bfsShortestPath g start goal))
  ∧ distanceOf (bfsShortestPath MAZE_RING (1, 1) (3, 3)) = Returns (Some 4).
Proof.
  intros Hin. unfold bfsShortestPath at 1 2 3 4.
  destruct (bfsWith_correct ACTION_DELTAS g start goal Hin) as (res & Hres & Hpost).
  rewrite Hres.
  assert (∀ n, walk ACTION_DELTAS g start n goal →
     ∃ d cells,
       Returns res = Returns (Some (d, cells))
       ∧ 0 ≤ d ∧ (Z.to_nat d ≤ n)%nat
       ∧ walk ACTION_DELTAS g start (Z.to_nat d) goal
       ∧ (∀ m, walk ACTION_DELTAS g start m goal → (Z.to_nat d ≤ m)%nat)
       ∧ route ACTION_DELTAS g start cells goal
       ∧ length cells = S (Z.to_nat d)) as Hfound.
  { intros n Hn. destruct res as [[d cells]|]; [|by destruct (Hpost n)].
    destruct Hpost as (Hpos & Hr & Hlen & Hmin).
    exists d, cells. split; [done|]. split; [done|]. split; [by apply Hmin|].
    split; [|done].
    destruct (route_walk _ _ _ _ _ Hr) as (k & Hk & Hw).
    by replace (Z.to_nat d) with k by lia. }
  assert ((∀ n, ¬ walk ACTION_DELTAS g start n goal) →
          Returns res = Returns None) as Hnone.
  { intros Hno. destruct res as [[d cells]|]; [exfalso|done].
    destruct Hpost as (_ & Hr & _).
    apply route_walk in Hr as (k & _ & Hw). by apply (Hno k). }
  split; [exact Hfound|]. split; [exact Hnone|]. split; [|split].
  - intros Hopen. split.
    + intros other Hother. apply route_pathRoute in Hother; [|done].
      apply route_walk in Hother as (n & Hn & Hw).
      destruct (Hfound n Hw) as (d & cells & Hr & Hpos & Hle & _ & _ & Hrt & Hlen).
      exists d, cells. split; [done|]. split; [done|].
      split; [by apply route_pathRoute|]. split; [done|lia].
    + intros Hno. apply Hnone. intros n Hw.
      apply walk_route in Hw as (cells & Hr & _).
      apply (Hno cells). by apply route_pathRoute.
  - intros ds Hp. by apply bfsWith_order.
  - by vm_compute.
Qed.

(** A move, given by the cell moved from and the direction. *)
Ltac walk_from v d :=
  apply (walk_step _ _ _ _ v);
  [| exists d; split;
     [apply list_elem_of_In; simpl; tauto | split; reflexivity]].

Lemma ring_walk : walk ACTION_DELTAS MAZE_RING (1, 1) 4 (3, 3).
Proof.
  walk_from (3, 2) (0, 1). walk_from (3, 1) (0, 1).
  walk_from (2, 1) (1, 0). walk_from (1, 1) (1, 0). constructor.
Defined.

Lemma bfsShortestPath_shortest_witness :
  inGrid MAZE_RING 1 1 = true
  ∧ ∃ d cells,
      bfsShortestPath MAZE_RING (1, 1) (3, 3) = Returns (Some (d, cells))
      ∧ (∀ m, walk ACTION_DELTAS MAZE_RING (1, 1) m (3, 3) → (Z.to_nat d ≤ m)%nat)
      ∧ route ACTION_DELTAS MAZE_RING (1, 1) cells (3, 3).
Proof.
  split; [reflexivity|].
  destruct (bfsShortestPath_shortest MAZE_RING (1, 1) (3, 3) eq_refl)
    as [Hfound _].
  destruct (Hfound 4%nat ring_walk)
    as (d & cells & Hres & _ & _ & _ & Hmin & Hr & _).
  exists d, cells. split; [exact Hres|]. split; [exact Hmin|exact Hr].
Defined.

(** C9.  The goal test comes before any look at the dequeued cell, and the
    start cell's type is never looked at: from any position inside the grid,
    path cell or wall, the search for that same position returns distance 0
    with the one-cell path, and the search for a neighbouring path cell
    returns distance 1 with the two-cell path. *)
Theorem bfsShortestPath_start_unchecked (g : Grid) (p : pos) :
  inGrid g p.1 p.2 = true →
  bfsShortestPath g p p = Returns (Some (0, [p]))
  ∧ ∀ d, d ∈ ACTION_DELTAS →
         openCell g (move p d).1 (move p d).2 = true →
         bfsShortestPath g p (move p d) = Returns (Some (1, [p; move p d])).
Proof.
  intros Hin. split.
  - unfold bfsShortestPath.
    destruct (bfsWith_correct ACTION_DELTAS g p p Hin) as (res & -> & Hpost).
    destruct res as [[d cells]|]; cbn [bfsPost] in Hpost.
    + destruct Hpost as (Hpos & Hr & Hlen & Hmin).
      pose proof (Hmin 0%nat (walk_here _ _ _)) as Hd.
      assert (d = 0) as -> by lia.
      by apply route_length_1 in Hr as [-> _].
    + exfalso. apply (Hpost 0%nat). constructor.
  - intros d Hd Hopen. unfold bfsShortestPath.
    destruct (bfsWith_correct ACTION_DELTAS g p (move p d) Hin)
      as (res & -> & Hpost).
    assert (walk ACTION_DELTAS g p 1 (move p d)) as Hw.
    { apply (walk_step _ _ _ 0 p); [constructor|]. by exists d. }
    destruct res as [[n cells]|]; cbn [bfsPost] in Hpost.
    + destruct Hpost as (Hpos & Hr & Hlen & Hmin).
      pose proof (Hmin 1%nat Hw) as Hn.
      destruct (decide (n = 0)) as [->|Hn0].
      * apply route_length_1 in Hr as [_ Heq]; [|done].
        by apply move_moves in Heq.
      * assert (n = 1) as -> by lia.
        by apply route_length_2 in Hr as ->.
    + exfalso. by apply (Hpost 1%nat).
Qed.

(** A wall cell of the ring fixture, with the path cell below it. *)
Lemma bfsShortestPath_start_unchecked_witness :
  inGrid MAZE_RING 0 1 = true
  ∧ openCell MAZE_RING 0 1 = false
  ∧ bfsShortestPath MAZE_RING (0, 1) (0, 1) = Returns (Some (0, [(0, 1)]))
  ∧ bfsShortestPath MAZE_RING (0, 1) (1, 1)
    = Returns (Some (1, [(0, 1); (1, 1)])).
Proof.
  destruct (bfsShortestPath_start_unchecked MAZE_RING (0, 1) eq_refl)
    as [Hself Hnext].
  split; [reflexivity|]. split; [reflexivity|]. split; [exact Hself|].
  apply (Hnext (1, 0)); [|reflexivity].
  apply list_elem_of_In. simpl. tauto.
Defined.

(** ** Maze generation *)

Section MazeFacts.

Variable random : nat → Qc.

Lemma pokeLoop_connected attempts rows cols g (start goal : pos) k g' k' :
  pokeLoop random attempts rows cols g start goal k = Returns (g', true, k') →
  ∃ found, bfsShortestPath g' start goal = Returns (Some found).
Proof.
  revert g k. induction attempts as [|n IH]; intros g k; [done|].
  cbn [pokeLoop].
  destruct (setCell g _ _ 0) as [| |g1]; [done..|]. cbn [runBind].
  destruct (bfsShortestPath g1 start goal) as [| |[found|]] eqn:Hbfs; [done..| |].
  - cbn [runBind]. intros [= <- <-]. by exists found.
  - cbn [runBind]. apply IH.
Qed.

End MazeFacts.

(** C5.  Whenever [generateMaze] returns a grid, the search from the start
    to the goal (those given, or the defaults [[1, 1]] and
    [[rows - 2, cols - 2]]) on that grid finds a route. *)
Theorem generateMaze_connected (random : nat → Qc) (fuel rows cols : nat)
    (start goal : option pos) (k : nat) (maze : Grid) (k' : nat) :
  generateMaze random fuel rows cols start goal k = Returns (maze, k') →
  ∃ distance cells,
    bfsShortestPath maze (default (1, 1) start)
      (default (Z.of_nat rows - 2, Z.of_nat cols - 2) goal)
    = Returns (Some (distance, cells)).
Proof.
  revert start goal k. induction fuel as [|fuel IH]; intros start goal k; [done|].
  cbn [generateMaze].
  set (start1 := default (1, 1) start).
  set (goal1 := default (Z.of_nat rows - 2, Z.of_nat cols - 2) goal).
  destruct (scatterRows random rows cols 0 rows k) as [g0 k1].
  destruct (setCell g0 _ _ 0) as [| |g1]; [done..|]. cbn [runBind].
  destruct (setCell g1 _ _ 0) as [| |g2]; [done..|]. cbn [runBind].
  destruct (bfsShortestPath g2 start1 goal1) as [| |[[d cells]|]] eqn:Hbfs;
    [done..| |]; cbn [runBind].
  - intros [= <- <-]. by exists d, cells.
  - destruct (pokeLoop random 200 rows cols g2 start1 goal1 k1)
      as [| |[[g3 connected] k2]] eqn:Hpoke; [done..|]. cbn [runBind].
    destruct connected.
    + intros [= <- <-].
      destruct (pokeLoop_connected _ _ _ _ _ _ _ _ _ _ Hpoke) as [[d cells] Hf].
      by exists d, cells.
    + intros Hrec. apply IH in Hrec. exact Hrec.
Qed.

(** A run, with start and goal left to their defaults, in which the scatter
    leaves the two apart and the first poke joins them. *)
Lemma generateMaze_connected_witness :
  let random := draws [5 # 10; 1 # 10; 2 # 10; 5 # 10; 1 # 2; 0]%Q in
  let maze := [ [1; 1; 1; 1]; [1; 0; 1; 1]; [1; 0; 0; 1]; [1; 1; 1; 1] ] in
  generateMaze random 1 4 4 None None 0 = Returns (maze, 6%nat)
  ∧ ∃ distance cells,
      bfsShortestPath maze (1, 1) (2, 2) = Returns (Some (distance, cells)).
Proof.
  intros random maze.
  assert (generateMaze random 1 4 4 None None 0 = Returns (maze, 6%nat))
    as Hrun by (by vm_compute).
  split; [exact Hrun|].
  exact (generateMaze_connected random 1 4 4 None None 0 maze 6 Hrun).
Defined.

(** ** The definitions at work *)

Example uniform_probabilities :
  this <$> getProbs expQ (newPolicy 3 4) 1 1 = [1 # 4; 1 # 4; 1 # 4; 1 # 4]%Q.
Proof. by vm_compute. Qed.

Example score_of_right :
  this <$> scoreFunction expQ (newPolicy 3 4) 1 1 RIGHT
  = [-1 # 4; -1 # 4; -1 # 4; 3 # 4]%Q.
Proof. by vm_compute. Qed.

Example corridor_rollout :
  rollout expQ mixedDraws (newPolicy 3 4) corridorWorld (Some (1, 1)) 5 1
  = (mkTrajectory [(1, 1, RIGHT)] true [(1, 1); (1, 2)], 2%nat).
Proof. by vm_compute. Qed.

Example train_maze_distances :
  distanceOf (bfsShortestPath MAZE_TRAIN (1, 1) (9, 9)) = Returns (Some 16)
  ∧ distanceOf (bfsShortestPath MAZE_TRAIN (9, 1) (9, 9)) = Returns (Some 8)
  ∧ distanceOf (bfsShortestPath MAZE_TEST (1, 1) (9, 9)) = Returns (Some 16).
Proof. by vm_compute. Qed.

(** The cell (5,5) of the training maze is walled in. *)
Example train_maze_island :
  bfsShortestPath MAZE_TRAIN (5, 5) (9, 9) = Returns None.
Proof. by vm_compute. Qed.

(** A start row outside the grid throws; a start column outside it does not
    until the path is reconstructed. *)
Example outside_starts :
  bfsShortestPath MAZE_RING (5, 1) (3, 3) = Throws
  ∧ bfsShortestPath MAZE_RING (1, 5) (3, 3) = Returns None
  ∧ bfsShortestPath [[0; 0]] (0, 2) (0, 0) = Throws.
Proof. by vm_compute. Qed.

(** * Further properties of the engine *)

(** ** Order on [Qc] *)

Module NumOrd.

Open Scope Qc_scope.

Lemma le_0_1 : 0 <= 1.
Proof. by vm_compute. Qed.

Lemma lt_0_1 : 0 < 1.
Proof. by vm_compute. Qed.

Lemma plus_nonneg (x y : Qc) : 0 <= x → 0 <= y → 0 <= x + y.
Proof.
  intros Hx Hy. replace 0 with (0 + 0) by ring. by apply Qcplus_le_compat.
Qed.

Lemma le_plus_r (x y : Qc) : 0 <= y → x <= x + y.
Proof.
  intros Hy. replace x with (x + 0) at 1 by ring.
  apply Qcplus_le_compat; [apply Qcle_refl|done].
Qed.


Lemma mult_nonneg (x y : Qc) : 0 <= x → 0 <= y → 0 <= x * y.
Proof.
  intros Hx Hy. replace 0 with (0 * y) by ring. by apply Qcmult_le_compat_r.
Qed.

Lemma inv_pos (x : Qc) : 0 < x → 0 < / x.
Proof.
  intros Hx. apply Qcnot_le_lt. intros Hle.
  assert (/ x * x <= 0 * x) as H
    by (apply Qcmult_le_compat_r; [done|by apply Qclt_le_weak]).
  rewrite Qcmult_inv_l in H by (apply not_eq_sym; by apply Qclt_not_eq).
  replace (0 * x) with 0 in H by ring.
  by apply (Qcle_not_lt _ _ H), lt_0_1.
Qed.

Lemma div_nonneg (x y : Qc) : 0 <= x → 0 < y → 0 <= x / y.
Proof.
  intros Hx Hy. unfold Qcdiv. apply mult_nonneg; [done|].
  by apply Qclt_le_weak, inv_pos.
Qed.

Lemma div_le_1 (x y : Qc) : x <= y → 0 < y → x / y <= 1.
Proof.
  intros Hxy Hy. unfold Qcdiv.
  replace 1 with (y * / y)
    by (apply Qcmult_inv_r, not_eq_sym; by apply Qclt_not_eq).
  apply Qcmult_le_compat_r; [done|]. by apply Qclt_le_weak, inv_pos.
Qed.

End NumOrd.

(** ** The policy's slots and probabilities *)

Section PolicyFacts.

Variable exp : Qc → Qc.

Implicit Types (p : TabularSoftmaxPolicy) (l es : list Qc).

Lemma readZ_nat l (b a : nat) : readZ l (Z.of_nat b + Z.of_nat a) = l !! (b + a)%nat.
Proof.
  unfold readZ. rewrite decide_True by lia. f_equal. lia.
Qed.

Lemma maxStepZ_fold_nat l (b : nat) acts init :
  foldl (maxStepZ l (Z.of_nat b)) init acts = foldl (maxStep l b) init acts.
Proof.
  revert init. induction acts as [|a acts IH]; intros init; [done|].
  cbn [foldl]. rewrite IH. f_equal. unfold maxStepZ, maxStep.
  by rewrite readZ_nat.
Qed.

Open Scope Qc_scope.










End PolicyFacts.



(** The scan stops at one of the indices it is given. *)
Lemma cumulativePick_bound (probs : list Qc) (r : Qc) (n a i : nat) (c : Qc) :
  cumulativePick probs r n a c = Some i → (a ≤ i < a + n)%nat.
Proof.
  revert a c. induction n as [|n IH]; intros a c; cbn [cumulativePick]; [done|].
  destruct (decide (r < c + nth a probs 0)%Qc).
  - intros [= <-]. lia.
  - intros H. apply IH in H. lia.
Qed.

Lemma sumQc_snoc (l : list Qc) (x : Qc) : sumQc (l ++ [x]) = (sumQc l + x)%Qc.
Proof. unfold sumQc. by rewrite foldl_snoc. Qed.

Lemma sumQc_take_S (probs : list Qc) (a : nat) :
  (a < length probs)%nat →
  sumQc (take (S a) probs) = (sumQc (take a probs) + nth a probs 0)%Qc.
Proof.
  intros Ha. destruct (lookup_lt_is_Some_2 probs a Ha) as [x Hx].
  rewrite (take_S_r _ _ x Hx), sumQc_snoc. f_equal. symmetry.
  by apply nth_lookup_Some.
Qed.

(** The scan returns the first index at which the cumulative sum exceeds
    [r]: the sum before it does not, the sum up to it does. *)
Lemma cumulativePick_spec (probs : list Qc) (r : Qc) (n a : nat) (c : Qc) :
  c = sumQc (take a probs) → (c <= r)%Qc → (a + n ≤ length probs)%nat →
  match cumulativePick probs r n a c with
  | Some i =>
      (a ≤ i < a + n)%nat
      ∧ (sumQc (take i probs) <= r)%Qc ∧ (r < sumQc (take (S i) probs))%Qc
  | None => (sumQc (take (a + n) probs) <= r)%Qc
  end.
Proof.
  revert a c. induction n as [|n IH]; intros a c Hc Hle Hlen;
    cbn [cumulativePick].
  { rewrite Nat.add_0_r. by rewrite <- Hc. }
  assert ((c + nth a probs 0)%Qc = sumQc (take (S a) probs)) as Hnext
    by (rewrite sumQc_take_S by lia; by rewrite Hc).
  destruct (decide (r < c + nth a probs 0)%Qc) as [Hlt|Hge].
  - split; [lia|]. split; [by rewrite <- Hc|by rewrite <- Hnext].
  - specialize (IH (S a) _ Hnext (Qcnot_lt_le _ _ Hge) ltac:(lia)).
    replace (a + S n)%nat with (S a + n)%nat by lia.
    destruct (cumulativePick probs r n (S a) (c + nth a probs 0)%Qc) as [i|];
      [|done].
    destruct IH as (Hi & H1 & H2). split; [lia|done].
Qed.

(** [_idx] numbers the state-action pairs of the table without collisions:
    a pair inside the table gets a slot of the array, the slot of its
    state's block in [getProbs], and different pairs get different slots. *)
Lemma idx_injective (p : TabularSoftmaxPolicy) (r c a r' c' a' : nat) :
  (r < height p)%nat → (c < width p)%nat → (a < nActions)%nat →
  (r' < height p)%nat → (c' < width p)%nat → (a' < nActions)%nat →
  0 ≤ _idx p (Z.of_nat r) (Z.of_nat c) a
    < Z.of_nat (height p * width p * nActions)
  ∧ _idx p (Z.of_nat r) (Z.of_nat c) a
    = stateBase p (Z.of_nat r) (Z.of_nat c) + Z.of_nat a
  ∧ (_idx p (Z.of_nat r) (Z.of_nat c) a = _idx p (Z.of_nat r') (Z.of_nat c') a'
     → r = r' ∧ c = c' ∧ a = a').
Proof.
  unfold _idx, stateBase, nActions. intros Hr Hc Ha Hr' Hc' Ha'.
  split; [nia|]. split; [done|]. intros Heq.
  assert (r * width p + c = r' * width p + c')%nat as Hs by lia.
  assert (r = r') as ->.
  { destruct (decide (r < r')%nat); [nia|].
    destruct (decide (r' < r)%nat); [nia|lia]. }
  split; [done|]. split; lia.
Qed.

(** X3.  [sampleAction] always returns one of the four actions and reads one
    random number, whatever the logits and the random number are. *)
Theorem sampleAction_in_range (exp : Qc → Qc) (random : nat → Qc)
    (p : TabularSoftmaxPolicy) (row col : Z) (k : nat) :
  ((sampleAction exp random p row col k).1 < 4)%nat
  ∧ (sampleAction exp random p row col k).2 = S k
  ∧ ACTION_DELTAS !! (sampleAction exp random p row col k).1
    = Some (delta (sampleAction exp random p row col k).1).
Proof.
  unfold sampleAction. cbn [fst snd].
  set (pick := cumulativePick _ _ _ _ _).
  assert (default (nActions - 1)%nat pick < 4)%nat as Hlt.
  { destruct pick as [a|] eqn:Hp; cbn [default from_option id].
    - apply cumulativePick_bound in Hp. unfold nActions in Hp. lia.
    - unfold nActions. lia. }
  split; [exact Hlt|]. split; [done|].
  unfold delta. revert Hlt. generalize (default (nActions - 1)%nat pick).
  intros a Ha. do 4 (destruct a as [|a]; [done|]). lia.
Qed.


(** X5.  [_chooseWeighted] reads one random number and returns an index of
    [probs], except that it returns -1 for an empty [probs]; for a random
    number that is not negative and below the sum of [probs] the index is
    the first at which the cumulative sum exceeds the number. *)
Theorem chooseWeighted_index (random : nat → Qc) (probs : list Qc) (k : nat) :
  (chooseWeighted random probs k).2 = S k
  ∧ (probs = [] → (chooseWeighted random probs k).1 = -1)
  ∧ (probs ≠ [] →
     0 ≤ (chooseWeighted random probs k).1 < Z.of_nat (length probs))
  ∧ ((0 <= random k)%Qc → (random k < sumQc probs)%Qc →
     ∃ i, (chooseWeighted random probs k).1 = Z.of_nat i
          ∧ (sumQc (take i probs) <= random k)%Qc
          ∧ (random k < sumQc (take (S i) probs))%Qc).
Proof.
  unfold chooseWeighted. cbn [fst snd]. split; [done|]. split; [|split].
  - intros ->. done.
  - intros Hne. assert (0 < length probs)%nat as Hlen
      by (destruct probs; [done|simpl; lia]).
    destruct (cumulativePick _ _ _ _ _) as [i|] eqn:Hp; [|lia].
    apply cumulativePick_bound in Hp. lia.
  - intros Hr0 Hr1.
    pose proof (cumulativePick_spec probs (random k) (length probs) 0 0%Qc
                  eq_refl Hr0 ltac:(lia)) as Hspec.
    destruct (cumulativePick probs (random k) (length probs) 0 0%Qc) as [i|].
    + destruct Hspec as (_ & H1 & H2). by exists i.
    + exfalso. cbn [Nat.add] in Hspec. rewrite firstn_all in Hspec.
      by apply (Qclt_not_le _ _ Hr1).
Qed.

Lemma chooseWeighted_index_witness :
  let probs := [Q2Qc (1 # 2); Q2Qc (1 # 2)] in
  (chooseWeighted mixedDraws probs 1).1 = 1
  ∧ (chooseWeighted mixedDraws [] 1).1 = -1
  ∧ (chooseWeighted mixedDraws probs 1).2 = 2%nat
  ∧ (probs = [] → (chooseWeighted mixedDraws probs 1).1 = -1)
  ∧ (probs ≠ [] →
     0 ≤ (chooseWeighted mixedDraws probs 1).1 < Z.of_nat (length probs))
  ∧ ((0 <= mixedDraws 1)%Qc → (mixedDraws 1 < sumQc probs)%Qc →
     ∃ i, (chooseWeighted mixedDraws probs 1).1 = Z.of_nat i
          ∧ (sumQc (take i probs) <= mixedDraws 1)%Qc
          ∧ (mixedDraws 1 < sumQc (take (S i) probs))%Qc).
Proof.
  split; [by vm_compute|]. split; [by vm_compute|].
  exact (chooseWeighted_index mixedDraws [Q2Qc (1 # 2); Q2Qc (1 # 2)] 1).
Defined.

(** ** The stand-ins for [Math.exp] *)

Section ExpFacts.

Open Scope Qc_scope.





End ExpFacts.




(** ** Steps and trajectories *)

Section TrajectoryFacts.

Variable exp : Qc → Qc.
Variable random : nat → Qc.

Implicit Types (p : TabularSoftmaxPolicy) (e : GridWorld) (u v : pos).

Lemma sampleAction_lt p (row col : Z) k :
  ((sampleAction exp random p row col k).1 < 4)%nat.
Proof.
  unfold sampleAction. cbn [fst].
  destruct (cumulativePick _ _ _ _ _) as [a|] eqn:Hp;
    cbn [default from_option id]; unfold nActions in *; [|lia].
  apply cumulativePick_bound in Hp. lia.
Qed.

Lemma sampleAction_counter p (row col : Z) k :
  (sampleAction exp random p row col k).2 = S k.
Proof. done. Qed.

Lemma delta_in_deltas (a : nat) : (a < 4)%nat → delta a ∈ ACTION_DELTAS.
Proof.
  intros Ha. unfold delta, ACTION_DELTAS.
  do 4 (destruct a as [|a]; [set_solver|]). lia.
Qed.

(** The position after a step: the old one, or the neighbouring path cell
    in the direction of the action. *)
Lemma step_cases e u (a : nat) :
  (a < 4)%nat →
  let target := move u (delta a) in
  if isPath e target.1 target.2
  then (step e u a).1 = target ∧ adjacent u target
  else (step e u a).1 = u.
Proof.
  intros Ha target. subst target. unfold step, move. destruct u as [row col].
  pose proof (delta_in_deltas a Ha) as Hd.
  destruct (delta a) as [dr dc] eqn:Hdelta. cbn [fst snd].
  destruct (isPath e (row + dr) (col + dc)) eqn:Hp; cbn [fst]; [|done].
  split; [done|]. apply adjacent_delta. exists (dr, dc). by split.
Qed.

Lemma samePos_false u v : samePos u v = false ↔ u ≠ v.
Proof.
  destruct (samePos u v) eqn:H.
  - apply samePos_true in H. split; [done|]. intros Hne. by destruct Hne.
  - split; [|done]. intros _ Heq. apply samePos_true in Heq. congruence.
Qed.

(** One iteration of the loop keeps the invariant of the two arrays. *)
Lemma rolloutInv_push e sa cells u (a : nat) :
  rolloutInv e sa cells → last cells = Some u → u ≠ goal e → (a < 4)%nat →
  rolloutInv e (sa ++ [(u.1, u.2, a)]) (cells ++ [(step e u a).1]).
Proof.
  intros [Hlen Hinv] Hlast Hne Ha. split.
  { rewrite !length_app, Hlen. simpl. lia. }
  intros i r c a' Hi. apply lookup_snoc_Some in Hi as [[Hlt Hi]|[-> Hi]].
  - destruct (Hinv i r c a' Hi) as (H1 & H2 & H3 & H4).
    apply lookup_lt_Some in H1 as Hl1. apply lookup_lt_Some in H4 as Hl4.
    by rewrite !lookup_app_l by lia.
  - injection Hi as <- <- <-. rewrite last_lookup, Hlen in Hlast.
    cbn [pred] in Hlast. destruct u as [r c]. cbn [fst snd].
    split; [by rewrite lookup_app_l by lia|]. split; [done|]. split; [done|].
    rewrite lookup_app_r by lia. rewrite Hlen, Nat.sub_diag. done.
Qed.

(** The loop of [rollout]: what it returns, from arrays that satisfy the
    invariant. *)
Lemma rolloutLoop_inv p e n u sa cells k :
  rolloutInv e sa cells → last cells = Some u →
  let res := rolloutLoop exp random p e n u sa cells k in
  rolloutInv e (stateActions res.1) (path res.1)
  ∧ (reachedGoal res.1 = true ↔ last (path res.1) = Some (goal e))
  ∧ (length (stateActions res.1) ≤ length sa + n)%nat
  ∧ (reachedGoal res.1 = false →
     length (stateActions res.1) = (length sa + n)%nat)
  ∧ (res.2 + length sa = k + length (stateActions res.1))%nat
  ∧ path res.1 !! 0%nat = cells !! 0%nat.
Proof.
  revert u sa cells k. induction n as [|n IH]; intros u sa cells k Hinv Hlast;
    cbn [rolloutLoop].
  - cbn [fst snd stateActions path reachedGoal]. split; [done|]. split.
    { rewrite Hlast, samePos_true. split; [by intros ->|by intros [= ->]]. }
    split; [lia|]. split; [lia|]. split; [lia|done].
  - destruct (samePos u (goal e)) eqn:Hsame.
    + cbn [fst snd stateActions path reachedGoal]. split; [done|].
      apply samePos_true in Hsame. split; [by rewrite Hlast, Hsame|].
      split; [lia|]. split; [done|]. split; [lia|done].
    + apply samePos_false in Hsame.
      pose proof (sampleAction_lt p u.1 u.2 k) as Ha.
      pose proof (sampleAction_counter p u.1 u.2 k) as Hk.
      destruct (sampleAction exp random p u.1 u.2 k) as [a k1].
      cbn [fst snd] in Ha, Hk. subst k1.
      pose proof (rolloutInv_push e sa cells u a Hinv Hlast Hsame Ha) as Hinv1.
      specialize (IH (step e u a).1 _ _ (S k) Hinv1 (last_snoc _ _)).
      cbv zeta in IH. destruct IH as (H1 & H2 & H3 & H4 & H5 & H6).
      rewrite length_app in H3, H4, H5. cbn [length] in H3, H4, H5.
      split; [done|]. split; [done|]. split; [lia|]. split;
        [intros Hf; specialize (H4 Hf); lia|]. split; [lia|].
      rewrite H6. destruct Hinv as [Hlen _].
      apply lookup_app_l. lia.
Qed.

(** [rollout] starts the loop with arrays that satisfy the invariant. *)
Lemma rollout_inv p e (st : option pos) maxSteps k :
  let res := rollout exp random p e st maxSteps k in
  rolloutInv e (stateActions res.1) (path res.1)
  ∧ (reachedGoal res.1 = true ↔ last (path res.1) = Some (goal e))
  ∧ (length (stateActions res.1) ≤ maxSteps)%nat
  ∧ (reachedGoal res.1 = false → length (stateActions res.1) = maxSteps)
  ∧ res.2 = (k + length (stateActions res.1))%nat
  ∧ path res.1 !! 0%nat = Some (default (start e) st).
Proof.
  unfold rollout. cbv zeta. set (s := default (start e) st).
  assert (rolloutInv e [] [s]) as Hinit.
  { split; [done|]. intros i r c a Hi. by rewrite lookup_nil in Hi. }
  destruct (rolloutLoop_inv p e maxSteps s [] [s] k Hinit eq_refl)
    as (H1 & H2 & H3 & H4 & H5 & H6).
  cbn [length] in H3, H4, H5.
  split; [done|]. split; [done|]. split; [lia|]. split; [done|].
  split; [lia|done].
Qed.

End TrajectoryFacts.



(** X7.  A trajectory of [rollout] is the replay of its state-action pairs:
    the path begins at the start given (at [env.start] for a null start),
    pair [i] holds the position [path[i]] and one of the four actions, and
    [path[i + 1]] is where [step] leads from there. *)
Theorem rollout_replays_steps (exp : Qc → Qc) (random : nat → Qc)
    (p : TabularSoftmaxPolicy) (e : GridWorld) (st : option pos)
    (maxSteps k : nat) :
  let t := (rollout exp random p e st maxSteps k).1 in
  path t !! 0%nat = Some (default (start e) st)
  ∧ length (path t) = S (length (stateActions t))
  ∧ ∀ i r c a,
      stateActions t !! i = Some (r, c, a) →
      path t !! i = Some (r, c)
      ∧ (a < 4)%nat
      ∧ path t !! S i = Some (step e (r, c) a).1.
Proof.
  intros t. subst t.
  destruct (rollout_inv exp random p e st maxSteps k)
    as ([Hlen Hinv] & _ & _ & _ & _ & Hfirst).
  split; [exact Hfirst|]. split; [exact Hlen|].
  intros i r c a Hi. destruct (Hinv i r c a Hi) as (H1 & H2 & _ & H4).
  split; [exact H1|]. split; [exact H2|exact H4].
Qed.

(** X8.  The path of a trajectory is a walk on the grid: each position is the
    one before it or a neighbouring path cell, and from a start on a path
    cell every position of the path is a path cell. *)
Theorem rollout_path_legal (exp : Qc → Qc) (random : nat → Qc)
    (p : TabularSoftmaxPolicy) (e : GridWorld) (st : option pos)
    (maxSteps k : nat) :
  let t := (rollout exp random p e st maxSteps k).1 in
  let s := default (start e) st in
  (∀ i u v, path t !! i = Some u → path t !! S i = Some v →
     v = u ∨ (adjacent u v ∧ isPath e v.1 v.2 = true))
  ∧ (isPath e s.1 s.2 = true → ∀ u, u ∈ path t → isPath e u.1 u.2 = true).
Proof.
  intros t s. subst t s.
  destruct (rollout_inv exp random p e st maxSteps k)
    as ([Hlen Hinv] & _ & _ & _ & _ & Hfirst).
  set (t := (rollout exp random p e st maxSteps k).1) in *.
  assert (∀ i u v, path t !! i = Some u → path t !! S i = Some v →
            v = u ∨ (adjacent u v ∧ isPath e v.1 v.2 = true)) as Hpair.
  { intros i u v Hu Hv.
    destruct (lookup_lt_is_Some_2 (stateActions t) i) as [[[r c] a] Hsa].
    { apply lookup_lt_Some in Hv. lia. }
    destruct (Hinv i r c a Hsa) as (H1 & Ha & _ & H4).
    assert (u = (r, c)) as -> by congruence.
    assert (v = (step e (r, c) a).1) as -> by congruence.
    pose proof (step_cases e (r, c) a Ha) as Hc. cbv zeta in Hc.
    destruct (isPath e (move (r, c) (delta a)).1 (move (r, c) (delta a)).2)
      eqn:Hp.
    - destruct Hc as [-> Hadj]. right. by split.
    - by left. }
  split; [exact Hpair|]. intros Hs u Hu.
  apply list_elem_of_lookup in Hu as [i Hi]. revert u Hi.
  induction i as [|i IH]; intros u Hi.
  - rewrite Hfirst in Hi. by injection Hi as <-.
  - destruct (lookup_lt_is_Some_2 (path t) i) as [w Hw].
    { apply lookup_lt_Some in Hi. lia. }
    destruct (Hpair i w u Hw Hi) as [->|[_ Hp]]; [by apply IH|done].
Qed.

Lemma rollout_path_legal_witness :
  let t := (rollout expQ mixedDraws (newPolicy 3 4) corridorWorld
              (Some (1, 1)) 3 2).1 in
  path t = [(1, 1); (1, 1); (1, 1); (1, 1)]
  ∧ (∀ i u v, path t !! i = Some u → path t !! S i = Some v →
       v = u ∨ (adjacent u v ∧ isPath corridorWorld v.1 v.2 = true))
  ∧ (isPath corridorWorld 1 1 = true →
     ∀ u, u ∈ path t → isPath corridorWorld u.1 u.2 = true).
Proof.
  split; [by vm_compute|].
  exact (rollout_path_legal expQ mixedDraws (newPolicy 3 4) corridorWorld
           (Some (1, 1)) 3 2).
Defined.

(** X9.  [rollout] stops at the goal or when the step budget is spent: it
    reports success exactly when the last position of the path is the goal,
    the goal occurs nowhere before the end of the path, a trajectory has at
    most [maxSteps] state-action pairs and exactly [maxSteps] when it
    fails, and one random number is read for each pair. *)
Theorem rollout_stops_at_goal (exp : Qc → Qc) (random : nat → Qc)
    (p : TabularSoftmaxPolicy) (e : GridWorld) (st : option pos)
    (maxSteps k : nat) :
  let res := rollout exp random p e st maxSteps k in
  (reachedGoal res.1 = true ↔ last (path res.1) = Some (goal e))
  ∧ (∀ i, path res.1 !! i = Some (goal e) → S i = length (path res.1))
  ∧ (length (stateActions res.1) ≤ maxSteps)%nat
  ∧ (reachedGoal res.1 = false → length (stateActions res.1) = maxSteps)
  ∧ res.2 = (k + length (stateActions res.1))%nat.
Proof.
  intros res. subst res.
  destruct (rollout_inv exp random p e st maxSteps k)
    as ([Hlen Hinv] & Hgoal & Hmax & Hfail & Hk & _).
  split; [exact Hgoal|]. split; [|by split].
  intros i Hi. apply lookup_lt_Some in Hi as Hlt.
  destruct (decide (i < length (stateActions
              (rollout exp random p e st maxSteps k).1))%nat) as [Hin|]; [|lia].
  destruct (lookup_lt_is_Some_2 _ i Hin) as [[[r c] a] Hsa].
  destruct (Hinv i r c a Hsa) as (H1 & _ & Hne & _). congruence.
Qed.

Lemma rollout_stops_at_goal_witness :
  let res := rollout expQ mixedDraws (newPolicy 3 4) corridorWorld
               (Some (1, 1)) 3 1 in
  path res.1 = [(1, 1); (1, 2)]
  ∧ (reachedGoal res.1 = true ↔ last (path res.1) = Some (goal corridorWorld))
  ∧ (∀ i, path res.1 !! i = Some (goal corridorWorld) →
       S i = length (path res.1))
  ∧ (length (stateActions res.1) ≤ 3)%nat
  ∧ (reachedGoal res.1 = false → length (stateActions res.1) = 3%nat)
  ∧ res.2 = (1 + length (stateActions res.1))%nat.
Proof.
  split; [by vm_compute|].
  exact (rollout_stops_at_goal expQ mixedDraws (newPolicy 3 4) corridorWorld
           (Some (1, 1)) 3 1).
Defined.

(** ** The two updates side by side *)

Section UpdateFacts.

Variable exp : Qc → Qc.
Variable random : nat → Qc.

Implicit Types (p : TabularSoftmaxPolicy) (e : GridWorld).

Open Scope Qc_scope.

Lemma QcOfNat_le (a b : nat) : (a ≤ b)%nat → QcOfNat a <= QcOfNat b.
Proof.
  intros H. unfold QcOfNat. apply (proj1 (Z2Qc_inj_le _ _)). lia.
Qed.

Lemma QcOfNat_nonneg (a : nat) : 0 <= QcOfNat a.
Proof. rewrite <- QcOfNat_0. apply QcOfNat_le. lia. Qed.

Lemma weightedScoreSum_scaled p (c : Qc) (w : Trajectory → Qc) ts j :
  weightedScoreSum exp p (λ t, c * w t) ts j
  = c * weightedScoreSum exp p w ts j.
Proof.
  unfold weightedScoreSum. induction ts as [|t ts IH]; cbn [map].
  - rewrite sumQc_nil. ring.
  - rewrite !sumQc_cons, IH.
    assert (sumQc (map (λ sa, c * w t * scoreAt exp p j sa) (stateActions t))
            = c * sumQc (map (λ sa, w t * scoreAt exp p j sa) (stateActions t)))
      as ->; [|ring].
    induction (stateActions t) as [|sa l IHl]; cbn [map].
    + rewrite sumQc_nil. ring.
    + rewrite !sumQc_cons, IHl. ring.
Qed.

Lemma weightedScoreSum_ext p (w w' : Trajectory → Qc) ts j :
  (∀ t, t ∈ ts → w t = w' t) →
  weightedScoreSum exp p w ts j = weightedScoreSum exp p w' ts j.
Proof.
  intros H. unfold weightedScoreSum. f_equal. apply map_ext_in. intros t Ht.
  rewrite H; [done|]. by apply list_elem_of_In.
Qed.



Lemma steppedPolicy_shape p (lr : Qc) (f : nat → Qc) :
  height (steppedPolicy p lr f) = height p
  ∧ width (steppedPolicy p lr f) = width p
  ∧ length (logits (steppedPolicy p lr f)) = length (logits p).
Proof.
  unfold steppedPolicy. split; [done|]. split; [done|].
  rewrite clipLogits_length. cbn [logits]. apply length_imap.
Qed.

End UpdateFacts.



Section BatchShape.

Variable exp : Qc → Qc.
Variable random : nat → Qc.

Implicit Types (p : TabularSoftmaxPolicy) (e : GridWorld).


Lemma evalLoop_bounds p e st n maxSteps succ k :
  let res := evalLoop exp random p e st n maxSteps succ k in
  (succ ≤ res.1 ≤ succ + n)%nat ∧ (k ≤ res.2 ≤ k + n * maxSteps)%nat.
Proof.
  revert succ k. induction n as [|n IH]; intros succ k; cbn [evalLoop].
  - cbn [fst snd]. lia.
  - destruct (rollout_inv exp random p e st maxSteps k)
      as (_ & _ & Hmax & _ & Hk & _).
    destruct (rollout exp random p e st maxSteps k) as [traj k1].
    cbn [fst snd] in Hmax, Hk.
    specialize (IH (if reachedGoal traj then S succ else succ) k1).
    cbv zeta in IH. destruct (reachedGoal traj); nia.
Qed.

(** Every trajectory of a batch begins at the start chosen for it. *)
Lemma sampleBatch_first p e starts startProbs N maxSteps k t :
  t ∈ (sampleBatch exp random p e starts startProbs N maxSteps k).1 →
  ∃ j, path t !! 0%nat
       = Some (default (start e)
                 (startAt starts (chooseWeighted random startProbs j).1)).
Proof.
  revert k. induction N as [|N IH]; intros k; cbn [sampleBatch].
  { cbn [fst]. intros H. by apply elem_of_nil in H. }
  destruct (chooseWeighted random startProbs k) as [idx k1] eqn:Hc.
  pose proof (rollout_inv exp random p e (startAt starts idx) maxSteps k1)
    as (_ & _ & _ & _ & _ & Hfirst).
  destruct (rollout exp random p e (startAt starts idx) maxSteps k1)
    as [traj k2].
  specialize (IH k2).
  destruct (sampleBatch exp random p e starts startProbs N maxSteps k2)
    as [rest k3].
  cbn [fst snd] in *. intros Ht. apply elem_of_cons in Ht as [->|Ht].
  - exists k. by rewrite Hc.
  - by apply IH.
Qed.

End BatchShape.

(** X11.  The trajectories of a batch begin where [_chooseWeighted] sends
    them: at one of [starts] when [startProbs] is not empty and no longer
    than [starts], and at [env.start] when [startProbs] is empty (the index
    -1 reads [undefined]). *)
Theorem sampleBatch_starts (exp : Qc → Qc) (random : nat → Qc)
    (p : TabularSoftmaxPolicy) (e : GridWorld) (starts : list pos)
    (startProbs : list Qc) (N maxSteps k : nat) :
  let batch := (sampleBatch exp random p e starts startProbs N maxSteps k).1 in
  length batch = N
  ∧ (startProbs ≠ [] → (length startProbs ≤ length starts)%nat →
     Forall (λ t, ∃ s, s ∈ starts ∧ path t !! 0%nat = Some s) batch)
  ∧ (startProbs = [] →
     Forall (λ t, path t !! 0%nat = Some (start e)) batch).
Proof.
  intros batch. subst batch. split; [apply sampleBatch_length|]. split.
  - intros Hne Hlen. apply Forall_forall. intros t Ht.
    apply sampleBatch_first in Ht as [j Hj]. rewrite Hj.
    unfold chooseWeighted. cbn [fst].
    assert (0 < length startProbs)%nat as Hpos
      by (destruct startProbs; [done|simpl; lia]).
    assert (∀ i, (i < length startProbs)%nat →
              ∃ s, s ∈ starts
                   ∧ Some (default (start e) (startAt starts (Z.of_nat i)))
                     = Some s) as Hidx.
    { intros i Hi. unfold startAt. rewrite decide_True by lia.
      rewrite Nat2Z.id.
      destruct (lookup_lt_is_Some_2 starts i) as [s Hs]; [lia|].
      exists s. rewrite Hs. split; [by eapply list_elem_of_lookup_2|done]. }
    destruct (cumulativePick _ _ _ _ _) as [i|] eqn:Hp.
    + apply cumulativePick_bound in Hp. apply Hidx. lia.
    + replace (Z.of_nat (length startProbs) - 1)
        with (Z.of_nat (length startProbs - 1)) by lia.
      apply Hidx. lia.
  - intros ->. apply Forall_forall. intros t Ht.
    apply sampleBatch_first in Ht as [j Hj]. by rewrite Hj.
Qed.

Lemma sampleBatch_starts_witness :
  let batch := (sampleBatch expQ mixedDraws (newPolicy 3 4) corridorWorld
                  [(1, 1)] [1%Qc] 2 3 0).1 in
  length batch = 2%nat
  ∧ ([1%Qc] ≠ [] → (length [1%Qc] ≤ length [((1, 1)%Z : pos)])%nat →
     Forall (λ t, ∃ s, s ∈ [((1, 1) : pos)] ∧ path t !! 0%nat = Some s) batch)
  ∧ ([1%Qc] = [] →
     Forall (λ t, path t !! 0%nat = Some (start corridorWorld)) batch).
Proof.
  exact (sampleBatch_starts expQ mixedDraws (newPolicy 3 4) corridorWorld
           [(1, 1)] [1%Qc] 2 3 0).
Defined.

(** X12.  [evaluateFromStart] with [nEval > 0] returns a fraction [n / nEval]
    with [n] at most [nEval], a number between 0 and 1, and reads at most
    [nEval * maxSteps] random numbers. *)
Theorem evaluateFromStart_fraction (exp : Qc → Qc) (random : nat → Qc)
    (p : TabularSoftmaxPolicy) (e : GridWorld) (st : option pos)
    (nEval maxSteps k : nat) :
  (0 < nEval)%nat →
  let res := evaluateFromStart exp random p e st nEval maxSteps k in
  (∃ n, (n ≤ nEval)%nat ∧ res.1 = (QcOfNat n / QcOfNat nEval)%Qc)
  ∧ (0 <= res.1)%Qc ∧ (res.1 <= 1)%Qc
  ∧ (k ≤ res.2 ≤ k + nEval * maxSteps)%nat.
Proof.
  intros Hpos res. subst res. unfold evaluateFromStart.
  pose proof (evalLoop_bounds exp random p e st nEval maxSteps 0 k) as Hb.
  cbv zeta in Hb.
  destruct (evalLoop exp random p e st nEval maxSteps 0 k) as [succ k1].
  cbn [fst snd] in *. destruct Hb as [Hsucc Hk].
  pose proof (QcOfNat_pos nEval Hpos) as Hn.
  split; [exists succ; split; [lia|done]|]. split; [|split; [|exact Hk]].
  - apply NumOrd.div_nonneg; [apply QcOfNat_nonneg|done].
  - apply NumOrd.div_le_1; [apply QcOfNat_le; lia|done].
Qed.

Lemma evaluateFromStart_fraction_witness :
  (0 < 4)%nat
  ∧ this (evaluateFromStart expQ mixedDraws (newPolicy 3 4) corridorWorld
            (Some (1, 1)) 4 3 1).1 = (1 # 4)%Q
  ∧ let res := evaluateFromStart expQ mixedDraws (newPolicy 3 4) corridorWorld
                 (Some (1, 1)) 4 3 1 in
    (∃ n, (n ≤ 4)%nat ∧ res.1 = (QcOfNat n / QcOfNat 4)%Qc)
    ∧ (0 <= res.1)%Qc ∧ (res.1 <= 1)%Qc
    ∧ (1 ≤ res.2 ≤ 1 + 4 * 3)%nat.
Proof.
  split; [lia|]. split; [by vm_compute|].
  apply (evaluateFromStart_fraction expQ mixedDraws (newPolicy 3 4)
           corridorWorld (Some (1, 1)) 4 3 1). lia.
Defined.


(** X14.  When every trajectory of the batch reaches the goal each weight
    [w_i = 1 / K - 1 / N] is 0 and [maxrlUpdate] leaves behind [clipLogits]
    of the policy it was given; a policy of a training run is unchanged. *)
Theorem maxrlUpdate_all_success (exp : Qc → Qc) (random : nat → Qc)
    (p : TabularSoftmaxPolicy) (e : GridWorld) (starts : list pos)
    (startProbs : list Qc) (N : nat) (lr : Qc) (maxSteps k : nat) :
  let batch := sampleBatch exp random p e starts startProbs N maxSteps k in
  (0 < N)%nat →
  Forall (λ t, reachedGoal t = true) batch.1 →
  maxrlUpdate exp random p e starts startProbs N lr maxSteps k
  = (QcOfNat N, clipLogits p, batch.2)
  ∧ (Trained exp random p →
     maxrlUpdate exp random p e starts startProbs N lr maxSteps k
     = (QcOfNat N, p, batch.2)).
Proof.
  intros batch HN Hall. rewrite Forall_forall in Hall.
  assert (maxrlUpdate exp random p e starts startProbs N lr maxSteps k
          = (QcOfNat N, clipLogits p, batch.2)) as Hupd.
  { rewrite maxrlUpdate_as_sum. fold batch. cbv zeta.
    pose proof (sampleBatch_length exp random p e starts startProbs N maxSteps k)
      as Hlen. fold batch in Hlen.
    rewrite (successes_all batch.1 Hall), Hlen.
    rewrite decide_True by (by apply QcOfNat_pos). f_equal. f_equal.
    unfold steppedPolicy. destruct p as [h w l]. cbn [height width logits].
    do 2 f_equal. apply list_eq. intros i. rewrite list_lookup_imap.
    destruct (l !! i) as [z|]; [|done]. cbn [fmap option_fmap option_map].
    f_equal.
    assert (weightedScoreSum exp (mkPolicy h w l) (maxrlWeight (QcOfNat N) N)
              batch.1 i = 0%Qc) as ->; [|ring].
    rewrite (weightedScoreSum_ext exp _ _ (λ t, (0 * reward t)%Qc)).
    - rewrite weightedScoreSum_scaled. ring.
    - intros t Ht. unfold maxrlWeight, reward. rewrite (Hall t Ht).
      pose proof (QcOfNat_pos N HN) as Hpos. apply Qclt_not_eq in Hpos.
      field. by apply not_eq_sym. }
  split; [exact Hupd|]. intros Htr.
  by rewrite Hupd, (trained_clipped exp random p Htr).
Qed.

Lemma maxrlUpdate_all_success_witness :
  let batch := sampleBatch expQ rightDraws (newPolicy 3 4) corridorWorld
                 [(1, 1)] [1%Qc] 2 3 0 in
  (0 < 2)%nat
  ∧ Forall (λ t, reachedGoal t = true) batch.1
  ∧ maxrlUpdate expQ rightDraws (newPolicy 3 4) corridorWorld
      [(1, 1)] [1%Qc] 2 1%Qc 3 0
    = (QcOfNat 2, clipLogits (newPolicy 3 4), batch.2)
  ∧ (Trained expQ rightDraws (newPolicy 3 4) →
     maxrlUpdate expQ rightDraws (newPolicy 3 4) corridorWorld
       [(1, 1)] [1%Qc] 2 1%Qc 3 0
     = (QcOfNat 2, newPolicy 3 4, batch.2)).
Proof.
  assert (Forall (λ t, reachedGoal t = true)
            (sampleBatch expQ rightDraws (newPolicy 3 4) corridorWorld
               [(1, 1)] [1%Qc] 2 3 0).1) as Hall.
  { vm_compute. repeat constructor. }
  split; [lia|]. split; [exact Hall|].
  apply (maxrlUpdate_all_success expQ rightDraws (newPolicy 3 4) corridorWorld
           [(1, 1)] [1%Qc] 2 1%Qc 3 0); [lia|exact Hall].
Defined.

Section TrainedFacts.

Variable exp : Qc → Qc.
Variable random : nat → Qc.

Lemma trained_shape (p : TabularSoftmaxPolicy) :
  Trained exp random p →
  length (logits p) = (height p * width p * nActions)%nat.
Proof.
  induction 1 as [h w|p e starts startProbs N lr maxSteps k _ IH
                 |p e starts startProbs N lr maxSteps k _ IH].
  - cbn [newPolicy logits height width]. apply length_replicate.
  - rewrite reinforceUpdate_gradient. cbv zeta. cbn [fst snd].
    destruct (steppedPolicy_shape p lr
                (weightedScoreSum exp p
                   (λ t, (1 / QcOfNat N
                          * advantage
                              (successes
                                 (sampleBatch exp random p e starts startProbs
                                    N maxSteps k).1) N t)%Qc)
                   (sampleBatch exp random p e starts startProbs N maxSteps k).1))
      as (-> & -> & ->). exact IH.
  - rewrite maxrlUpdate_as_sum. cbv zeta. case_decide; cbn [fst snd]; [|done].
    destruct (steppedPolicy_shape p lr
                (weightedScoreSum exp p
                   (maxrlWeight
                      (successes
                         (sampleBatch exp random p e starts startProbs
                            N maxSteps k).1) N)
                   (sampleBatch exp random p e starts startProbs N maxSteps k).1))
      as (-> & -> & ->). exact IH.
Qed.

End TrainedFacts.

(** X15.  Training keeps the logits re-centred: in a policy created with zero
    logits and changed only by the two updates, the array has one slot per
    state and action, every logit lies between -20 and 0, and the largest
    logit of every state is 0. *)
Theorem trained_logits_bounded (exp : Qc → Qc) (random : nat → Qc)
    (p : TabularSoftmaxPolicy) :
  Trained exp random p →
  length (logits p) = (height p * width p * nActions)%nat
  ∧ Forall (λ v, (- MAX_LOGIT <= v)%Qc ∧ (v <= 0)%Qc) (logits p)
  ∧ ∀ r c, (r < height p)%nat → (c < width p)%nat →
      blockMax (logits p) ((r * width p + c) * nActions) = Some 0%Qc.
Proof.
  intros Htr. pose proof (trained_shape exp random p Htr) as Hlen.
  pose proof (trained_clipped exp random p Htr) as Hfix.
  assert (∀ s, (s < height p * width p)%nat →
            ∃ m, blockMax (logits p) (s * nActions) = Some m) as Hblock.
  { intros s Hs. pose proof (blockMax_spec (logits p) (s * nActions)) as Hm.
    destruct (blockMax (logits p) (s * nActions)) as [m|]; [by exists m|].
    specialize (Hm 0%nat). unfold nActions in *.
    apply lookup_ge_None in Hm; lia. }
  split; [exact Hlen|]. split.
  - apply Forall_forall. intros v Hv.
    apply list_elem_of_lookup in Hv as [i Hi].
    apply lookup_lt_Some in Hi as Hlt. rewrite Hlen in Hlt.
    set (s := (i / nActions)%nat). set (a := (i mod nActions)%nat).
    assert (i = s * nActions + a)%nat as Hdiv
      by (subst s a; pose proof (Nat.div_mod_eq i nActions); lia).
    assert (a < nActions)%nat as Hr by (by apply Nat.mod_upper_bound).
    assert (s < height p * width p)%nat as Hs by (unfold nActions in *; nia).
    clearbody s a. subst i.
    destruct (Hblock s Hs) as [m Hm].
    pose proof (clipLogits_slot p s a m v Hs Hr Hm Hi) as Hslot.
    rewrite Hfix, Hi in Hslot. injection Hslot as ->. split.
    + apply clamp_range.
    + by eapply (clipLogits_slot_nonpos p s a).
  - intros r c Hr Hc.
    assert (r * width p + c < height p * width p)%nat as Hs by nia.
    destruct (Hblock _ Hs) as [m Hm].
    rewrite <- Hfix at 1. by eapply clipLogits_blockMax.
Qed.

Lemma trained_logits_bounded_witness :
  let p := (reinforceUpdate expQ mixedDraws (newPolicy 3 4) corridorWorld
              [(1, 1)] [1%Qc] 2 1%Qc 3 0).1.2 in
  Trained expQ mixedDraws p
  ∧ length (logits p) = (height p * width p * nActions)%nat
  ∧ Forall (λ v, (- MAX_LOGIT <= v)%Qc ∧ (v <= 0)%Qc) (logits p)
  ∧ ∀ r c, (r < height p)%nat → (c < width p)%nat →
      blockMax (logits p) ((r * width p + c) * nActions) = Some 0%Qc.
Proof.
  assert (Trained expQ mixedDraws
            (reinforceUpdate expQ mixedDraws (newPolicy 3 4) corridorWorld
               [(1, 1)] [1%Qc] 2 1%Qc 3 0).1.2) as Htr
    by (apply trained_reinforce, trained_new).
  split; [exact Htr|].
  exact (trained_logits_bounded expQ mixedDraws _ Htr).
Defined.

(** ** Re-centring and the probabilities *)

Section Recentring.

Variable exp : Qc → Qc.

(** [getProbs] in terms of the natural-number slots of a state inside the
    table. *)
Lemma getProbs_block (p : TabularSoftmaxPolicy) (r c : nat) :
  getProbs exp p (Z.of_nat r) (Z.of_nat c)
  = let base := ((r * width p + c) * nActions)%nat in
    let es := map (λ a, exp (default 0 (logits p !! (base + a)%nat)
                             - default 0 (blockMax (logits p) base))%Qc)
                  (seq 0 nActions) in
    map (λ e, (e / sumQc es)%Qc) es.
Proof.
  unfold getProbs, blockMax. cbv zeta.
  replace (stateBase p (Z.of_nat r) (Z.of_nat c))
    with (Z.of_nat ((r * width p + c) * nActions))
    by (unfold stateBase; lia).
  rewrite maxStepZ_fold_nat.
  assert (∀ m,
    map (λ a, exp (default 0 (readZ (logits p)
                     (Z.of_nat ((r * width p + c) * nActions) + Z.of_nat a))
                   - m)%Qc) (seq 0 nActions)
    = map (λ a, exp (default 0 (logits p !! ((r * width p + c) * nActions + a)%nat)
                     - m)%Qc) (seq 0 nActions)) as Heq.
  { intros m. apply map_ext. intros a. by rewrite readZ_nat. }
  by rewrite Heq.
Qed.

End Recentring.

(** X16.  [clipLogits] does not change the action probabilities of a state
    whose logits lie within 20 of each other: it subtracts the state's
    largest logit from all four, which the softmax of [getProbs] cancels,
    and clamps nothing. *)
Theorem getProbs_clipLogits (exp : Qc → Qc) (p : TabularSoftmaxPolicy)
    (r c : nat) :
  (r < height p)%nat → (c < width p)%nat →
  length (logits p) = (height p * width p * nActions)%nat →
  (∀ a a' v v', (a < 4)%nat → (a' < 4)%nat →
     logits p !! ((r * width p + c) * nActions + a)%nat = Some v →
     logits p !! ((r * width p + c) * nActions + a')%nat = Some v' →
     (v - v' <= MAX_LOGIT)%Qc) →
  getProbs exp (clipLogits p) (Z.of_nat r) (Z.of_nat c)
  = getProbs exp p (Z.of_nat r) (Z.of_nat c).
Proof.
  intros Hr Hc Hlen Hspread. rewrite !getProbs_block. cbv zeta.
  change (width (clipLogits p)) with (width p).
  set (s := (r * width p + c)%nat) in *.
  assert (s < height p * width p)%nat as Hs by (subst s; nia).
  pose proof (blockMax_spec (logits p) (s * nActions)) as Hmax.
  destruct (blockMax (logits p) (s * nActions)) as [m|] eqn:Hm.
  2:{ specialize (Hmax 0%nat). unfold nActions in *.
      apply lookup_ge_None in Hmax; lia. }
  destruct Hmax as [(a0 & Ha0 & Hl0) Hle].
  rewrite (clipLogits_blockMax p s m Hs Hm). cbn [default from_option id].
  assert (map (λ a, exp (default 0%Qc (logits (clipLogits p)
                                         !! (s * nActions + a)%nat) - 0)%Qc)
              (seq 0 nActions)
          = map (λ a, exp (default 0%Qc (logits p !! (s * nActions + a)%nat)
                           - m)%Qc) (seq 0 nActions)) as ->; [|done].
  apply map_ext_in. intros a Ha. apply in_seq in Ha.
  destruct (lookup_lt_is_Some_2 (logits p) (s * nActions + a)) as [v Hv].
  { unfold nActions in *. nia. }
  rewrite (clipLogits_slot p s a m v Hs) by (done || lia).
  rewrite Hv. cbn [default from_option id]. f_equal.
  rewrite Num.sub_0_r. apply clamp_id.
  - pose proof (Hspread a0 a m v Ha0 ltac:(unfold nActions in *; lia) Hl0 Hv)
      as Hd.
    apply Qcopp_le_compat in Hd. by replace (- (m - v))%Qc with (v - m)%Qc in Hd by ring.
  - eapply Qcle_trans; [|apply Qclt_le_weak, Num.zero_lt_max].
    apply Num.sub_nonpos. apply (Hle a v); [lia|done].
Qed.

Lemma wallPolicy_spread :
  ∀ a a' v v', (a < 4)%nat → (a' < 4)%nat →
    logits wallPolicy !! ((1 * width wallPolicy + 1) * nActions + a)%nat = Some v →
    logits wallPolicy !! ((1 * width wallPolicy + 1) * nActions + a')%nat = Some v' →
    (v - v' <= MAX_LOGIT)%Qc.
Proof.
  intros a a' v v' Ha Ha'.
  do 4 (destruct a as [|a];
        [do 4 (destruct a' as [|a'];
               [intros [= <-] [= <-]; by vm_compute|]); lia|]).
  lia.
Qed.

Lemma getProbs_clipLogits_witness :
  (1 < height wallPolicy)%nat ∧ (1 < width wallPolicy)%nat
  ∧ length (logits wallPolicy)
    = (height wallPolicy * width wallPolicy * nActions)%nat
  ∧ clipLogits wallPolicy ≠ wallPolicy
  ∧ getProbs expQ (clipLogits wallPolicy) 1 1 = getProbs expQ wallPolicy 1 1.
Proof.
  split; [simpl; lia|]. split; [simpl; lia|]. split; [reflexivity|]. split.
  - intros Heq. apply (f_equal (λ p, this <$> logits p)) in Heq.
    vm_compute in Heq. discriminate Heq.
  - apply (getProbs_clipLogits expQ wallPolicy 1 1);
      [simpl; lia | simpl; lia | reflexivity | exact wallPolicy_spread].
Defined.

(** ** Further properties of the search *)

Section WalkAlgebra.

Implicit Types (g : Grid) (u v w : pos).

Lemma walk_prepend ds g u v w n :
  edge ds g u v → walk ds g v n w → walk ds g u (S n) w.
Proof.
  intros He Hw. induction Hw as [|n x y _ IH Hxy].
  - econstructor; [constructor|done].
  - econstructor; [exact IH|done].
Qed.

Lemma walk_app ds g u v w n m :
  walk ds g u n v → walk ds g v m w → walk ds g u (n + m) w.
Proof.
  intros Hu Hv. induction Hv as [|m x y _ IH Hxy].
  - by rewrite Nat.add_0_r.
  - rewrite Nat.add_succ_r. econstructor; [exact IH|done].
Qed.

(** Every cell of a walk from a path cell is a path cell. *)
Lemma walk_open ds g u n v :
  openCell g u.1 u.2 = true → walk ds g u n v → openCell g v.1 v.2 = true.
Proof.
  intros Hu Hw. destruct Hw as [|n v w _ (d & _ & _ & Ho)]; done.
Qed.

Lemma edge_reverse g u v :
  openCell g u.1 u.2 = true → edge ACTION_DELTAS g u v →
  edge ACTION_DELTAS g v u.
Proof.
  intros Hu He. apply edge_adjacent in He as [Ha _].
  apply edge_adjacent. split; [|done]. unfold adjacent in *. lia.
Qed.

Lemma walk_reverse g u n v :
  openCell g u.1 u.2 = true → walk ACTION_DELTAS g u n v →
  walk ACTION_DELTAS g v n u.
Proof.
  intros Hu Hw. induction Hw as [|n v w Hv IH He]; [constructor|].
  apply (walk_prepend _ _ w v u n); [|exact IH].
  apply edge_reverse; [|done]. by eapply walk_open.
Qed.

(** A move changes the Manhattan distance to the origin of a walk by one. *)
Lemma walk_manhattan g u n v :
  walk ACTION_DELTAS g u n v →
  ∃ k : nat, Z.of_nat n = Z.abs (v.1 - u.1) + Z.abs (v.2 - u.2) + 2 * Z.of_nat k.
Proof.
  induction 1 as [|n v w _ [k IH] He].
  - exists 0%nat. lia.
  - apply edge_adjacent in He as [Ha _]. unfold adjacent in Ha.
    destruct (decide (Z.abs (w.1 - u.1) + Z.abs (w.2 - u.2)
                      = Z.abs (v.1 - u.1) + Z.abs (v.2 - u.2) + 1)).
    + exists k. lia.
    + exists (S k). lia.
Qed.

(** The cells of a route, by their index: as many moves from the origin,
    and the rest of the moves to the end. *)
Lemma route_split ds g u cells v i x :
  route ds g u cells v → cells !! i = Some x →
  walk ds g u i x ∧ walk ds g x (length cells - 1 - i) v.
Proof.
  intros Hr. revert i x. induction Hr as [|cells v w Hr IH He]; intros i x Hi.
  - apply list_lookup_singleton_Some in Hi as [-> ->]. cbn [length].
    split; constructor.
  - apply lookup_snoc_Some in Hi as [[Hlt Hi]|[-> ->]].
    + destruct (IH i x Hi) as [H1 H2]. split; [done|].
      rewrite length_app. cbn [length].
      replace (length cells + 1 - 1 - i)%nat with (S (length cells - 1 - i))
        by lia.
      econstructor; [exact H2|done].
    + rewrite length_app. cbn [length].
      replace (length cells + 1 - 1 - length cells)%nat with 0%nat by lia.
      split; [|constructor].
      destruct (route_walk _ _ _ _ _ Hr) as (n & Hn & Hw).
      replace (length cells) with (S n) by lia. econstructor; [exact Hw|done].
Qed.

Lemma route_ends ds g u cells v :
  route ds g u cells v → cells !! 0%nat = Some u ∧ last cells = Some v.
Proof.
  induction 1 as [|cells v w Hr [Hh Hl] He]; [done|].
  split; [|apply last_snoc]. apply lookup_app_l_Some. exact Hh.
Qed.

End WalkAlgebra.

(** X17.  [bfsShortestPath] ends on every input: the bounds that the model
    puts on its two loops are never reached.  From a start inside the grid
    it returns; on an empty grid or with a start row outside the grid it
    throws; and it throws only from a start outside the grid. *)
Theorem bfsShortestPath_terminates (g : Grid) (start goal : pos) :
  bfsShortestPath g start goal ≠ OutOfFuel
  ∧ (inGrid g start.1 start.2 = true →
     ∃ res, bfsShortestPath g start goal = Returns res)
  ∧ (g = [] ∨ start.1 < 0 ∨ gridHeight g ≤ start.1 →
     bfsShortestPath g start goal = Throws)
  ∧ (bfsShortestPath g start goal = Throws →
     inGrid g start.1 start.2 = false).
Proof.
  pose proof (bfsWith_outcome ACTION_DELTAS g start goal) as Hout.
  unfold bfsShortestPath. split; [|split; [|split]].
  - intros Heq. rewrite Heq in Hout. exact Hout.
  - intros Hin.
    destruct (bfsWith ACTION_DELTAS g start goal) as [| |res];
      cbn [bfsOutcome] in Hout; [done|congruence|by exists res].
  - intros Hbad. unfold bfsWith. destruct g as [|row rows]; [done|].
    destruct Hbad as [Hnil|Hrow]; [done|].
    replace ((0 <=? start.1) && (start.1 <? gridHeight (row :: rows)))
      with false; [done|].
    symmetry. apply andb_false_iff. rewrite Z.leb_gt, Z.ltb_ge. lia.
  - intros Heq. rewrite Heq in Hout. exact Hout.
Qed.

Lemma bfsShortestPath_terminates_witness :
  bfsShortestPath MAZE_RING (5, 1) (1, 1) = Throws
  ∧ bfsShortestPath MAZE_RING (5, 1) (1, 1) ≠ OutOfFuel
  ∧ (inGrid MAZE_RING 5 1 = true →
     ∃ res, bfsShortestPath MAZE_RING (5, 1) (1, 1) = Returns res)
  ∧ (MAZE_RING = [] ∨ 5 < 0 ∨ gridHeight MAZE_RING ≤ 5 →
     bfsShortestPath MAZE_RING (5, 1) (1, 1) = Throws)
  ∧ (bfsShortestPath MAZE_RING (5, 1) (1, 1) = Throws →
     inGrid MAZE_RING 5 1 = false).
Proof.
  split; [reflexivity|].
  exact (bfsShortestPath_terminates MAZE_RING (5, 1) (1, 1)).
Defined.

(** X18.  A goal that is a wall or lies outside the grid is never reached from
    another cell: the search returns [null]. *)
Theorem bfsShortestPath_wall_goal (g : Grid) (start goal : pos) :
  inGrid g start.1 start.2 = true →
  openCell g goal.1 goal.2 = false →
  goal ≠ start →
  bfsShortestPath g start goal = Returns None.
Proof.
  intros Hin Hwall Hne. unfold bfsShortestPath.
  destruct (bfsWith_correct ACTION_DELTAS g start goal Hin)
    as (res & -> & Hpost).
  destruct res as [[d cells]|]; [exfalso|done].
  destruct Hpost as (_ & Hr & _).
  destruct Hr as [|cells v w _ (dl & _ & _ & Ho)]; [done|].
  by rewrite Ho in Hwall.
Qed.

Lemma bfsShortestPath_wall_goal_witness :
  inGrid MAZE_RING 1 1 = true
  ∧ openCell MAZE_RING 2 2 = false
  ∧ ((2, 2) : pos) ≠ (1, 1)
  ∧ bfsShortestPath MAZE_RING (1, 1) (2, 2) = Returns None.
Proof.
  assert (((2, 2) : pos) ≠ (1, 1)) as Hne by (intros [=]).
  split; [reflexivity|]. split; [reflexivity|]. split; [exact Hne|].
  exact (bfsShortestPath_wall_goal MAZE_RING (1, 1) (2, 2)
           eq_refl eq_refl Hne).
Defined.

(** X19.  The distance returned is at least the Manhattan distance between
    start and goal, and differs from it by an even number. *)
Theorem bfsShortestPath_manhattan (g : Grid) (start goal : pos) (d : Z)
    (cells : list pos) :
  inGrid g start.1 start.2 = true →
  bfsShortestPath g start goal = Returns (Some (d, cells)) →
  Z.abs (goal.1 - start.1) + Z.abs (goal.2 - start.2) ≤ d
  ∧ ∃ k, 0 ≤ k
         ∧ d = Z.abs (goal.1 - start.1) + Z.abs (goal.2 - start.2) + 2 * k.
Proof.
  intros Hin Hres. unfold bfsShortestPath in Hres.
  destruct (bfsWith_correct ACTION_DELTAS g start goal Hin)
    as (res & Heq & Hpost).
  rewrite Hres in Heq. injection Heq as <-.
  destruct Hpost as (Hpos & Hr & Hlen & _).
  apply route_walk in Hr as (n & Hn & Hw).
  apply walk_manhattan in Hw as [k Hk].
  assert (Z.of_nat n = d) as Hd by lia. rewrite Hd in Hk.
  split; [lia|]. exists (Z.of_nat k). split; lia.
Qed.

Lemma bfsShortestPath_manhattan_witness :
  let cells := [(3, 3); (3, 4); (3, 5); (2, 5); (1, 5); (1, 4); (1, 3);
                (1, 2); (1, 1)] in
  inGrid MAZE_TRAIN 3 3 = true
  ∧ bfsShortestPath MAZE_TRAIN (3, 3) (1, 1) = Returns (Some (8, cells))
  ∧ Z.abs (1 - 3) + Z.abs (1 - 3) ≤ 8
  ∧ ∃ k, 0 ≤ k ∧ 8 = Z.abs (1 - 3) + Z.abs (1 - 3) + 2 * k.
Proof.
  intros cells.
  assert (bfsShortestPath MAZE_TRAIN (3, 3) (1, 1) = Returns (Some (8, cells)))
    as Hres by (by vm_compute).
  split; [reflexivity|]. split; [exact Hres|].
  exact (bfsShortestPath_manhattan MAZE_TRAIN (3, 3) (1, 1) 8 cells
           eq_refl Hres).
Defined.

(** X20.  Between two path cells the search gives the same distance in both
    directions, and finds no path in one direction exactly when it finds
    none in the other. *)
Theorem bfsShortestPath_symmetric (g : Grid) (a b : pos) :
  openCell g a.1 a.2 = true →
  openCell g b.1 b.2 = true →
  distanceOf (bfsShortestPath g a b) = distanceOf (bfsShortestPath g b a).
Proof.
  intros Ha Hb. unfold bfsShortestPath.
  destruct (bfsWith_correct ACTION_DELTAS g a b (openCell_inGrid _ _ _ Ha))
    as (res & -> & Hpost).
  destruct (bfsWith_correct ACTION_DELTAS g b a (openCell_inGrid _ _ _ Hb))
    as (res' & -> & Hpost').
  cbn [distanceOf runBind]. f_equal.
  assert (∀ u v r r',
            openCell g u.1 u.2 = true →
            bfsPost ACTION_DELTAS g u v r → bfsPost ACTION_DELTAS g v u r' →
            ∀ d, fst <$> r = Some d → ∃ d', fst <$> r' = Some d' ∧ d' ≤ d)
    as Hhalf.
  { intros u v r r' Hu Hr Hr' d Hd.
    destruct r as [[d0 cells]|]; [|done]. injection Hd as ->.
    destruct Hr as (Hpos & Hroute & Hlen & _).
    apply route_walk in Hroute as (n & Hn & Hw).
    apply walk_reverse in Hw; [|done].
    destruct r' as [[d' cells']|]; [|by destruct (Hr' n)].
    destruct Hr' as (Hpos' & _ & _ & Hmin). exists d'. split; [done|].
    specialize (Hmin n Hw). lia. }
  destruct (fst <$> res) as [d|] eqn:Hd.
  - destruct (Hhalf a b res res' Ha Hpost Hpost' d Hd) as (d' & Hd' & Hle).
    destruct (Hhalf b a res' res Hb Hpost' Hpost d' Hd') as (d'' & Hd'' & Hle').
    rewrite Hd'. rewrite Hd in Hd''. injection Hd'' as <-. f_equal. lia.
  - destruct (fst <$> res') as [d'|] eqn:Hd'; [exfalso|done].
    destruct (Hhalf b a res' res Hb Hpost' Hpost d' Hd') as (d'' & Hd'' & _).
    congruence.
Qed.

Lemma bfsShortestPath_symmetric_witness :
  openCell MAZE_TRAIN 3 3 = true
  ∧ openCell MAZE_TRAIN 1 1 = true
  ∧ distanceOf (bfsShortestPath MAZE_TRAIN (3, 3) (1, 1)) = Returns (Some 8)
  ∧ distanceOf (bfsShortestPath MAZE_TRAIN (3, 3) (1, 1))
    = distanceOf (bfsShortestPath MAZE_TRAIN (1, 1) (3, 3)).
Proof.
  split; [reflexivity|]. split; [reflexivity|]. split; [by vm_compute|].
  exact (bfsShortestPath_symmetric MAZE_TRAIN (3, 3) (1, 1) eq_refl eq_refl).
Defined.

(** X21.  The path returned begins at the start, ends at the goal, visits no
    cell twice, and all its cells after the first are path cells. *)
Theorem bfsShortestPath_simple_path (g : Grid) (start goal : pos) (d : Z)
    (cells : list pos) :
  inGrid g start.1 start.2 = true →
  bfsShortestPath g start goal = Returns (Some (d, cells)) →
  cells !! 0%nat = Some start
  ∧ last cells = Some goal
  ∧ NoDup cells
  ∧ ∀ i v, cells !! S i = Some v → openCell g v.1 v.2 = true.
Proof.
  intros Hin Hres. unfold bfsShortestPath in Hres.
  destruct (bfsWith_correct ACTION_DELTAS g start goal Hin)
    as (res & Heq & Hpost).
  rewrite Hres in Heq. injection Heq as <-.
  destruct Hpost as (Hpos & Hr & Hlen & Hmin).
  destruct (route_ends _ _ _ _ _ Hr) as [Hfirst Hlast].
  split; [exact Hfirst|]. split; [exact Hlast|]. split.
  - apply NoDup_alt. intros i j x Hi Hj.
    assert (∀ i j, (i < j)%nat → cells !! i = Some x → cells !! j = Some x →
              False) as Hlt.
    { clear i j Hi Hj. intros i j Hij Hi Hj.
      destruct (route_split _ _ _ _ _ i x Hr Hi) as [Hwi _].
      destruct (route_split _ _ _ _ _ j x Hr Hj) as [_ Hwj].
      pose proof (walk_app _ _ _ _ _ _ _ Hwi Hwj) as Hw.
      apply Hmin in Hw. apply lookup_lt_Some in Hj. lia. }
    destruct (decide (i = j)) as [|Hne]; [done|exfalso].
    destruct (decide (i < j)%nat); [by apply (Hlt i j)|].
    apply (Hlt j i); [lia|done|done].
  - intros i v Hi. destruct (route_split _ _ _ _ _ (S i) v Hr Hi) as [Hw _].
    inversion Hw as [|n x y _ (dl & _ & _ & Ho)]. exact Ho.
Qed.

Lemma bfsShortestPath_simple_path_witness :
  let cells := [(1, 1); (2, 1); (3, 1); (3, 2); (3, 3)] in
  inGrid MAZE_RING 1 1 = true
  ∧ bfsShortestPath MAZE_RING (1, 1) (3, 3) = Returns (Some (4, cells))
  ∧ cells !! 0%nat = Some (1, 1)
  ∧ last cells = Some (3, 3)
  ∧ NoDup cells
  ∧ ∀ i v, cells !! S i = Some v → openCell MAZE_RING v.1 v.2 = true.
Proof.
  intros cells.
  assert (bfsShortestPath MAZE_RING (1, 1) (3, 3) = Returns (Some (4, cells)))
    as Hres by (by vm_compute).
  split; [reflexivity|]. split; [exact Hres|].
  exact (bfsShortestPath_simple_path MAZE_RING (1, 1) (3, 3) 4 cells
           eq_refl Hres).
Defined.

(** ** The shape of generated mazes *)

Section FloorFacts.

Lemma floorQc_nonneg (y : Qc) : (0 <= y)%Qc → 0 ≤ floorQc y.
Proof.
  intros H. unfold floorQc.
  change 0 with (Qfloor 0). by apply Qfloor_resp_le.
Qed.

Lemma floorQc_lt (y : Qc) (n : Z) : (y < Qc_of_Z n)%Qc → floorQc y < n.
Proof.
  intros H. unfold floorQc. rewrite Zlt_Qlt.
  eapply Qle_lt_trans; [apply Qfloor_le|exact H].
Qed.

(** [Math.floor(Math.random() * n)] is one of 0, ..., n - 1. *)
Lemma floorQc_scale (x : Qc) (n : Z) :
  (0 <= x)%Qc → (x < 1)%Qc → 1 ≤ n → 0 ≤ floorQc (x * Qc_of_Z n) < n.
Proof.
  intros H0 H1 Hn.
  assert (0 < Qc_of_Z n)%Qc as Hpos.
  { rewrite <- Z2Qc_inj_0. apply (proj1 (Z2Qc_inj_lt 0 n)). lia. }
  split.
  - apply floorQc_nonneg, NumOrd.mult_nonneg; [done|by apply Qclt_le_weak].
  - apply floorQc_lt.
    replace (Qc_of_Z n) with (1 * Qc_of_Z n)%Qc at 2 by ring.
    by apply Qcmult_lt_compat_r.
Qed.

End FloorFacts.

Section GridWrites.

Implicit Types (g : Grid) (cells : list Z).

Lemma cellAt_Some g (r c : Z) (v : Z) :
  cellAt g r c = Some v ↔
  0 ≤ r ∧ 0 ≤ c
  ∧ ∃ cells, g !! Z.to_nat r = Some cells ∧ cells !! Z.to_nat c = Some v.
Proof.
  unfold cellAt. case_decide as Hd.
  - destruct (g !! Z.to_nat r) as [cells|]; cbn [mbind option_bind].
    + split; [intros H; split; [lia|split; [lia|by exists cells]]|].
      by intros (_ & _ & cells' & [= <-] & H).
    + split; [done|]. by intros (_ & _ & cells' & [=] & _).
  - split; [done|]. intros (? & ? & _). lia.
Qed.

(** A write inside a row changes that cell and nothing else. *)
Lemma setCell_inside g (r c v : Z) cells :
  0 ≤ r → g !! Z.to_nat r = Some cells → 0 ≤ c < Z.of_nat (length cells) →
  ∃ g', setCell g r c v = Returns g'
        ∧ length g' = length g
        ∧ (∀ cells', cells' ∈ g' →
             cells' ∈ g ∨ length cells' = length cells)
        ∧ ∀ r' c', cellAt g' r' c'
                   = if decide (r' = r ∧ c' = c) then Some v
                     else cellAt g r' c'.
Proof.
  intros Hr Hrow Hc. unfold setCell. rewrite decide_True by done. rewrite Hrow.
  eexists. split; [done|].
  assert (setIndex cells c v = <[Z.to_nat c := v]> cells) as Hset.
  { unfold setIndex. rewrite decide_False by lia. by rewrite decide_True by lia. }
  rewrite Hset. split; [apply length_insert|]. split.
  - intros cells' Hin. apply list_elem_of_lookup in Hin as [i Hi].
    destruct (decide (i = Z.to_nat r)) as [->|Hne].
    + rewrite list_lookup_insert_eq in Hi by (by eapply lookup_lt_Some).
      injection Hi as <-. right. apply length_insert.
    + rewrite list_lookup_insert_ne in Hi by done.
      left. by eapply list_elem_of_lookup_2.
  - intros r' c'. unfold cellAt.
    destruct (decide (0 ≤ r' ∧ 0 ≤ c')) as [[Hr' Hc']|Hneg].
    2:{ rewrite decide_False by lia. done. }
    destruct (decide (r' = r)) as [->|Hne].
    + rewrite list_lookup_insert_eq by (by eapply lookup_lt_Some).
      rewrite Hrow. cbn [mbind option_bind].
      destruct (decide (c' = c)) as [->|Hnc].
      * rewrite decide_True by done.
        apply list_lookup_insert_eq. lia.
      * rewrite decide_False by (intros [_ ?]; done).
        apply list_lookup_insert_ne. lia.
    + rewrite decide_False by (intros [? _]; done).
      rewrite list_lookup_insert_ne by lia. done.
Qed.

Lemma rectangular_row g (r c : Z) :
  rectangular g → inGrid g r c = true →
  ∃ cells, g !! Z.to_nat r = Some cells ∧ 0 ≤ r
           ∧ 0 ≤ c < Z.of_nat (length cells).
Proof.
  intros Hrect Hin. apply inGrid_spec in Hin.
  destruct (lookup_lt_is_Some_2 g (Z.to_nat r)) as [cells Hrow];
    [unfold gridHeight in Hin; lia|].
  exists cells. split; [done|]. split; [lia|].
  pose proof (proj1 (Forall_forall _ _) Hrect cells
                (list_elem_of_lookup_2 _ _ _ Hrow)) as Hlen.
  cbv beta in Hlen. lia.
Qed.

(** A write inside a rectangular grid. *)
Lemma setCell_rectangular g (r c v : Z) :
  rectangular g → inGrid g r c = true →
  ∃ g', setCell g r c v = Returns g'
        ∧ rectangular g'
        ∧ gridHeight g' = gridHeight g
        ∧ gridWidth g' = gridWidth g
        ∧ ∀ r' c', cellAt g' r' c'
                   = if decide (r' = r ∧ c' = c) then Some v
                     else cellAt g r' c'.
Proof.
  intros Hrect Hin.
  destruct (rectangular_row g r c Hrect Hin) as (cells & Hrow & Hr & Hc).
  destruct (setCell_inside g r c v cells Hr Hrow Hc)
    as (g' & Hset & Hlen & Hrows & Hat).
  exists g'. split; [done|].
  assert (gridWidth g' = gridWidth g) as Hw.
  { unfold setCell in Hset. rewrite decide_True, Hrow in Hset by done.
    injection Hset as <-. unfold setIndex.
    rewrite decide_False by lia. rewrite decide_True by lia.
    destruct g as [|row0 rest]; [done|].
    destruct (Z.to_nat r) as [|n] eqn:Hn.
    - cbn in Hrow. injection Hrow as ->. cbn. by rewrite length_insert.
    - done. }
  split; [|split; [unfold gridHeight; by rewrite Hlen|split; [done|done]]].
  unfold rectangular. rewrite Hw. apply Forall_forall. intros cells' Hin'.
  destruct (Hrows cells' Hin') as [Hold| ->].
  - by apply (proj1 (Forall_forall _ _) Hrect).
  - apply (proj1 (Forall_forall _ _) Hrect cells).
    by eapply list_elem_of_lookup_2.
Qed.

End GridWrites.

Section MazeShape.

Variable random : nat → Qc.

Implicit Types (g : Grid) (cells : list Z).

Lemma scatterRow_spec rows cols (r : Z) (c n k : nat) :
  let res := scatterRow random rows cols r c n k in
  length res.1 = n
  ∧ ∀ i v, res.1 !! i = Some v →
      (v = 0 ∨ v = 1) ∧ (onBorder rows cols r (Z.of_nat (c + i)) → v = 1).
Proof.
  revert c k. induction n as [|n IH]; intros c k; cbn [scatterRow].
  { cbn [fst]. split; [done|]. intros i v Hi. by rewrite lookup_nil in Hi. }
  set (border := bool_decide _).
  assert (border = true ↔ onBorder rows cols r (Z.of_nat c)) as Hb
    by (unfold border, onBorder; apply bool_decide_eq_true).
  assert (∀ cell k1,
    (if border then (1, k)
     else (if decide (random k < wallProb)%Qc then 1 else 0, S k)) = (cell, k1) →
    (cell = 0 ∨ cell = 1) ∧ (onBorder rows cols r (Z.of_nat c) → cell = 1))
    as Hcell.
  { intros cell k1. destruct border.
    - intros [= <- _]. split; [by right|done].
    - intros [= <- _]. split; [case_decide; auto|].
      intros Hon. apply Hb in Hon. done. }
  destruct (if border then _ else _) as [cell k1] eqn:Hc.
  specialize (Hcell cell k1 eq_refl). specialize (IH (S c) k1).
  destruct (scatterRow random rows cols r (S c) n k1) as [rest k2].
  cbn [fst] in *. destruct IH as [Hlen Hrest]. split; [simpl; lia|].
  intros [|i] v Hi.
  - injection Hi as <-. by rewrite Nat.add_0_r.
  - replace (c + S i)%nat with (S c + i)%nat by lia. by apply Hrest.
Qed.

Lemma scatterRows_spec rows cols (r n k : nat) :
  let res := scatterRows random rows cols r n k in
  length res.1 = n
  ∧ ∀ i cells, res.1 !! i = Some cells →
      length cells = cols
      ∧ ∀ j v, cells !! j = Some v →
          (v = 0 ∨ v = 1)
          ∧ (onBorder rows cols (Z.of_nat (r + i)) (Z.of_nat j) → v = 1).
Proof.
  revert r k. induction n as [|n IH]; intros r k; cbn [scatterRows].
  { cbn [fst]. split; [done|]. intros i v Hi. by rewrite lookup_nil in Hi. }
  pose proof (scatterRow_spec rows cols (Z.of_nat r) 0 cols k) as Hrow.
  destruct (scatterRow random rows cols (Z.of_nat r) 0 cols k) as [row k1].
  specialize (IH (S r) k1).
  destruct (scatterRows random rows cols (S r) n k1) as [rest k2].
  cbn [fst] in *. destruct IH as [Hlen Hrest]. destruct Hrow as [Hl Hcells].
  split; [simpl; lia|]. intros [|i] cells Hi.
  - injection Hi as <-. split; [done|]. intros j v Hj.
    rewrite Nat.add_0_r. by apply Hcells.
  - replace (r + S i)%nat with (S r + i)%nat by lia. by apply Hrest.
Qed.

(** The random scatter is a well-formed maze. *)
Lemma scatter_wellFormed rows cols k :
  wellFormedMaze rows cols (scatterRows random rows cols 0 rows k).1.
Proof.
  destruct (scatterRows_spec rows cols 0 rows k) as [Hlen Hrows].
  split; [done|]. split.
  - intros cells Hin. apply list_elem_of_lookup in Hin as [i Hi].
    by destruct (Hrows i cells Hi).
  - intros r c v Hv. apply cellAt_Some in Hv as (Hr & Hc & cells & Hrow & Hcell).
    destruct (Hrows _ _ Hrow) as [_ Hcells].
    specialize (Hcells _ _ Hcell). cbn [Nat.add] in Hcells.
    by rewrite !Z2Nat.id in Hcells by done.
Qed.

(** Opening an interior cell keeps a maze well formed and closes no cell. *)
Lemma setCell_wellFormed rows cols g (p : pos) :
  wellFormedMaze rows cols g → interior rows cols p →
  ∃ g', setCell g p.1 p.2 0 = Returns g'
        ∧ wellFormedMaze rows cols g'
        ∧ cellAt g' p.1 p.2 = Some 0
        ∧ ∀ r c, cellAt g r c = Some 0 → cellAt g' r c = Some 0.
Proof.
  intros (Hlen & Hrows & Hcells) [Hr Hc].
  destruct (lookup_lt_is_Some_2 g (Z.to_nat p.1)) as [cells Hrow]; [lia|].
  pose proof (Hrows cells (list_elem_of_lookup_2 _ _ _ Hrow)) as Hlc.
  destruct (setCell_inside g p.1 p.2 0 cells) as (g' & Hset & Hlen' & Hrows' & Hat);
    [lia|done|lia|].
  exists g'. split; [done|]. split; [|split].
  - split; [lia|]. split.
    + intros cells' Hin. destruct (Hrows' cells' Hin) as [Hold|Hnew];
        [by apply Hrows|lia].
    + intros r c v. rewrite Hat. case_decide as Hd.
      * intros [= <-]. split; [by left|]. destruct Hd as [-> ->].
        unfold onBorder. lia.
      * apply Hcells.
  - rewrite Hat. by rewrite decide_True.
  - intros r c Hz. rewrite Hat. by case_decide.
Qed.

Lemma pokeLoop_wellFormed attempts rows cols g (start goal : pos) k g' b k' :
  (∀ j, (0 <= random j)%Qc ∧ (random j < 1)%Qc) →
  (3 ≤ rows)%nat → (3 ≤ cols)%nat →
  wellFormedMaze rows cols g →
  pokeLoop random attempts rows cols g start goal k = Returns (g', b, k') →
  wellFormedMaze rows cols g'
  ∧ ∀ r c, cellAt g r c = Some 0 → cellAt g' r c = Some 0.
Proof.
  intros Hrand Hrows Hcols. revert g k.
  induction attempts as [|n IH]; intros g k Hwf; cbn [pokeLoop].
  { intros [= <- _ _]. by split. }
  set (r := 1 + floorQc (random k * Qc_of_Z (Z.of_nat rows - 2))).
  set (c := 1 + floorQc (random (S k) * Qc_of_Z (Z.of_nat cols - 2))).
  assert (interior rows cols (r, c)) as Hint.
  { destruct (Hrand k) as [H0 H1]. destruct (Hrand (S k)) as [H0' H1'].
    pose proof (floorQc_scale (random k) (Z.of_nat rows - 2) H0 H1 ltac:(lia)).
    pose proof (floorQc_scale (random (S k)) (Z.of_nat cols - 2) H0' H1'
                  ltac:(lia)).
    unfold interior. cbn [fst snd]. subst r c. lia. }
  destruct (setCell_wellFormed rows cols g (r, c) Hwf Hint)
    as (g1 & Hset & Hwf1 & _ & Hkeep).
  cbn [fst snd] in Hset. rewrite Hset. cbn [runBind].
  destruct (bfsShortestPath g1 start goal) as [| |[found|]]; cbn [runBind];
    [done..| |].
  - intros [= <- _ _]. by split.
  - intros Hrec. destruct (IH g1 _ Hwf1 Hrec) as [Hwf' Hkeep'].
    split; [done|]. intros r' c' Hz. by apply Hkeep', Hkeep.
Qed.

End MazeShape.

(** X22.  A maze returned by [generateMaze] for at least 3 rows and 3 columns,
    with start and goal in the interior (as the defaults are), has [rows]
    rows of [cols] cells, each 0 or 1, walls all along its border, and path
    cells at the start and at the goal.  [Math.random] is taken to return
    numbers from 0 up to, not including, 1. *)
Theorem generateMaze_well_formed (random : nat → Qc) (fuel rows cols : nat)
    (start goal : option pos) (k : nat) (maze : Grid) (k' : nat) :
  (3 ≤ rows)%nat → (3 ≤ cols)%nat →
  (∀ j, (0 <= random j)%Qc ∧ (random j < 1)%Qc) →
  interior rows cols (default (1, 1) start) →
  interior rows cols (default (Z.of_nat rows - 2, Z.of_nat cols - 2) goal) →
  generateMaze random fuel rows cols start goal k = Returns (maze, k') →
  let s := default (1, 1) start in
  let t := default (Z.of_nat rows - 2, Z.of_nat cols - 2) goal in
  wellFormedMaze rows cols maze
  ∧ cellAt maze s.1 s.2 = Some 0
  ∧ cellAt maze t.1 t.2 = Some 0.
Proof.
  intros Hrows Hcols Hrand. revert start goal k.
  induction fuel as [|fuel IH]; intros start goal k Hs Ht; [done|].
  cbn [generateMaze].
  set (start1 := default (1, 1) start) in *.
  set (goal1 := default (Z.of_nat rows - 2, Z.of_nat cols - 2) goal) in *.
  pose proof (scatter_wellFormed random rows cols k) as Hwf0.
  destruct (scatterRows random rows cols 0 rows k) as [g0 k1]. cbn [fst] in Hwf0.
  destruct (setCell_wellFormed rows cols g0 start1 Hwf0 Hs)
    as (g1 & -> & Hwf1 & Hs1 & _).
  cbn [runBind].
  destruct (setCell_wellFormed rows cols g1 goal1 Hwf1 Ht)
    as (g2 & -> & Hwf2 & Ht2 & Hkeep2).
  cbn [runBind]. apply Hkeep2 in Hs1.
  destruct (bfsShortestPath g2 start1 goal1) as [| |[found|]]; cbn [runBind];
    [done..| |].
  - intros [= <- _]. cbv zeta. by split.
  - destruct (pokeLoop random 200 rows cols g2 start1 goal1 k1)
      as [| |[[g3 connected] k2]] eqn:Hpoke; cbn [runBind]; [done..|].
    destruct (pokeLoop_wellFormed random _ _ _ _ _ _ _ _ _ _
                Hrand Hrows Hcols Hwf2 Hpoke) as [Hwf3 Hkeep3].
    destruct connected.
    + intros [= <- _]. cbv zeta. split; [done|]. split; by apply Hkeep3.
    + intros Hrec. by apply (IH (Some start1) (Some goal1) k2).
Qed.

(** Draws given by a list of numbers from 0 up to 1 stay in that range. *)
Lemma draws_unit (l : list Q) :
  Forall (λ q, (0 <= q)%Q ∧ (q < 1)%Q) l →
  ∀ j, (0 <= draws l j)%Qc ∧ (draws l j < 1)%Qc.
Proof.
  intros Hall j. unfold draws.
  assert ((0 <= nth j l 0)%Q ∧ (nth j l 0 < 1)%Q) as [H0 H1].
  { destruct (nth_in_or_default j l 0%Q) as [Hin| ->]; [|done].
    apply (proj1 (Forall_forall _ _) Hall). by apply list_elem_of_In. }
  unfold Qcle, Qclt. cbn [this Q2Qc]. rewrite !Qred_correct. by split.
Qed.

Lemma generateMaze_well_formed_witness :
  let random := draws [5 # 10; 1 # 10; 2 # 10; 5 # 10; 1 # 2; 0]%Q in
  let maze := [ [1; 1; 1; 1]; [1; 0; 1; 1]; [1; 0; 0; 1]; [1; 1; 1; 1] ] in
  (3 ≤ 4)%nat
  ∧ interior 4 4 (1, 1)
  ∧ interior 4 4 (2, 2)
  ∧ generateMaze random 1 4 4 None None 0 = Returns (maze, 6%nat)
  ∧ wellFormedMaze 4 4 maze
  ∧ cellAt maze 1 1 = Some 0
  ∧ cellAt maze 2 2 = Some 0.
Proof.
  intros random maze.
  assert (interior 4 4 (1, 1)) as Hs by (unfold interior; simpl; lia).
  assert (interior 4 4 (2, 2)) as Ht by (unfold interior; simpl; lia).
  assert (generateMaze random 1 4 4 None None 0 = Returns (maze, 6%nat))
    as Hrun by (by vm_compute).
  assert (∀ j, (0 <= random j)%Qc ∧ (random j < 1)%Qc) as Hrand.
  { apply draws_unit. repeat constructor; by vm_compute. }
  split; [lia|]. split; [exact Hs|]. split; [exact Ht|]. split; [exact Hrun|].
  exact (generateMaze_well_formed random 1 4 4 None None 0 maze 6
           ltac:(lia) ltac:(lia) Hrand Hs Ht Hrun).
Defined.

(** ** Opening a cell *)

Section OpeningFacts.

Implicit Types (g : Grid) (u v : pos).

Lemma walk_mono ds g g' u n v :
  (∀ r c, openCell g r c = true → openCell g' r c = true) →
  walk ds g u n v → walk ds g' u n v.
Proof.
  intros Hmono. induction 1 as [|n v w _ IH (d & Hd & Hw & Ho)];
    [constructor|].
  econstructor; [exact IH|]. exists d. split; [done|]. split; [done|].
  by apply Hmono.
Qed.

End OpeningFacts.

(** X23.  Turning a cell of a rectangular grid into a path cell, as the repair
    loop of [generateMaze] and the editor do, never cuts a connection: when
    the search found a path before the write, it finds one after it, and
    the distance has not grown. *)
Theorem bfsShortestPath_after_opening (g g' : Grid) (r c : Z)
    (start goal : pos) (d : Z) (cells : list pos) :
  rectangular g →
  inGrid g r c = true →
  inGrid g start.1 start.2 = true →
  setCell g r c 0 = Returns g' →
  bfsShortestPath g start goal = Returns (Some (d, cells)) →
  ∃ d' cells',
    bfsShortestPath g' start goal = Returns (Some (d', cells')) ∧ d' ≤ d.
Proof.
  intros Hrect Hin Hstart Hset Hres.
  destruct (setCell_rectangular g r c 0 Hrect Hin)
    as (g1 & Hset1 & _ & Hh & Hw & Hat).
  rewrite Hset in Hset1. injection Hset1 as <-.
  assert (∀ r' c', openCell g r' c' = true → openCell g' r' c' = true)
    as Hmono.
  { intros r' c'. unfold openCell, inGrid. rewrite Hh, Hw, Hat.
    intros Ho. apply andb_true_iff in Ho as [Hb Hc].
    apply andb_true_iff. split; [exact Hb|].
    destruct (decide (r' = r ∧ c' = c));
      [by apply bool_decide_eq_true_2|exact Hc]. }
  assert (inGrid g' start.1 start.2 = true) as Hstart'
    by (unfold inGrid in *; by rewrite Hh, Hw).
  unfold bfsShortestPath in *.
  destruct (bfsWith_correct ACTION_DELTAS g start goal Hstart)
    as (res & Heq & Hpost).
  rewrite Hres in Heq. injection Heq as <-.
  destruct Hpost as (Hpos & Hroute & Hlen & _).
  apply route_walk in Hroute as (n & Hn & Hwalk).
  apply (walk_mono _ g g') in Hwalk; [|exact Hmono].
  destruct (bfsWith_correct ACTION_DELTAS g' start goal Hstart')
    as (res' & -> & Hpost').
  destruct res' as [[d' cells']|]; [|by destruct (Hpost' n)].
  destruct Hpost' as (Hpos' & _ & _ & Hmin).
  exists d', cells'. split; [done|]. specialize (Hmin n Hwalk). lia.
Qed.

Lemma bfsShortestPath_after_opening_witness :
  let opened := [ [1; 1; 1; 1; 1];
                  [1; 0; 0; 0; 1];
                  [1; 0; 0; 0; 1];
                  [1; 0; 0; 0; 1];
                  [1; 1; 1; 1; 1] ] in
  let cells := [(1, 1); (2, 1); (3, 1); (3, 2); (3, 3)] in
  rectangular MAZE_RING
  ∧ inGrid MAZE_RING 2 2 = true
  ∧ inGrid MAZE_RING 1 1 = true
  ∧ setCell MAZE_RING 2 2 0 = Returns opened
  ∧ bfsShortestPath MAZE_RING (1, 1) (3, 3) = Returns (Some (4, cells))
  ∧ ∃ d' cells',
      bfsShortestPath opened (1, 1) (3, 3) = Returns (Some (d', cells'))
      ∧ d' ≤ 4.
Proof.
  intros opened cells.
  assert (rectangular MAZE_RING) as Hrect by repeat constructor.
  assert (bfsShortestPath MAZE_RING (1, 1) (3, 3) = Returns (Some (4, cells)))
    as Hres by (by vm_compute).
  split; [exact Hrect|]. split; [reflexivity|]. split; [reflexivity|].
  split; [reflexivity|]. split; [exact Hres|].
  exact (bfsShortestPath_after_opening MAZE_RING opened 2 2 (1, 1) (3, 3) 4
           cells Hrect eq_refl eq_refl eq_refl Hres).
Defined.

(** ** The maze editor *)

Section EditorFacts.

Import MazeEditor.

Implicit Types (s : State) (g : Grid) (p : pos).

Lemma pixelToCell_inside s (x y : Qc) (r c : Z) :
  pixelToCell s x y = Returns (Some (r, c)) → inGrid (grid s) r c = true.
Proof.
  unfold pixelToCell. destruct (grid s) as [|row rest] eqn:Hg; [done|].
  case_decide; [done|]. case_decide as Hb; [|done].
  intros [= <- <-]. apply inGrid_spec. lia.
Qed.

Lemma pixelToCell_total s (x y : Qc) :
  grid s ≠ [] → ∃ cell, pixelToCell s x y = Returns cell.
Proof.
  intros Hg. unfold pixelToCell. destruct (grid s); [done|].
  case_decide; [by eexists|]. case_decide; by eexists.
Qed.

Lemma cellIs_inside g (r c v : Z) :
  inGrid g r c = true →
  cellIs g r c v = Returns (bool_decide (cellAt g r c = Some v)).
Proof.
  intros Hin. apply inGrid_spec in Hin. unfold cellIs.
  rewrite decide_True by lia.
  destruct (lookup_lt_is_Some_2 g (Z.to_nat r)) as [cells ->];
    [unfold gridHeight in Hin; lia|done].
Qed.

Lemma hasMarker_false s (r c : Z) :
  hasMarker s r c = false ↔ ∀ p, p ∈ goal s :: allStarts s → p ≠ (r, c).
Proof.
  unfold hasMarker, allStarts. rewrite !orb_false_iff. split.
  - intros [[Hg Hh] Hs] p Hp Heq. subst p.
    apply elem_of_cons in Hp as [Hp|Hp].
    { rewrite <- Hp, samePos_refl in Hg. done. }
    apply elem_of_app in Hp as [Hp|Hp].
    + assert (existsb (λ st, samePos st (r, c)) (starts s) = true) as Ht.
      { apply existsb_exists. exists (r, c).
        split; [by apply list_elem_of_In|apply samePos_refl]. }
      congruence.
    + destruct (hardStart s) as [h|]; [|by apply elem_of_nil in Hp].
      apply list_elem_of_singleton in Hp. subst h. cbn in Hh.
      by rewrite samePos_refl in Hh.
  - intros Hall. split; [split|].
    + apply samePos_false. apply Hall. left.
    + destruct (hardStart s) as [h|]; [|done]. cbn.
      apply samePos_false. apply Hall. right. apply elem_of_app. right. left.
    + destruct (existsb _ _) eqn:He; [exfalso|done].
      apply existsb_exists in He as (p & Hp & Hsame).
      apply samePos_true in Hsame. apply (Hall p); [|done].
      right. apply elem_of_app. left. by apply list_elem_of_In.
Qed.

(** [_validate] on starts inside the grid: the flag it computes. *)
Lemma validateLoop_correct g (target : pos) (l : list pos) :
  Forall (λ p, inGrid g p.1 p.2 = true) l →
  ∃ b, validateLoop g target l = Returns b
       ∧ (b = true ↔ ∀ p, p ∈ l → ∃ n, walk ACTION_DELTAS g p n target).
Proof.
  induction l as [|p l IH]; intros Hall.
  { exists true. split; [done|]. split; [|done].
    intros _ p Hp. by apply elem_of_nil in Hp. }
  apply Forall_cons in Hall as [Hp Hl]. destruct (IH Hl) as (b & Hb & Hiff).
  cbn [validateLoop]. unfold bfsShortestPath.
  destruct (bfsWith_correct ACTION_DELTAS g p target Hp) as (res & -> & Hpost).
  cbn [runBind]. destruct res as [[d cells]|].
  - exists b. split; [done|]. rewrite Hiff. split.
    + intros Hrest q Hq. apply elem_of_cons in Hq as [->|Hq]; [|by apply Hrest].
      destruct Hpost as (_ & Hr & _).
      apply route_walk in Hr as (n & _ & Hw). by exists n.
    + intros Hall' q Hq. apply Hall'. by right.
  - exists false. split; [done|]. split; [done|].
    intros Hall'. destruct (Hall' p) as [n Hn]; [left|]. by destruct (Hpost n).
Qed.

Lemma validate_spec s :
  wellFormed s →
  ∃ v, validate s = Returns (setValid s v)
       ∧ (v = true ↔
          ∀ p, p ∈ allStarts s → ∃ n, walk ACTION_DELTAS (grid s) p n (goal s)).
Proof.
  intros [_ Hopen]. apply Forall_cons in Hopen as [_ Hopen].
  destruct (validateLoop_correct (grid s) (goal s) (allStarts s))
    as (b & Hb & Hiff).
  { eapply Forall_impl; [exact Hopen|]. intros p. apply openCell_inGrid. }
  exists b. unfold validate. rewrite Hb. done.
Qed.


Lemma markers_alt s (P : pos → Prop) :
  Forall P (goal s :: allStarts s) ↔
  P (goal s) ∧ Forall P (starts s) ∧ ∀ h, hardStart s = Some h → P h.
Proof.
  unfold allStarts. rewrite Forall_cons, Forall_app.
  destruct (hardStart s) as [h|].
  - rewrite Forall_singleton. split.
    + intros (? & ? & ?). split; [done|]. split; [done|]. by intros ? [= <-].
    + intros (? & ? & Hh). split; [done|]. split; [done|]. by apply Hh.
  - split.
    + intros (? & ? & _). split; [done|]. split; [done|]. by intros ? [=].
    + intros (? & ? & _). split; [done|]. split; [done|]. constructor.
Qed.

Lemma openCell_same_grid g g' (r c : Z) :
  gridHeight g' = gridHeight g → gridWidth g' = gridWidth g →
  cellAt g' r c = cellAt g r c →
  openCell g' r c = openCell g r c.
Proof.
  intros Hh Hw Hc. unfold openCell, inGrid. by rewrite Hh, Hw, Hc.
Qed.

(** What an edit keeps: the well-formedness, the size of the grid, the cells
    of its border, and a non-empty list of starts. *)
Lemma edits_keep s s1 :
  wellFormed s → edits s s1 →
  wellFormed s1
  ∧ gridHeight (grid s1) = gridHeight (grid s)
  ∧ gridWidth (grid s1) = gridWidth (grid s)
  ∧ (∀ r c, isBorder s r c = true →
       cellAt (grid s1) r c = cellAt (grid s) r c)
  ∧ (starts s ≠ [] → starts s1 ≠ []).
Proof.
  intros [Hrect Hopen] Hed. pose proof Hopen as Hopen'.
  apply markers_alt in Hopen' as (Hg & Hs & Hh).
  destruct Hed as [s1 Hgrid Hst Hhd Hgl
                  |s1 r c v Hin Hb Hm Hset Hst Hhd Hgl
                  |s1 r c Ho Hgrid Hst Hhd Hgl
                  |s1 idx Hlen Hidx Hgrid Hst Hhd Hgl
                  |s1 r c Ho Hgrid Hst Hhd Hgl
                  |s1 r c Ho Hgrid Hst Hhd Hgl].
  - split; [|by rewrite Hgrid, Hst].
    split; [by rewrite Hgrid|]. apply markers_alt.
    rewrite Hgrid, Hst, Hhd, Hgl. done.
  - destruct (setCell_rectangular (grid s) r c v Hrect Hin)
      as (g' & Hset' & Hrect' & Hh' & Hw' & Hat).
    rewrite Hset in Hset'. injection Hset' as <-.
    split; [|split; [done|split; [done|split]]].
    + split; [done|]. apply markers_alt. rewrite Hst, Hhd, Hgl.
      assert (∀ p, p ∈ goal s :: allStarts s →
                openCell (grid s) p.1 p.2 = true →
                openCell (grid s1) p.1 p.2 = true) as Hkeep.
      { intros p Hp Hpo. rewrite <- Hpo. apply openCell_same_grid; [done..|].
        rewrite Hat. rewrite decide_False; [done|].
        intros [H1 H2]. apply (proj1 (hasMarker_false s r c) Hm p Hp).
        destruct p; cbn in *; by subst. }
      split; [|split].
      * apply Hkeep; [left|done].
      * apply Forall_forall. intros p Hp. apply Hkeep.
        -- right. unfold allStarts. apply elem_of_app. by left.
        -- by apply (proj1 (Forall_forall _ _) Hs).
      * intros h Hhs. apply Hkeep; [|by apply Hh].
        right. unfold allStarts. apply elem_of_app. right. rewrite Hhs. left.
    + intros r' c' Hb'. rewrite Hat. rewrite decide_False; [done|].
      intros [-> ->]. congruence.
    + by rewrite Hst.
  - split; [|by rewrite Hgrid, Hst; repeat split; try done; intros _ Hnil;
              apply app_eq_nil in Hnil as [_ ?]].
    split; [by rewrite Hgrid|]. apply markers_alt.
    rewrite Hgrid, Hst, Hhd, Hgl. split; [done|]. split; [|done].
    apply Forall_app. split; [done|]. by apply Forall_singleton.
  - split; [|rewrite Hgrid, Hst; repeat split; try done].
    + split; [by rewrite Hgrid|]. apply markers_alt.
      rewrite Hgrid, Hst, Hhd, Hgl. split; [done|]. split; [|done].
      by apply Forall_delete.
    + intros _ Hnil. apply (f_equal length) in Hnil.
      rewrite length_delete in Hnil by done. simpl in Hnil. lia.
  - split; [|by rewrite Hgrid, Hst].
    split; [by rewrite Hgrid|]. apply markers_alt.
    rewrite Hgrid, Hst, Hhd, Hgl. split; [done|]. split; [done|].
    by intros h [= <-].
  - split; [|by rewrite Hgrid, Hst].
    split; [by rewrite Hgrid|]. apply markers_alt.
    rewrite Hgrid, Hst, Hhd, Hgl. done.
Qed.


Lemma wellFormed_nonempty s : wellFormed s → grid s ≠ [].
Proof.
  intros [_ Hopen]. apply Forall_cons in Hopen as [Hg _].
  by apply openCell_inGrid, inGrid_nonempty in Hg.
Qed.

(** An edit followed by [_validate] returns. *)
Lemma validate_after_edit s s1 :
  wellFormed s → edits s s1 → ∃ s', validate s1 = Returns s'.
Proof.
  intros Hwf Hed. destruct (edits_keep s s1 Hwf Hed) as [Hwf1 _].
  destruct (validate_spec s1 Hwf1) as (v & Hv & _). by eexists.
Qed.

(** What a mouse event does to a well-formed editor: nothing to the grid,
    the markers and the flag, or one edit followed by [_validate]. *)
Lemma handle_edits s (ev : Event) :
  wellFormed s →
  ∃ s', handle s ev = Returns s'
        ∧ ((grid s' = grid s ∧ starts s' = starts s
            ∧ hardStart s' = hardStart s ∧ goal s' = goal s
            ∧ valid s' = valid s)
           ∨ ∃ s1, edits s s1 ∧ validate s1 = Returns s').
Proof.
  intros Hwf. pose proof (wellFormed_nonempty s Hwf) as Hne.
  assert (∀ s1, edits s s1 →
            ∃ s', validate s1 = Returns s'
                  ∧ ((grid s' = grid s ∧ starts s' = starts s
                      ∧ hardStart s' = hardStart s ∧ goal s' = goal s
                      ∧ valid s' = valid s)
                     ∨ ∃ s2, edits s s2 ∧ validate s2 = Returns s'))
    as Hval.
  { intros s1 Hed. destruct (validate_after_edit s s1 Hwf Hed) as [s' Hs'].
    exists s'. split; [done|]. right. by exists s1. }
  assert (∀ s1, grid s1 = grid s → starts s1 = starts s →
            hardStart s1 = hardStart s → goal s1 = goal s →
            valid s1 = valid s →
            ∃ s', Returns s1 = Returns s'
                  ∧ ((grid s' = grid s ∧ starts s' = starts s
                      ∧ hardStart s' = hardStart s ∧ goal s' = goal s
                      ∧ valid s' = valid s)
                     ∨ ∃ s2, edits s s2 ∧ validate s2 = Returns s'))
    as Hsame.
  { intros s1 ? ? ? ? ?. exists s1. split; [done|]. by left. }
  destruct ev as [e|e| |]; cbn [handle].
  - unfold handleMouseMove.
    destruct (pixelToCell_total s (canvasX e) (canvasY e) Hne) as [cell Hcell].
    rewrite Hcell. cbn [runBind]. destruct cell as [[r c]|]; [|by apply Hsame].
    apply pixelToCell_inside in Hcell.
    destruct (painting (setHoverCell s (Some (r, c)))
              && negb (isBorder (setHoverCell s (Some (r, c))) r c)
              && negb (hasMarker (setHoverCell s (Some (r, c))) r c)) eqn:Hif;
      [|by apply Hsame].
    apply andb_true_iff in Hif as [Hif Hm].
    apply andb_true_iff in Hif as [_ Hb].
    apply negb_true_iff in Hm, Hb.
    destruct Hwf as [Hrect Hopen].
    destruct (setCell_rectangular (grid s) r c (paintVal s) Hrect Hcell)
      as (g' & Hset & _).
    cbn [grid paintVal setHoverCell]. rewrite Hset. cbn [runBind].
    apply Hval. by apply (edit_paint s _ r c (paintVal s)).
  - unfold handleMouseDown.
    destruct (pixelToCell_total s (canvasX e) (canvasY e) Hne) as [cell Hcell].
    rewrite Hcell. cbn [runBind]. destruct cell as [[r c]|]; [|by apply Hsame].
    apply pixelToCell_inside in Hcell.
    destruct (isBorder s r c) eqn:Hb; [by apply Hsame|].
    assert (bool_decide (cellAt (grid s) r c = Some 0) = true →
            openCell (grid s) r c = true) as Hopen0.
    { intros H0. unfold openCell. by rewrite Hcell, H0. }
    destruct (shiftKey e).
    { unfold toggleStart. rewrite (cellIs_inside _ _ _ _ Hcell).
      cbn [runBind].
      destruct (bool_decide (cellAt (grid s) r c = Some 0));
        cbn [runBind]; [|apply Hval; by constructor].
      destruct (list_find _ (starts s)) as [[idx st]|] eqn:Hfind.
      - destruct (decide (1 < length (starts s))%nat) as [Hlen|Hlen];
          cbn [runBind]; [|apply Hval; by constructor].
        apply list_find_Some in Hfind as (Hidx & _ & _).
        apply Hval. by apply (edit_remove s _ idx).
      - cbn [runBind]. apply Hval. apply (edit_add s _ r c); auto. }
    destruct (altKey e).
    { rewrite (cellIs_inside _ _ _ _ Hcell). cbn [runBind].
      destruct (bool_decide (cellAt (grid s) r c = Some 0));
        apply Hval; [apply (edit_hard s _ r c); auto|by constructor]. }
    destruct (ctrlKey e || metaKey e).
    { rewrite (cellIs_inside _ _ _ _ Hcell). cbn [runBind].
      destruct (bool_decide (cellAt (grid s) r c = Some 0));
        apply Hval; [apply (edit_goal s _ r c); auto|by constructor]. }
    destruct (hasMarker s r c) eqn:Hm; [by apply Hsame|].
    rewrite (cellIs_inside _ _ _ _ Hcell). cbn [runBind].
    destruct Hwf as [Hrect Hopen].
    set (newVal := if bool_decide (cellAt (grid s) r c = Some 1) then 0 else 1).
    destruct (setCell_rectangular (grid s) r c newVal Hrect Hcell)
      as (g' & Hset & _).
    rewrite Hset. cbn [runBind].
    apply Hval. by apply (edit_paint s _ r c newVal).
  - by apply Hsame.
  - by apply Hsame.
Qed.

End EditorFacts.

(** X24.  No mouse event makes a well-formed editor throw, and the editor
    stays well formed: the grid stays rectangular, the goal, the easy starts
    and the hard start stay on path cells, and the list of easy starts does
    not become empty. *)
Theorem editor_stays_well_formed (s : MazeEditor.State)
    (ev : MazeEditor.Event) :
  MazeEditor.wellFormed s →
  ∃ s', MazeEditor.handle s ev = Returns s'
        ∧ MazeEditor.wellFormed s'
        ∧ (MazeEditor.starts s ≠ [] → MazeEditor.starts s' ≠ []).
Proof.
  intros Hwf. destruct (handle_edits s ev Hwf) as (s' & Hs' & Hcases).
  exists s'. split; [exact Hs'|].
  destruct Hcases as [(Hg & Hst & Hh & Hgl & _)|(s1 & Hed & Hval)].
  - destruct (edits_keep s s' Hwf (MazeEditor.edit_none s s' Hg Hst Hh Hgl))
      as (Hwf' & _ & _ & _ & Hne).
    by split.
  - destruct (edits_keep s s1 Hwf Hed) as (Hwf1 & _ & _ & _ & Hne).
    destruct (validate_spec s1 Hwf1) as (v & Hv & _).
    rewrite Hv in Hval. injection Hval as <-. by split.
Qed.

(** X25.  Mouse events never change the size of the grid of a well-formed
    editor, nor any cell on its border. *)
Theorem editor_border_fixed (s : MazeEditor.State) (ev : MazeEditor.Event) :
  MazeEditor.wellFormed s →
  ∃ s', MazeEditor.handle s ev = Returns s'
        ∧ gridHeight (MazeEditor.grid s') = gridHeight (MazeEditor.grid s)
        ∧ gridWidth (MazeEditor.grid s') = gridWidth (MazeEditor.grid s)
        ∧ ∀ r c, MazeEditor.isBorder s r c = true →
            cellAt (MazeEditor.grid s') r c = cellAt (MazeEditor.grid s) r c.
Proof.
  intros Hwf. destruct (handle_edits s ev Hwf) as (s' & Hs' & Hcases).
  exists s'. split; [exact Hs'|].
  destruct Hcases as [(Hg & _)|(s1 & Hed & Hval)].
  - rewrite Hg. by split.
  - destruct (edits_keep s s1 Hwf Hed) as (Hwf1 & Hh & Hw & Hb & _).
    destruct (validate_spec s1 Hwf1) as (v & Hv & _).
    rewrite Hv in Hval. injection Hval as <-.
    split; [exact Hh|]. split; [exact Hw|exact Hb].
Qed.

(** X26.  The flag [valid] stays right under mouse events: when it told,
    before the event, whether the goal can be reached from every easy start
    and from the hard start, it tells so after the event, for the grid and
    the markers as the event left them. *)
Theorem editor_valid_flag (s : MazeEditor.State) (ev : MazeEditor.Event) :
  MazeEditor.wellFormed s → MazeEditor.validCorrect s →
  ∃ s', MazeEditor.handle s ev = Returns s' ∧ MazeEditor.validCorrect s'.
Proof.
  intros Hwf Hvc. destruct (handle_edits s ev Hwf) as (s' & Hs' & Hcases).
  exists s'. split; [exact Hs'|].
  destruct Hcases as [(Hg & Hst & Hh & Hgl & Hv)|(s1 & Hed & Hval)].
  - unfold MazeEditor.validCorrect, MazeEditor.allStarts in *.
    by rewrite Hg, Hst, Hh, Hgl, Hv.
  - destruct (edits_keep s s1 Hwf Hed) as (Hwf1 & _).
    destruct (validate_spec s1 Hwf1) as (v & Hv & Hiff).
    rewrite Hv in Hval. injection Hval as <-. exact Hiff.
Qed.

Lemma defaultEditor_wellFormed : MazeEditor.wellFormed MazeEditor.defaultEditor.
Proof. split; repeat constructor. Qed.

Lemma defaultEditor_validCorrect :
  MazeEditor.validCorrect MazeEditor.defaultEditor.
Proof.
  destruct (validate_spec _ defaultEditor_wellFormed) as (v & Hv & Hiff).
  assert (v = true) as ->.
  { apply (f_equal (λ r, runBind r (λ s', Returns (MazeEditor.valid s'))))
      in Hv. vm_compute in Hv. by injection Hv. }
  exact Hiff.
Qed.

Lemma editor_stays_well_formed_witness :
  MazeEditor.wellFormed MazeEditor.defaultEditor
  ∧ runBind (MazeEditor.handle MazeEditor.defaultEditor MazeEditor.wallClick)
      (λ s', Returns (cellAt (MazeEditor.grid s') 1 2, MazeEditor.valid s'))
    = Returns (Some 1, true)
  ∧ ∃ s', MazeEditor.handle MazeEditor.defaultEditor MazeEditor.wallClick
          = Returns s'
          ∧ MazeEditor.wellFormed s'
          ∧ (MazeEditor.starts MazeEditor.defaultEditor ≠ [] →
             MazeEditor.starts s' ≠ []).
Proof.
  split; [exact defaultEditor_wellFormed|]. split; [by vm_compute|].
  exact (editor_stays_well_formed MazeEditor.defaultEditor MazeEditor.wallClick
           defaultEditor_wellFormed).
Defined.

Lemma editor_border_fixed_witness :
  MazeEditor.wellFormed MazeEditor.defaultEditor
  ∧ ∃ s', MazeEditor.handle MazeEditor.defaultEditor MazeEditor.wallClick
          = Returns s'
          ∧ gridHeight (MazeEditor.grid s')
            = gridHeight (MazeEditor.grid MazeEditor.defaultEditor)
          ∧ gridWidth (MazeEditor.grid s')
            = gridWidth (MazeEditor.grid MazeEditor.defaultEditor)
          ∧ ∀ r c, MazeEditor.isBorder MazeEditor.defaultEditor r c = true →
              cellAt (MazeEditor.grid s') r c
              = cellAt (MazeEditor.grid MazeEditor.defaultEditor) r c.
Proof.
  split; [exact defaultEditor_wellFormed|].
  exact (editor_border_fixed MazeEditor.defaultEditor MazeEditor.wallClick
           defaultEditor_wellFormed).
Defined.

Lemma editor_valid_flag_witness :
  MazeEditor.wellFormed MazeEditor.defaultEditor
  ∧ MazeEditor.validCorrect MazeEditor.defaultEditor
  ∧ runBind (MazeEditor.handle MazeEditor.defaultEditor MazeEditor.startClick)
      (λ s', Returns (MazeEditor.starts s', MazeEditor.valid s'))
    = Returns ([(1, 1); (1, 3)], true)
  ∧ ∃ s', MazeEditor.handle MazeEditor.defaultEditor MazeEditor.startClick
          = Returns s'
          ∧ MazeEditor.validCorrect s'.
Proof.
  split; [exact defaultEditor_wellFormed|].
  split; [exact defaultEditor_validCorrect|]. split; [by vm_compute|].
  exact (editor_valid_flag MazeEditor.defaultEditor MazeEditor.startClick
           defaultEditor_wellFormed defaultEditor_validCorrect).
Defined.

(** The default editor is what [loadDefault] leaves behind. *)
Example loadDefault_defaultEditor :
  runBind (MazeEditor.loadDefault MazeEditor.defaultEditor)
    (λ s', Returns (MazeEditor.offsetX s', MazeEditor.offsetY s',
                    MazeEditor.valid s'))
  = Returns (502, 212, true).
Proof. by vm_compute. Qed.

Section PixelFacts.

Open Scope Qc_scope.

(** [Math.floor(q)] is [n] exactly when [n <= q < n + 1]. *)
Lemma floorQc_spec (q : Qc) (n : Z) :
  floorQc q = n ↔ Qc_of_Z n <= q ∧ q < Qc_of_Z (n + 1).
Proof.
  unfold floorQc. split.
  - intros <-. split; [apply Qfloor_le|apply Qlt_floor].
  - intros [Hle Hlt]. apply Z.le_antisymm.
    + apply Z.lt_succ_r. rewrite Zlt_Qlt.
      eapply Qle_lt_trans; [apply Qfloor_le|exact Hlt].
    + rewrite <- (Qfloor_Z n). by apply Qfloor_resp_le.
Qed.

Lemma mult_le_div (a b c : Qc) : 0 < c → a * c <= b ↔ a <= b / c.
Proof.
  intros Hc. assert (c ≠ 0) as Hnz by (apply not_eq_sym; by apply Qclt_not_eq).
  split; intros H.
  - apply (Qcmult_lt_0_le_reg_r _ _ c Hc).
    replace (b / c * c) with b by (field; done). done.
  - replace b with (b / c * c) by (field; done).
    apply Qcmult_le_compat_r; [done|by apply Qclt_le_weak].
Qed.

Lemma div_lt_mult (a b c : Qc) : 0 < c → b < a * c ↔ b / c < a.
Proof.
  intros Hc. split; intros H; apply Qcnot_le_lt; intros Hle;
    eapply Qclt_not_le; try exact H.
  - by apply mult_le_div.
  - by apply mult_le_div.
Qed.

Lemma le_shift (a b c : Qc) : a <= b - c ↔ c + a <= b.
Proof.
  split; intros H.
  - replace b with (c + (b - c)) by ring.
    apply Qcplus_le_compat; [apply Qcle_refl|done].
  - replace a with (c + a + - c) by ring. unfold Qcminus.
    apply Qcplus_le_compat; [done|apply Qcle_refl].
Qed.

Lemma lt_shift (a b c : Qc) : b - c < a ↔ b < c + a.
Proof.
  split; intros H; apply Qcnot_le_lt; intros Hle;
    eapply Qclt_not_le; try exact H; by apply le_shift.
Qed.

(** The cell of a coordinate: the [n]-th stretch of [cellPx] pixels from
    the offset. *)
Lemma floor_cell (x cp : Qc) (off n : Z) :
  0 < cp →
  floorQc ((x - Qc_of_Z off) / cp) = n ↔
  Qc_of_Z off + Qc_of_Z n * cp <= x
  ∧ x < Qc_of_Z off + Qc_of_Z (n + 1) * cp.
Proof.
  intros Hcp. rewrite floorQc_spec.
  rewrite <- (mult_le_div _ _ _ Hcp), <- (div_lt_mult _ _ _ Hcp).
  by rewrite le_shift, lt_shift.
Qed.

End PixelFacts.

(** X27.  [_pixelToCell] undoes the placement of the cells on the canvas: for
    a cell inside the grid and a positive cell size, a pixel is mapped to
    the cell exactly when it lies in the square that [draw] fills for it,
    the [cellPx] pixels from [offsetX + c * cellPx] and from
    [offsetY + r * cellPx]; and whatever it returns is a cell inside the
    grid. *)
Theorem pixelToCell_round_trip (s : MazeEditor.State) (x y : Qc) (r c : Z) :
  (0 < MazeEditor.cellPx s)%Qc →
  inGrid (MazeEditor.grid s) r c = true →
  (MazeEditor.pixelToCell s x y = Returns (Some (r, c)) ↔
   (Qc_of_Z (MazeEditor.offsetX s) + Qc_of_Z c * MazeEditor.cellPx s <= x)%Qc
   ∧ (x < Qc_of_Z (MazeEditor.offsetX s)
          + Qc_of_Z (c + 1) * MazeEditor.cellPx s)%Qc
   ∧ (Qc_of_Z (MazeEditor.offsetY s) + Qc_of_Z r * MazeEditor.cellPx s <= y)%Qc
   ∧ (y < Qc_of_Z (MazeEditor.offsetY s)
          + Qc_of_Z (r + 1) * MazeEditor.cellPx s)%Qc)
  ∧ ∀ cell, MazeEditor.pixelToCell s x y = Returns (Some cell) →
      inGrid (MazeEditor.grid s) cell.1 cell.2 = true.
Proof.
  intros Hcp Hin. split.
  2:{ intros [r' c'] Hcell. by apply pixelToCell_inside in Hcell. }
  pose proof (floor_cell x (MazeEditor.cellPx s) (MazeEditor.offsetX s) c Hcp)
    as Hx.
  pose proof (floor_cell y (MazeEditor.cellPx s) (MazeEditor.offsetY s) r Hcp)
    as Hy.
  pose proof (inGrid_nonempty _ _ _ Hin) as Hne.
  apply inGrid_spec in Hin.
  unfold MazeEditor.pixelToCell.
  destruct (MazeEditor.grid s) as [|row rest] eqn:Hg; [done|].
  rewrite decide_False by (apply not_eq_sym; by apply Qclt_not_eq).
  set (fr := floorQc ((y - Qc_of_Z (MazeEditor.offsetY s))
                      / MazeEditor.cellPx s)) in *.
  set (fc := floorQc ((x - Qc_of_Z (MazeEditor.offsetX s))
                      / MazeEditor.cellPx s)) in *.
  split.
  - case_decide; [|done]. intros [= Hr Hc].
    destruct (proj1 Hx Hc) as [? ?]. destruct (proj1 Hy Hr) as [? ?]. done.
  - intros (H1 & H2 & H3 & H4).
    assert (fc = c) as -> by (apply Hx; by split).
    assert (fr = r) as -> by (apply Hy; by split).
    rewrite decide_True by lia. done.
Qed.

Lemma pixelToCell_round_trip_witness :
  (0 < MazeEditor.cellPx MazeEditor.defaultEditor)%Qc
  ∧ inGrid (MazeEditor.grid MazeEditor.defaultEditor) 1 2 = true
  ∧ MazeEditor.pixelToCell MazeEditor.defaultEditor (Qc_of_Z 579) (Qc_of_Z 253)
    = Returns (Some (1, 2))
  ∧ (MazeEditor.pixelToCell MazeEditor.defaultEditor (Qc_of_Z 579) (Qc_of_Z 253)
     = Returns (Some (1, 2)) ↔
     (Qc_of_Z 502 + Qc_of_Z 2 * Qc_of_Z 36 <= Qc_of_Z 579)%Qc
     ∧ (Qc_of_Z 579 < Qc_of_Z 502 + Qc_of_Z (2 + 1) * Qc_of_Z 36)%Qc
     ∧ (Qc_of_Z 212 + Qc_of_Z 1 * Qc_of_Z 36 <= Qc_of_Z 253)%Qc
     ∧ (Qc_of_Z 253 < Qc_of_Z 212 + Qc_of_Z (1 + 1) * Qc_of_Z 36)%Qc)
  ∧ ∀ cell,
      MazeEditor.pixelToCell MazeEditor.defaultEditor (Qc_of_Z 579)
        (Qc_of_Z 253) = Returns (Some cell) →
      inGrid (MazeEditor.grid MazeEditor.defaultEditor) cell.1 cell.2 = true.
Proof.
  split; [by vm_compute|]. split; [reflexivity|]. split; [by vm_compute|].
  apply (pixelToCell_round_trip MazeEditor.defaultEditor
           (Qc_of_Z 579) (Qc_of_Z 253) 1 2); [by vm_compute|reflexivity].
Defined.

(** ** Heat maps *)

Section HeatmapFacts.

Variable exp : Qc → Qc.
Variable random : nat → Qc.

Open Scope Qc_scope.

Implicit Types (visits : list Qc) (cells : list pos).

(** The running maximum of the normalisation loop. *)
Lemma maxVisit_fold visits (m0 : Qc) :
  let m := foldl (λ mx v, if decide (mx < v) then v else mx) m0 visits in
  m0 <= m ∧ (∀ v, v ∈ visits → v <= m) ∧ (m = m0 ∨ m ∈ visits).
Proof.
  revert m0. induction visits as [|x visits IH]; intros m0; cbn [foldl].
  { split; [apply Qcle_refl|]. split; [|by left].
    intros v Hv. by apply elem_of_nil in Hv. }
  set (m1 := if decide (m0 < x) then x else m0).
  assert (m0 <= m1 ∧ x <= m1 ∧ (m1 = m0 ∨ m1 = x)) as (H0 & Hx & Hm1).
  { subst m1. case_decide as Hlt.
    - split; [by apply Qclt_le_weak|]. split; [apply Qcle_refl|by right].
    - split; [apply Qcle_refl|]. split; [by apply Qcnot_lt_le|by left]. }
  destruct (IH m1) as (H1 & Hall & Hin). cbv zeta in *.
  split; [by eapply Qcle_trans|]. split.
  - intros v Hv. apply elem_of_cons in Hv as [->|Hv]; [|by apply Hall].
    by eapply Qcle_trans.
  - destruct Hin as [->|Hin]; [|right; by right].
    destruct Hm1 as [->| ->]; [by left|right; left].
Qed.

Lemma maxVisit_spec visits :
  0 <= maxVisit visits
  ∧ (∀ v, v ∈ visits → v <= maxVisit visits)
  ∧ (maxVisit visits = 0 ∨ maxVisit visits ∈ visits).
Proof. apply (maxVisit_fold visits 0). Qed.

(** Counts divided by the largest of them. *)
Lemma normalise_spec visits :
  Forall (λ v, 0 <= v) visits →
  length (normalise visits) = length visits
  ∧ Forall (λ v, 0 <= v ∧ v <= 1) (normalise visits)
  ∧ (1 ∈ normalise visits ∨ Forall (λ v, v = 0) (normalise visits))
  ∧ (0 < maxVisit visits → 1 ∈ normalise visits).
Proof.
  intros Hnn. rewrite Forall_forall in Hnn.
  destruct (maxVisit_spec visits) as (Hm0 & Hall & Hin).
  unfold normalise. cbv zeta. case_decide as Hpos.
  - assert (1 ∈ map (λ v, v / maxVisit visits) visits) as Hone.
    { destruct Hin as [Hz|Hin]; [rewrite Hz in Hpos; by apply Qclt_not_eq in Hpos|].
      apply list_elem_of_fmap. exists (maxVisit visits). split; [|done].
      unfold Qcdiv. symmetry. apply Qcmult_inv_r, not_eq_sym.
      by apply Qclt_not_eq. }
    split; [apply length_map|]. split; [|split; [by left|done]].
    apply Forall_forall. intros q Hq.
    apply list_elem_of_fmap in Hq as (v & -> & Hv). split.
    + apply NumOrd.div_nonneg; [by apply Hnn|done].
    + apply NumOrd.div_le_1; [by apply Hall|done].
  - assert (∀ v, v ∈ visits → v = 0) as Hzero.
    { intros v Hv. apply Qcle_antisym; [|by apply Hnn].
      eapply Qcle_trans; [by apply Hall|]. by apply Qcnot_lt_le. }
    split; [done|]. split; [|split; [right|done]].
    + apply Forall_forall. intros v Hv. rewrite (Hzero v Hv).
      split; [apply Qcle_refl|apply NumOrd.le_0_1].
    + by apply Forall_forall.
Qed.

(** Counting a visit adds 1 to at most one slot and lowers none. *)
Lemma addAt_one visits (i : Z) :
  Forall (λ v, 0 <= v) visits →
  Forall (λ v, 0 <= v) (addAt visits i 1)
  ∧ ∀ j v, visits !! j = Some v →
      ∃ v', addAt visits i 1 !! j = Some v' ∧ v <= v'
            ∧ (i = Z.of_nat j → v' = v + 1).
Proof.
  intros Hnn. unfold addAt, readZ.
  destruct (decide (0 ≤ i)%Z) as [Hi|Hi].
  2:{ split; [done|]. intros j v Hj. exists v.
      split; [done|]. split; [apply Qcle_refl|lia]. }
  destruct (visits !! Z.to_nat i) as [x|] eqn:Hx.
  2:{ split; [done|]. intros j v Hj. exists v.
      split; [done|]. split; [apply Qcle_refl|].
      intros ->. rewrite Nat2Z.id in Hx. congruence. }
  split.
  - apply Forall_insert; [done|]. apply NumOrd.plus_nonneg.
    + apply (proj1 (Forall_forall _ _) Hnn). by eapply list_elem_of_lookup_2.
    + apply NumOrd.le_0_1.
  - intros j v Hj. destruct (decide (j = Z.to_nat i)) as [->|Hne].
    + rewrite Hx in Hj. injection Hj as <-. exists (x + 1).
      rewrite list_lookup_insert_eq by (by eapply lookup_lt_Some).
      split; [done|]. split; [|done].
      apply NumOrd.le_plus_r, NumOrd.le_0_1.
    + exists v. rewrite list_lookup_insert_ne by done.
      split; [done|]. split; [apply Qcle_refl|lia].
Qed.

Lemma countVisits_spec (w : Z) visits cells :
  Forall (λ v, 0 <= v) visits →
  Forall (λ v, 0 <= v) (countVisits w visits cells)
  ∧ length (countVisits w visits cells) = length visits
  ∧ ∀ j v, visits !! j = Some v →
      ∃ v', countVisits w visits cells !! j = Some v' ∧ v <= v'
            ∧ (∀ r c, cells !! 0%nat = Some (r, c) →
                 (r * w + c)%Z = Z.of_nat j → v + 1 <= v').
Proof.
  revert visits. induction cells as [|[r c] cells IH]; intros visits Hnn.
  { split; [done|]. split; [done|]. intros j v Hj. exists v.
    split; [done|]. split; [apply Qcle_refl|]. intros r c Hc. done. }
  cbn [countVisits foldl]. fold (countVisits w (addAt visits (r * w + c) 1) cells).
  destruct (addAt_one visits (r * w + c) Hnn) as [Hnn1 Hup].
  destruct (IH _ Hnn1) as (Hnn2 & Hlen & Hup2).
  split; [done|]. split; [by rewrite Hlen, addAt_length|].
  intros j v Hj. destruct (Hup j v Hj) as (v1 & Hv1 & Hle1 & Heq1).
  destruct (Hup2 j v1 Hv1) as (v2 & Hv2 & Hle2 & _).
  exists v2. split; [done|]. split; [by eapply Qcle_trans|].
  intros r' c' [= <- <-] Hidx. rewrite <- (Heq1 Hidx). done.
Qed.

Lemma heatmapLoop_spec p e (st : option pos) n maxSteps visits
    (paths : list (list pos)) k :
  Forall (λ v, 0 <= v) visits →
  Forall (λ cells, last cells = Some (goal e)) paths →
  let res := heatmapLoop exp random p e st n maxSteps visits paths k in
  let s := default (start e) st in
  Forall (λ v, 0 <= v) res.1.1
  ∧ length res.1.1 = length visits
  ∧ Forall (λ cells, last cells = Some (goal e)) res.1.2
  ∧ (length res.1.2 ≤ length paths + n)%nat
  ∧ ∀ j v, visits !! j = Some v →
      ∃ v', res.1.1 !! j = Some v' ∧ v <= v'
            ∧ ((0 < n)%nat →
               (s.1 * gridWidth (grid e) + s.2)%Z = Z.of_nat j → v + 1 <= v').
Proof.
  revert visits paths k. induction n as [|n IH]; intros visits paths k Hnn Hp;
    cbn [heatmapLoop].
  { cbn [fst snd]. split; [done|]. split; [done|]. split; [done|].
    split; [lia|]. intros j v Hj. exists v. split; [done|].
    split; [apply Qcle_refl|lia]. }
  destruct (rollout_inv exp random p e st maxSteps k)
    as (_ & Hgoal & _ & _ & _ & Hfirst).
  destruct (rollout exp random p e st maxSteps k) as [traj k1].
  cbn [fst snd] in Hgoal, Hfirst.
  destruct (countVisits_spec (gridWidth (grid e)) visits (path traj) Hnn)
    as (Hnn1 & Hlen1 & Hup1).
  assert (Forall (λ cells, last cells = Some (goal e))
            (if reachedGoal traj then paths ++ [path traj] else paths))
    as Hp1.
  { destruct (reachedGoal traj) eqn:Hr; [|done].
    apply Forall_app. split; [done|]. apply Forall_singleton. by apply Hgoal. }
  specialize (IH _ _ k1 Hnn1 Hp1). cbv zeta in IH.
  destruct IH as (H1 & H2 & H3 & H4 & H5).
  split; [done|]. split; [by rewrite H2|]. split; [done|]. split.
  - etransitivity; [exact H4|]. destruct (reachedGoal traj);
      rewrite ?length_app; simpl; lia.
  - intros j v Hj. destruct (Hup1 j v Hj) as (v1 & Hv1 & Hle1 & Hfirst1).
    destruct (H5 j v1 Hv1) as (v2 & Hv2 & Hle2 & _).
    exists v2. split; [done|]. split; [by eapply Qcle_trans|].
    intros _ Hidx. eapply Qcle_trans; [|exact Hle2].
    destruct (default (start e) st) as [r c]. by apply (Hfirst1 r c).
Qed.

End HeatmapFacts.

(** X28.  The heat map that [generateHeatmap] returns has one value for each
    cell of the grid, every value lies between 0 and 1, and the largest is
    exactly 1 unless no visit was counted, which cannot happen when at least
    one rollout is made from a start inside the grid; the paths
    returned are at most [nRollouts], and each ends at the goal. *)
Theorem generateHeatmap_normalised (exp : Qc → Qc) (random : nat → Qc)
    (l : list Qc) (e : GridWorld) (st : option pos) (nRollouts maxSteps k : nat)
    (visits : list Qc) (paths : list (list pos)) (k' : nat) :
  generateHeatmap exp random l e st nRollouts maxSteps k
  = Returns (visits, paths, k') →
  let s := default (start e) st in
  length visits = Z.to_nat (gridHeight (grid e) * gridWidth (grid e))
  ∧ Forall (λ v, (0 <= v)%Qc ∧ (v <= 1)%Qc) visits
  ∧ (1%Qc ∈ visits ∨ Forall (λ v, v = 0%Qc) visits)
  ∧ ((0 < nRollouts)%nat → inBounds e s.1 s.2 = true → 1%Qc ∈ visits)
  ∧ (length paths ≤ nRollouts)%nat
  ∧ Forall (λ cells, last cells = Some (goal e)) paths.
Proof.
  unfold generateHeatmap. destruct (heatmapPolicy l e) as [| |p]; [done..|].
  cbn [runBind].
  set (cells := Z.to_nat (gridHeight (grid e) * gridWidth (grid e))).
  assert (Forall (λ v, (0 <= v)%Qc) (replicate cells 0%Qc)) as Hzero.
  { apply Forall_forall. intros v Hv. apply elem_of_replicate in Hv as [-> _].
    apply Qcle_refl. }
  pose proof (heatmapLoop_spec exp random p e st nRollouts maxSteps
                (replicate cells 0%Qc) [] k Hzero (Forall_nil_2 _)) as Hloop.
  cbv zeta in Hloop.
  destruct (heatmapLoop exp random p e st nRollouts maxSteps
              (replicate cells 0%Qc) [] k) as [[counts found] k1].
  cbn [fst snd length] in Hloop.
  destruct Hloop as (Hnn & Hlen & Hgoal & Hcount & Hup).
  intros [= <- <- <-]. cbv zeta. set (s := default (start e) st).
  destruct (normalise_spec counts Hnn) as (Hnl & Hrange & Hone & Hpos).
  split; [by rewrite Hnl, Hlen, length_replicate|]. split; [exact Hrange|].
  split; [exact Hone|]. split; [|split; [lia|exact Hgoal]].
  intros Hn Hin. apply Hpos.
  unfold inBounds in Hin. apply inGrid_spec in Hin.
  set (j := Z.to_nat (s.1 * gridWidth (grid e) + s.2)).
  assert (j < cells)%nat as Hj by (subst j cells; nia).
  destruct (Hup j 0%Qc) as (v' & Hv' & _ & Hge);
    [by apply lookup_replicate_2|].
  specialize (Hge Hn ltac:(subst j s; nia)).
  destruct (maxVisit_spec counts) as (_ & Hall & _).
  eapply Qclt_le_trans; [apply NumOrd.lt_0_1|].
  eapply Qcle_trans; [|apply (Hall v'); by eapply list_elem_of_lookup_2].
  by replace (0 + 1)%Qc with 1%Qc in Hge by ring.
Qed.

(** X29.  [generateHeatmapMultistart] returns a heat map with one value
    between 0 and 1 for each cell of the grid, the largest being 1 unless
    no visit was counted, and one list of paths for each start, in the
    order of the starts, each with at most [nPerStart] paths that end at the
    goal. *)
Theorem generateHeatmapMultistart_normalised (exp : Qc → Qc)
    (random : nat → Qc) (l : list Qc) (e : GridWorld) (starts : list pos)
    (nPerStart maxSteps k : nat) (visits : list Qc)
    (pathsPerStart : list (list (list pos))) (k' : nat) :
  generateHeatmapMultistart exp random l e starts nPerStart maxSteps k
  = Returns (visits, pathsPerStart, k') →
  length visits = Z.to_nat (gridHeight (grid e) * gridWidth (grid e))
  ∧ Forall (λ v, (0 <= v)%Qc ∧ (v <= 1)%Qc) visits
  ∧ (1%Qc ∈ visits ∨ Forall (λ v, v = 0%Qc) visits)
  ∧ length pathsPerStart = length starts
  ∧ Forall (λ paths, (length paths ≤ nPerStart)%nat
                     ∧ Forall (λ cells, last cells = Some (goal e)) paths)
           pathsPerStart.
Proof.
  unfold generateHeatmapMultistart.
  destruct (heatmapPolicy l e) as [| |p]; [done..|]. cbn [runBind].
  set (cells := Z.to_nat (gridHeight (grid e) * gridWidth (grid e))).
  set (body := λ '(visits, pathsPerStart, k) st,
         let '(visits1, paths, k1) :=
           heatmapLoop exp random p e (Some st) nPerStart maxSteps visits [] k in
         (visits1, pathsPerStart ++ [paths], k1)).
  assert (∀ (sts : list pos) counts (pps : list (list (list pos))) k0,
            Forall (λ v, (0 <= v)%Qc) counts →
            Forall (λ paths, (length paths ≤ nPerStart)%nat
                             ∧ Forall (λ cs, last cs = Some (goal e)) paths)
                   pps →
            let res := foldl body (counts, pps, k0) sts in
            Forall (λ v, (0 <= v)%Qc) res.1.1
            ∧ length res.1.1 = length counts
            ∧ length res.1.2 = (length pps + length sts)%nat
            ∧ Forall (λ paths, (length paths ≤ nPerStart)%nat
                               ∧ Forall (λ cs, last cs = Some (goal e)) paths)
                     res.1.2) as Hfold.
  { induction sts as [|st sts IH]; intros counts pps k0 Hnn Hpps;
      cbn [foldl].
    { cbn [fst snd length]. split; [done|]. split; [done|]. split; [lia|done]. }
    assert (∃ counts1 found k1,
              body (counts, pps, k0) st = (counts1, pps ++ [found], k1)
              ∧ Forall (λ v, (0 <= v)%Qc) counts1
              ∧ length counts1 = length counts
              ∧ Forall (λ cs, last cs = Some (goal e)) found
              ∧ (length found ≤ nPerStart)%nat)
      as (counts1 & found & k1 & -> & Hnn1 & Hlen1 & Hgoal1 & Hcount1).
    { pose proof (heatmapLoop_spec exp random p e (Some st) nPerStart maxSteps
                    counts [] k0 Hnn (Forall_nil_2 _)) as Hloop.
      cbv zeta in Hloop. unfold body.
      destruct (heatmapLoop exp random p e (Some st) nPerStart maxSteps
                  counts [] k0) as [[counts1 found] k1].
      cbn [fst snd length] in Hloop.
      destruct Hloop as (Hnn1 & Hlen1 & Hgoal1 & Hcount1 & _).
      exists counts1, found, k1. split; [done|]. split; [done|].
      split; [done|]. split; [done|lia]. }
    destruct (IH counts1 (pps ++ [found]) k1 Hnn1) as (H1 & H2 & H3 & H4).
    { apply Forall_app. split; [done|]. by apply Forall_singleton. }
    split; [done|]. split; [by rewrite H2|]. split; [|done].
    rewrite H3, length_app. simpl. lia. }
  assert (Forall (λ v, (0 <= v)%Qc) (replicate cells 0%Qc)) as Hzero.
  { apply Forall_forall. intros v Hv. apply elem_of_replicate in Hv as [-> _].
    apply Qcle_refl. }
  specialize (Hfold starts (replicate cells 0%Qc) [] k Hzero (Forall_nil_2 _)).
  cbv zeta in Hfold.
  destruct (foldl body (replicate cells 0%Qc, [], k) starts)
    as [[counts pps] k1].
  cbn [fst snd length] in Hfold. destruct Hfold as (Hnn & Hlen & Hpl & Hpps).
  intros [= <- <- <-].
  destruct (normalise_spec counts Hnn) as (Hnl & Hrange & Hone & _).
  split; [by rewrite Hnl, Hlen, length_replicate|]. split; [exact Hrange|].
  split; [exact Hone|]. split; [exact Hpl|exact Hpps].
Qed.

Lemma generateHeatmap_normalised_witness :
  runBind (generateHeatmap expQ mixedDraws (replicate 48 0%Qc) corridorWorld
             (Some (1, 1)) 2 3 1)
    (λ '(visits, paths, k'), Returns (this <$> visits, paths, k'))
  = Returns ([0; 0; 0; 0; 0; 1; 1 # 5; 0; 0; 0; 0; 0]%Q,
             [[(1, 1); (1, 2)]], 5%nat)
  ∧ ∃ visits paths k',
      generateHeatmap expQ mixedDraws (replicate 48 0%Qc) corridorWorld
        (Some (1, 1)) 2 3 1 = Returns (visits, paths, k')
      ∧ length visits = 12%nat
      ∧ Forall (λ v, (0 <= v)%Qc ∧ (v <= 1)%Qc) visits
      ∧ (1%Qc ∈ visits ∨ Forall (λ v, v = 0%Qc) visits)
      ∧ ((0 < 2)%nat → inBounds corridorWorld 1 1 = true → 1%Qc ∈ visits)
      ∧ (length paths ≤ 2)%nat
      ∧ Forall (λ cells, last cells = Some (goal corridorWorld)) paths.
Proof.
  split; [by vm_compute|].
  destruct (generateHeatmap expQ mixedDraws (replicate 48 0%Qc) corridorWorld
              (Some (1, 1)) 2 3 1) as [| |[[visits paths] k']] eqn:Hrun;
    [by vm_compute in Hrun..|].
  exists visits, paths, k'. split; [reflexivity|].
  exact (generateHeatmap_normalised expQ mixedDraws (replicate 48 0%Qc)
           corridorWorld (Some (1, 1)) 2 3 1 visits paths k' Hrun).
Defined.

Lemma generateHeatmapMultistart_normalised_witness :
  runBind (generateHeatmapMultistart expQ mixedDraws (replicate 48 0%Qc)
             corridorWorld [(1, 1); (1, 2)] 1 3 1)
    (λ '(visits, paths, k'), Returns (this <$> visits, paths, k'))
  = Returns ([0; 0; 0; 0; 0; 1 # 2; 1; 0; 0; 0; 0; 0]%Q,
             [[[(1, 1); (1, 2)]]; [[(1, 2)]]], 2%nat)
  ∧ ∃ visits pathsPerStart k',
      generateHeatmapMultistart expQ mixedDraws (replicate 48 0%Qc)
        corridorWorld [(1, 1); (1, 2)] 1 3 1
      = Returns (visits, pathsPerStart, k')
      ∧ length visits = 12%nat
      ∧ Forall (λ v, (0 <= v)%Qc ∧ (v <= 1)%Qc) visits
      ∧ (1%Qc ∈ visits ∨ Forall (λ v, v = 0%Qc) visits)
      ∧ length pathsPerStart = 2%nat
      ∧ Forall (λ paths, (length paths ≤ 1)%nat
                         ∧ Forall (λ cells, last cells
                                            = Some (goal corridorWorld)) paths)
               pathsPerStart.
Proof.
  split; [by vm_compute|].
  destruct (generateHeatmapMultistart expQ mixedDraws (replicate 48 0%Qc)
              corridorWorld [(1, 1); (1, 2)] 1 3 1)
    as [| |[[visits pathsPerStart] k']] eqn:Hrun; [by vm_compute in Hrun..|].
  exists visits, pathsPerStart, k'. split; [reflexivity|].
  exact (generateHeatmapMultistart_normalised expQ mixedDraws
           (replicate 48 0%Qc) corridorWorld [(1, 1); (1, 2)] 1 3 1
           visits pathsPerStart k' Hrun).
Defined.

(** ** The speed slider *)

Section SliderFacts.

(** [Math.floor] of a quotient of whole numbers is the whole quotient. *)
Lemma floorQc_div (a b : Z) : floorQc (Qc_of_Z a / Qc_of_Z b)%Qc = a / b.
Proof.
  unfold floorQc, Qcdiv, Qcmult, Qcinv. cbn [this Q2Qc Qc_of_Z].
  rewrite Zdiv_Qdiv. apply Qfloor_comp.
  by rewrite !Qred_correct.
Qed.

(** The number that [Math.round] is given, as one quotient. *)
Lemma slider_value (v n d : Z) :
  n ≠ 0 →
  (Qc_of_Z v / Qc_of_Z (2 * n) * Qc_of_Z (2 * d) + Q2Qc (1 # 2))%Qc
  = (Qc_of_Z (2 * d * v + n) / Qc_of_Z (2 * n))%Qc.
Proof.
  intros Hn. rewrite !Z2Qc_inj_add, !Z2Qc_inj_mul.
  assert (Qc_of_Z n ≠ 0%Qc) as Hnz.
  { rewrite <- Z2Qc_inj_0. by intros H%Z2Qc_inj. }
  replace (Q2Qc (1 # 2)) with (1 / Qc_of_Z 2)%Qc
    by (apply Qc_is_canon; by vm_compute).
  assert (Qc_of_Z 2 ≠ 0%Qc) as H2 by (by vm_compute).
  field. by split.
Qed.

Lemma sliderToSpeed_whole (v : Z) :
  sliderToSpeed (Qc_of_Z v) = Z.max 1 ((20 * v + 50) / 100).
Proof.
  unfold sliderToSpeed, roundQc.
  change (Qc_of_Z 100) with (Qc_of_Z (2 * 50)).
  change (Qc_of_Z 20) with (Qc_of_Z (2 * 10)).
  rewrite slider_value by done. by rewrite floorQc_div.
Qed.

Lemma speedToSlider_whole (spd : Z) :
  speedToSlider (Qc_of_Z spd) = (100 * spd + 10) / 20.
Proof.
  unfold speedToSlider, roundQc.
  change (Qc_of_Z 100) with (Qc_of_Z (2 * 50)).
  change (Qc_of_Z 20) with (Qc_of_Z (2 * 10)).
  rewrite slider_value by done. by rewrite floorQc_div.
Qed.

End SliderFacts.

(** X30.  The slider and the speed fit together: for a speed from 1 to 20
    [speedToSlider] gives five times the speed and [sliderToSpeed] gives the
    speed back; every whole slider value from 1 to 100 gives a speed from 1
    to 20; and [changeSpeed] keeps the speed from 1 to 20. *)
Theorem speed_slider_round_trip (spd : Z) :
  1 ≤ spd ≤ 20 →
  speedToSlider (Qc_of_Z spd) = 5 * spd
  ∧ sliderToSpeed (Qc_of_Z (speedToSlider (Qc_of_Z spd))) = spd
  ∧ (∀ val, 1 ≤ val ≤ 100 → 1 ≤ sliderToSpeed (Qc_of_Z val) ≤ 20)
  ∧ (∀ delta, 1 ≤ changeSpeed spd delta ≤ 20)
  ∧ (∀ delta, 1 ≤ spd + delta ≤ 20 → changeSpeed spd delta = spd + delta).
Proof.
  intros Hspd.
  assert (speedToSlider (Qc_of_Z spd) = 5 * spd) as Hslider.
  { rewrite speedToSlider_whole. Z.div_mod_to_equations. lia. }
  split; [exact Hslider|]. split; [|split; [|split]].
  - rewrite Hslider, sliderToSpeed_whole. Z.div_mod_to_equations. lia.
  - intros val Hval. rewrite sliderToSpeed_whole.
    Z.div_mod_to_equations. lia.
  - intros delta. unfold changeSpeed. lia.
  - intros delta Hd. unfold changeSpeed. lia.
Qed.

Lemma speed_slider_round_trip_witness :
  1 ≤ 3 ≤ 20
  ∧ speedToSlider (Qc_of_Z 3) = 5 * 3
  ∧ sliderToSpeed (Qc_of_Z (speedToSlider (Qc_of_Z 3))) = 3
  ∧ (∀ val, 1 ≤ val ≤ 100 → 1 ≤ sliderToSpeed (Qc_of_Z val) ≤ 20)
  ∧ (∀ delta, 1 ≤ changeSpeed 3 delta ≤ 20)
  ∧ (∀ delta, 1 ≤ 3 + delta ≤ 20 → changeSpeed 3 delta = 3 + delta).
Proof.
  split; [lia|]. apply (speed_slider_round_trip 3). lia.
Defined.
